(** * minshell: a shallow embedding of [lex.l] and [minshell.c]

    The tokenizer ([lex.l], a flex specification), the command builder
    ([new_cmd], [parse]) and the executor ([spawn], [exec], [exec_pipe],
    [cmd_exit], [cmd_cd], [main]) are transcribed as Rocq functions.

    - C strings ([char *]) are [string]s; [chr s i] reads [s[i]] and gives
      the terminating NUL at the end of the string.
    - [int] indices and counters are [nat]; where the source compares a
      difference with zero the comparison is made in [Z].
    - The operating system (process table, working directory, environment,
      descriptors) is an explicit state [OS] threaded through the executor;
      what the kernel decides (whether [fork] and [pipe] succeed, how a child
      ends, which child is reaped next) is read from oracles stored in that
      state, and every system call of the interpreter process is logged in
      a trace. *)

From Stdlib Require Import ZArith Ascii String.
From stdpp Require Import base list strings.

Local Open Scope Z_scope.
Local Open Scope nat_scope.

(** ** C strings *)

Definition NUL : ascii := "000"%char.
Definition NL : ascii := "010"%char.   (* '\n' *)
Definition TAB : ascii := "009"%char.  (* '\t' *)
Definition newline : string := String NL EmptyString.  (* "\n" *)

(** [s[i]] for a NUL-terminated string. *)
Definition chr (s : string) (i : nat) : ascii :=
  match String.get i s with
  | Some c => c
  | None => NUL
  end.

(** ** The tokenizer, [lex.l] *)

Module Lex.

(** [#define _NUMARGS 64] *)
Definition _NUMARGS : nat := 64.

(** Built-in command tokens. *)
Definition T_CD : ascii := "c"%char.
Definition T_EXIT : ascii := "e"%char.

(** [_add_arg]: the token is stored only while [_argcount < _NUMARGS-1];
    [_args] is the NULL-terminated array, here the list of its entries. *)
Definition _add_arg (_text : string) (_args : list string) : list string :=
  if bool_decide (length _args < _NUMARGS - 1) then _args ++ [_text] else _args.

(** [_ADD_TOK(T)]: [_tok] is the buffer ["\n "] whose second character is
    overwritten with [T] before it is added. *)
Definition _tok (T : ascii) : string := String NL (String T EmptyString).
Definition _ADD_TOK (T : ascii) (_args : list string) : list string :=
  _add_arg (_tok T) _args.

(** Character classes of the definitions section.
    [WORD [~a-zA-Z0-9\/\.-]+] and [SPECIAL [><|]]. *)
Definition in_range (lo hi c : ascii) : bool :=
  ((lo <=? c) && (c <=? hi))%char.

Definition is_word_char (c : ascii) : bool :=
  (c =? "~")%char || in_range "a" "z" c || in_range "A" "Z" c ||
  in_range "0" "9" c || (c =? "/")%char || (c =? ".")%char || (c =? "-")%char.

Definition is_special_char (c : ascii) : bool :=
  (c =? ">")%char || (c =? "<")%char || (c =? "|")%char.

Definition is_blank_char (c : ascii) : bool :=
  (c =? " ")%char || (c =? TAB)%char.

(** Length of the longest match of a pattern at the start of the input;
    [0] when the pattern does not match. *)
Fixpoint run_len (p : ascii -> bool) (s : string) : nat :=
  match s with
  | String c s' => if p c then S (run_len p s') else 0
  | EmptyString => 0
  end.

Definition one_len (p : ascii -> bool) (s : string) : nat :=
  match s with
  | String c _ => if p c then 1 else 0
  | EmptyString => 0
  end.

Definition lit_len (lit s : string) : nat :=
  if String.prefix lit s then String.length lit else 0.

(** The rules of the rules section, in the order of the file. *)
Inductive rule :=
| R_oror          (* "||"                *)
| R_exit          (* exit                *)
| R_cd            (* cd                  *)
| R_word_special  (* {WORD}|{SPECIAL}    *)
| R_newline       (* [\n]                *)
| R_semi          (* [;]                 *)
| R_blank         (* [ \t]+              *)
| R_any.          (* .                   *)

Definition rules : list (rule * (string -> nat)) :=
  [ (R_oror, lit_len "||");
    (R_exit, lit_len "exit");
    (R_cd, lit_len "cd");
    (R_word_special, fun s => run_len is_word_char s `max` one_len is_special_char s);
    (R_newline, one_len (fun c => (c =? NL)%char));
    (R_semi, one_len (fun c => (c =? ";")%char));
    (R_blank, run_len is_blank_char);
    (R_any, one_len (fun c => negb (c =? NL)%char)) ].

(** flex takes the rule with the longest match and, among rules matching the
    same length, the one listed first. *)
Definition better (cur : option (rule * nat)) (cand : rule * nat) : option (rule * nat) :=
  match cur with
  | None => if bool_decide (0 < cand.2) then Some cand else None
  | Some (_, n) => if bool_decide (n < cand.2) then Some cand else cur
  end.

Definition scan_rule (s : string) : option (rule * nat) :=
  foldl better None ((fun rf : rule * (string -> nat) => (rf.1, rf.2 s)) <$> rules).

(** [yylex]: [s] is the unread input, [skip] the number of characters of the
    current match still to be consumed.  The result is the token array, the
    value stored through [_status] and the input left for the next call. *)
Fixpoint yylex (s : string) (skip : nat) (_args : list string)
  : list string * Z * string :=
  match s with
  | EmptyString => (_args, (-1)%Z, EmptyString)              (* <<EOF>> *)
  | String _ s' =>
    match skip with
    | S k => yylex s' k _args
    | 0 =>
      match scan_rule s with
      | Some (R_oror, n) => yylex s' (n - 1) _args           (* ignore *)
      | Some (R_exit, n) => yylex s' (n - 1) (_ADD_TOK T_EXIT _args)
      | Some (R_cd, n) => yylex s' (n - 1) (_ADD_TOK T_CD _args)
      | Some (R_word_special, n) =>
          yylex s' (n - 1) (_add_arg (String.substring 0 n s) _args)
      | Some (R_newline, _) => (_args, 1%Z, s')
      | Some (R_semi, _) => (_args, 0%Z, s')
      | Some (R_blank, n) => yylex s' (n - 1) _args
      | Some (R_any, n) => yylex s' (n - 1) _args
      | None => yylex s' 0 _args       (* flex's default rule; never taken *)
      end
    end
  end.

(** [getline]: the code before the first rule resets the array on every
    call ([_argcount = 0; _args[0] = NULL]). *)
Definition getline (input : string) : list string * Z * string :=
  yylex input 0 [].

End Lex.

(** ** Outcomes of a computation of the interpreter process *)

Inductive result (A : Type) : Type :=
| Ret (a : A)      (* the call returns *)
| Undefined        (* a store outside an array: undefined behaviour *)
| Blocked.         (* the process never returns from [wait] *)
Arguments Ret {A} a.
Arguments Undefined {A}.
Arguments Blocked {A}.

Definition bind {A B : Type} (m : result A) (k : A -> result B) : result B :=
  match m with
  | Ret a => k a
  | Undefined => Undefined
  | Blocked => Blocked
  end.

Notation "x <-- m ;; k" := (bind m (fun x => k))
  (at level 100, m at next level, right associativity).

(** [a[i] = v] on an array of fixed size. *)
Definition store {A : Type} (a : list A) (i : nat) (v : A) : result (list A) :=
  if bool_decide (i < length a) then Ret (<[i := v]> a) else Undefined.

(** ** The command builder, [minshell.c] *)

(** [typedef struct Cmd]; the NULL-terminated arrays are lists. *)
Record Cmd : Type := mkCmd {
  cmd_args : list string;       (* args      *)
  cmd_argn : nat;               (* argn      *)
  cmd_files_in : list string;   (* files_in  *)
  cmd_files_out : list string   (* files_out *)
}.

(** [arg[1] == '\0' && (arg[0] == '<' || arg[0] == '>')] *)
Definition is_redirect (arg : string) : bool :=
  (chr arg 1 =? NUL)%char && ((chr arg 0 =? "<")%char || (chr arg 0 =? ">")%char).

(** [arg[1] == '\0' && arg[0] == '|'] *)
Definition is_pipe (arg : string) : bool :=
  (chr arg 1 =? NUL)%char && (chr arg 0 =? "|")%char.

(** [a - b] on [int]s. *)
Definition isub (a b : nat) : Z := (Z.of_nat a - Z.of_nat b)%Z.

(** The locals of [new_cmd] that its first loop updates.  [files_in] and
    [files_out] are the arrays of indices, [in_n] and [out_n] their lengths. *)
Record scan : Type := mkScan {
  s_argn : nat;             (* _argn       *)
  s_last_index : nat;       (* last_index  *)
  s_last_symbol : ascii;    (* last_symbol *)
  s_files_in : list nat;    (* files_in[0..in_n)   *)
  s_files_out : list nat    (* files_out[0..out_n) *)
}.

Definition scan_init (argn : nat) : scan :=
  {| s_argn := argn; s_last_index := 0; s_last_symbol := NUL;
     s_files_in := []; s_files_out := [] |}.

(** The loop [for (i = 0; i < argn; i++)] of [new_cmd]; [k] counts the
    iterations left, [argn - i].  [inl i] is the [return NULL] taken at
    index [i]. *)
Fixpoint new_cmd_scan (args : list string) (argn : nat) (k i : nat) (st : scan)
  : nat + scan :=
  match k with
  | 0 => inr st
  | S k' =>
    let arg := nth i args EmptyString in
    if is_redirect arg then
      if (Z.of_nat i =? Z.of_nat argn - 1)%Z       (* cant be last element *)
         || (isub i (s_last_index st) =? 0)%Z      (* cant be adjacent *)
      then inl i
      else
        new_cmd_scan args argn k' (S i)
          {| s_argn := if bool_decide (s_argn st = argn) then i else s_argn st;
             s_last_symbol := chr arg 0;
             s_last_index := i + 1;
             s_files_in := s_files_in st;
             s_files_out := s_files_out st |}
    else if negb (s_last_symbol st =? NUL)%char then
      if (s_last_symbol st =? "<")%char
      then new_cmd_scan args argn k' (S i)
             {| s_argn := s_argn st; s_last_symbol := s_last_symbol st;
                s_last_index := s_last_index st;
                s_files_in := s_files_in st ++ [i];
                s_files_out := s_files_out st |}
      else new_cmd_scan args argn k' (S i)
             {| s_argn := s_argn st; s_last_symbol := s_last_symbol st;
                s_last_index := s_last_index st;
                s_files_in := s_files_in st;
                s_files_out := s_files_out st ++ [i] |}
    else new_cmd_scan args argn k' (S i) st
  end.

(** [new_cmd]: [inl err] is the NULL return with [*err] set; allocation is
    taken to succeed.  The copy of [args] keeps the first [_argn] entries. *)
Definition new_cmd (args : list string) (argn : nat) : string + Cmd :=
  match new_cmd_scan args argn argn 0 (scan_init argn) with
  | inl i => inl (nth i args EmptyString)
  | inr st =>
      inr {| cmd_argn := s_argn st;
             cmd_files_in := (fun j => nth j args EmptyString) <$> s_files_in st;
             cmd_files_out := (fun j => nth j args EmptyString) <$> s_files_out st;
             cmd_args := take (s_argn st) args |}
  end.

(** What [parse] leaves behind: its return value, [*cmdn], the array [cmds]
    and the token named by [PARSE_ERR], if one was printed. *)
Record parse_out : Type := mkParseOut {
  p_ret : bool;
  p_cmdn : nat;
  p_cmds : list (option Cmd);
  p_err : option string
}.

(** The loop of [parse] and the code after it.  [rest] is [args] from index
    [i] on, so [rest = []] is the test [args[i] == NULL].  [argn] is declared
    [char] in the source; [i - last_cmd] is at most the number of tokens. *)
Fixpoint parse_loop (args rest : list string) (i last_cmd : nat)
    (cmds : list (option Cmd)) (cmdn : nat) : result parse_out :=
  match rest with
  | arg :: rest' =>
    if is_pipe arg then
      if (isub i last_cmd =? 0)%Z then                (* two adjacent pipes *)
        Ret {| p_ret := false; p_cmdn := cmdn; p_cmds := cmds; p_err := Some "|" |}
      else
        match new_cmd (drop last_cmd args) (i - last_cmd) with
        | inl err =>
            cmds' <-- store cmds cmdn None ;;
            Ret {| p_ret := false; p_cmdn := cmdn; p_cmds := cmds'; p_err := Some err |}
        | inr cmd =>
            cmds' <-- store cmds cmdn (Some cmd) ;;
            parse_loop args rest' (S i) (S i) cmds' (S cmdn)
        end
    else parse_loop args rest' (S i) last_cmd cmds cmdn
  | [] =>
    if (isub i last_cmd >? 0)%Z then
      match new_cmd (drop last_cmd args) (i - last_cmd) with
      | inl err =>
          cmds' <-- store cmds cmdn None ;;
          Ret {| p_ret := false; p_cmdn := cmdn; p_cmds := cmds'; p_err := Some err |}
      | inr cmd =>
          cmds' <-- store cmds cmdn (Some cmd) ;;
          Ret {| p_ret := true; p_cmdn := S cmdn; p_cmds := cmds'; p_err := None |}
      end
    else                                        (* pipe can't be last *)
      Ret {| p_ret := false; p_cmdn := cmdn; p_cmds := cmds; p_err := Some "|" |}
  end.

Definition parse (args : list string) (cmds : list (option Cmd)) : result parse_out :=
  match args with
  | [] => Ret {| p_ret := false; p_cmdn := 0; p_cmds := cmds; p_err := None |}
  | _ :: _ => parse_loop args args 0 0 cmds 0
  end.

(** [Cmd *cmds[32]] in [main]. *)
Definition MAX_CMDS : nat := 32.

(** ** The operating system seen from the interpreter process *)

(** [CMD_SUCCESS], [CMD_FAILURE], [CMD_EXIT] and the standard descriptors. *)
Definition CMD_SUCCESS : Z := 0.
Definition CMD_FAILURE : Z := 1.
Definition CMD_EXIT : Z := 2.
Definition STDIN_FILENO : Z := 0.
Definition STDOUT_FILENO : Z := 1.

(** What a forked child runs: the branch [pid == 0] of [spawn] with the
    command and the two descriptors it was called with. *)
Record proc : Type := mkProc {
  pr_cmd : Cmd;
  pr_file_in : Z;
  pr_file_out : Z
}.

(** The system calls and writes of the interpreter process. *)
Inductive event : Type :=
| EvStdout (text : string)
| EvStderr (text : string)
| EvPipe (fds : option (Z * Z))           (* None: pipe() returned -1 *)
| EvFork (child : option (Z * proc))      (* None: fork() returned -1 *)
| EvClose (fd : Z)
| EvChdir (path : string) (ok : bool)
| EvWait (reaped : option (Z * Z)).       (* pid and status; None: -1 *)

(** How a call of [fork] ends: it fails, or it creates a child that ends
    with the given wait status ([None]: the child never ends). *)
Inductive fork_outcome : Type :=
| ForkFails
| ForkChild (status : option Z).

Record OS : Type := mkOS {
  os_cwd : string;                               (* working directory *)
  os_home : option string;                       (* getenv("HOME") *)
  os_isatty : bool;                              (* isatty(STDIN_FILENO) *)
  os_dir : string -> string -> string + string;
     (* chdir(path) from cwd: [inr] the new directory, [inl] strerror(errno) *)
  os_fork : nat -> fork_outcome;                 (* the n-th call of fork *)
  os_pipe : nat -> bool;                         (* the n-th call of pipe *)
  os_sched : nat -> nat;      (* the n-th reaping: which ended child is next *)
  os_nfork : nat;
  os_npipe : nat;
  os_nwait : nat;
  os_children : list (Z * option Z);             (* unreaped children *)
  os_trace : list event
}.

Definition log (ev : event) (os : OS) : OS :=
  mkOS (os_cwd os) (os_home os) (os_isatty os) (os_dir os) (os_fork os)
       (os_pipe os) (os_sched os) (os_nfork os) (os_npipe os) (os_nwait os)
       (os_children os) (os_trace os ++ [ev]).

Definition fprintf_stderr (text : string) (os : OS) : OS := log (EvStderr text) os.

(** [fork()]: the pid in the parent, [-1] on failure. *)
Definition sys_fork (p : proc) (os : OS) : Z * OS :=
  let n := os_nfork os in
  match os_fork os n with
  | ForkFails =>
      ((-1)%Z,
       mkOS (os_cwd os) (os_home os) (os_isatty os) (os_dir os) (os_fork os)
            (os_pipe os) (os_sched os) (S n) (os_npipe os) (os_nwait os)
            (os_children os) (os_trace os ++ [EvFork None]))
  | ForkChild status =>
      let pid := Z.of_nat (S n) in
      (pid,
       mkOS (os_cwd os) (os_home os) (os_isatty os) (os_dir os) (os_fork os)
            (os_pipe os) (os_sched os) (S n) (os_npipe os) (os_nwait os)
            (os_children os ++ [(pid, status)])
            (os_trace os ++ [EvFork (Some (pid, p))]))
  end.

(** [pipe(pipefd)]: the read and the write end, numbered in order of
    creation. *)
Definition sys_pipe (os : OS) : option (Z * Z) * OS :=
  let n := os_npipe os in
  let fds := if os_pipe os n
             then Some (Z.of_nat (3 + 2 * n), Z.of_nat (4 + 2 * n)) else None in
  (fds,
   mkOS (os_cwd os) (os_home os) (os_isatty os) (os_dir os) (os_fork os)
        (os_pipe os) (os_sched os) (os_nfork os) (S n) (os_nwait os)
        (os_children os) (os_trace os ++ [EvPipe fds])).

Definition sys_close (fd : Z) (os : OS) : OS := log (EvClose fd) os.

(** [chdir(path)]: [None] on success, the error text otherwise; the working
    directory changes only on success. *)
Definition sys_chdir (path : string) (os : OS) : option string * OS :=
  match os_dir os (os_cwd os) path with
  | inr dir =>
      (None,
       mkOS dir (os_home os) (os_isatty os) (os_dir os) (os_fork os)
            (os_pipe os) (os_sched os) (os_nfork os) (os_npipe os) (os_nwait os)
            (os_children os) (os_trace os ++ [EvChdir path true]))
  | inl err => (Some err, log (EvChdir path false) os)
  end.

(** Indices of the children that have ended. *)
Definition ended (children : list (Z * option Z)) : list nat :=
  omap (fun ic : nat * (Z * option Z) =>
          match ic.2.2 with Some _ => Some ic.1 | None => None end)
       (imap pair children).

(** [wait(&status)]. *)
Inductive wait_outcome : Type :=
| WaitNone (os : OS)                        (* no child: returns -1 *)
| WaitBlocks                                (* children, none of which ends *)
| WaitReaped (pid status : Z) (os : OS).

Definition sys_wait (os : OS) : wait_outcome :=
  match os_children os with
  | [] => WaitNone (log (EvWait None) os)
  | _ :: _ =>
    let ready := ended (os_children os) in
    match ready !! (os_sched os (os_nwait os) `mod` length ready) with
    | Some i =>
      match os_children os !! i with
      | Some (pid, Some status) =>
          WaitReaped pid status
            (mkOS (os_cwd os) (os_home os) (os_isatty os) (os_dir os) (os_fork os)
                  (os_pipe os) (os_sched os) (os_nfork os) (os_npipe os)
                  (S (os_nwait os)) (delete i (os_children os))
                  (os_trace os ++ [EvWait (Some (pid, status))]))
      | _ => WaitBlocks
      end
    | None => WaitBlocks
    end
  end.

(** [while (wait(&status) > 0);] with [n] the number of unreaped children:
    every pass that goes on reaps one of them. *)
Fixpoint wait_loop (n : nat) (status : Z) (os : OS) : result (Z * OS) :=
  match sys_wait os with
  | WaitNone os' => Ret (status, os')
  | WaitBlocks => Blocked
  | WaitReaped _ status' os' =>
      match n with
      | S n' => wait_loop n' status' os'
      | 0 => Ret (status', os')
      end
  end.

Definition wait_all (status : Z) (os : OS) : result (Z * OS) :=
  wait_loop (length (os_children os)) status os.

(** ** The executor, [minshell.c] *)

Definition cmd_exit (cmd : Cmd) (os : OS) : Z * OS := (CMD_EXIT, os).

(** The end of [cmd_cd]: [Attempt to change directory]. *)
Definition cmd_cd_chdir (path : string) (os : OS) : Z * OS :=
  match sys_chdir path os with
  | (Some err, os') =>
      (CMD_FAILURE,
       fprintf_stderr ("cd: " +:+ path +:+ ": " +:+ err +:+ newline) os')
  | (None, os') => (CMD_SUCCESS, os')
  end.

(** [cmd_cd] from the comment [Handle tilde as argument] on. *)
Definition cmd_cd_path (path : string) (os : OS) : Z * OS :=
  if (chr path 0 =? "~")%char then
    if (chr path 1 =? NUL)%char then
      match os_home os with
      | None =>
          (CMD_FAILURE,
           fprintf_stderr ("cd: $HOME env variable is invalid" +:+ newline) os)
      | Some home => cmd_cd_chdir home os
      end
    else
      (CMD_FAILURE,
       fprintf_stderr ("cd: tilde expansion is not supported" +:+ newline) os)
  else cmd_cd_chdir path os.

Definition cmd_cd (cmd : Cmd) (os : OS) : Z * OS :=
  match cmd_args cmd !! 1 with
  | None => cmd_cd_path "~" os
  | Some path =>
      if bool_decide (2 < cmd_argn cmd) then
        (CMD_FAILURE,
         fprintf_stderr ("cd: too many arguments" +:+ newline) os)
      else cmd_cd_path path os
  end.

(** [spawn]: the child branch runs in the new process; the interpreter sees
    of it the pid and, later, the wait status. *)
Definition spawn (cmd : Cmd) (file_in file_out : Z) (os : OS) : Z * OS :=
  let arg0 := nth 0 (cmd_args cmd) EmptyString in
  let fork_path :=
    match sys_fork (mkProc cmd file_in file_out) os with
    | (pid, os') =>
        if (pid =? -1)%Z
        then (CMD_FAILURE, fprintf_stderr "minshell: process spawn error" os')
        else (CMD_SUCCESS, os')
    end in
  if (chr arg0 0 =? NL)%char then
    if (chr arg0 1 =? Lex.T_EXIT)%char then cmd_exit cmd os
    else if (chr arg0 1 =? Lex.T_CD)%char then cmd_cd cmd os
    else fork_path
  else fork_path.

Definition status_result (status : Z) : Z :=
  if (status =? 0)%Z then CMD_SUCCESS else CMD_FAILURE.

Definition exec (cmd : Cmd) (os : OS) : result (Z * OS) :=
  match spawn cmd STDIN_FILENO STDOUT_FILENO os with
  | (r, os1) =>
      if (r =? CMD_EXIT)%Z then Ret (CMD_EXIT, os1)
      else
        w <-- wait_all 0 os1 ;;
        Ret (status_result w.1, w.2)
  end.

(** [cmds[i]]: reading outside the array or through NULL is undefined. *)
Definition load (cmds : list (option Cmd)) (i : nat) : result Cmd :=
  match cmds !! i with
  | Some (Some cmd) => Ret cmd
  | _ => Undefined
  end.

(** Where the loop of [exec_pipe] leaves the function. *)
Inductive pipe_loop_out : Type :=
| LoopExit (os : OS)                          (* return CMD_EXIT *)
| LoopDone (i : nat) (file_in : Z) (os : OS). (* loop left, by the test or by break *)

(** [for (i = 0; i < cmdn - 1; i++)] of [exec_pipe]; [k] counts the
    iterations left. *)
Fixpoint exec_pipe_loop (cmds : list (option Cmd)) (k i : nat) (file_in : Z)
    (os : OS) : result pipe_loop_out :=
  match k with
  | 0 => Ret (LoopDone i file_in os)
  | S k' =>
    match sys_pipe os with
    | (None, os1) =>
        Ret (LoopDone i file_in (fprintf_stderr "minshell: pipe error" os1))
    | (Some (rd, wr), os1) =>
        cmd <-- load cmds i ;;
        match spawn cmd file_in wr os1 with
        | (r, os2) =>
            if (r =? CMD_EXIT)%Z then Ret (LoopExit os2)
            else exec_pipe_loop cmds k' (S i) rd (sys_close wr os2)
        end
    end
  end.

(** The code of [exec_pipe] after the loop. *)
Definition exec_pipe_last (cmds : list (option Cmd)) (i : nat) (file_in : Z)
    (os : OS) : result (Z * OS) :=
  cmd <-- load cmds i ;;
  match spawn cmd file_in STDOUT_FILENO os with
  | (r, os1) =>
      if (r =? CMD_EXIT)%Z then Ret (CMD_EXIT, os1)
      else
        w <-- wait_all 0 os1 ;;
        Ret (status_result w.1, w.2)
  end.

Definition exec_pipe (cmds : list (option Cmd)) (cmdn : nat) (os : OS)
  : result (Z * OS) :=
  out <-- exec_pipe_loop cmds (cmdn - 1) 0 STDIN_FILENO os ;;
  match out with
  | LoopExit os1 => Ret (CMD_EXIT, os1)
  | LoopDone i file_in os1 => exec_pipe_last cmds i file_in os1
  end.

(** ** The driver loop, [main] *)

(** [PARSE_ERR(token)] *)
Definition PARSE_ERR (token : string) : string :=
  "minshell: syntax error near unexpected token `" +:+ token +:+ "'" +:+ newline.

(** [CYAN SHELL BOLD " $ " RESET] *)
Definition ESC : ascii := "027"%char.
Definition prompt : string :=
  String ESC "[36m" +:+ "minshell" +:+ String ESC "[1m" +:+ " $ " +:+ String ESC "[0m".

(** The variables of [main] that live across iterations, standard input and
    the operating system. *)
Record shell : Type := mkShell {
  sh_input : string;
  sh_running : bool;
  sh_status : Z;
  sh_cmds : list (option Cmd);
  sh_os : OS
}.

(** [if (isatty(STDIN_FILENO) && status) printf(...)] *)
Definition print_prompt (st : shell) : OS :=
  if os_isatty (sh_os st) && negb (sh_status st =? 0)%Z
  then log (EvStdout prompt) (sh_os st) else sh_os st.

(** One pass through the body of [while (running)]. *)
Definition main_body (st : shell) : result shell :=
  let os0 := print_prompt st in
  match Lex.getline (sh_input st) with
  | (args, status, input) =>
    let running := if (status =? -1)%Z then false else sh_running st in
    p <-- parse args (sh_cmds st) ;;
    let os1 :=
      match p_err p with
      | Some token => fprintf_stderr (PARSE_ERR token) os0
      | None => os0
      end in
    if p_ret p && bool_decide (0 < p_cmdn p) then
      r <-- (if bool_decide (1 < p_cmdn p)
             then exec_pipe (p_cmds p) (p_cmdn p) os1
             else cmd <-- load (p_cmds p) 0 ;; exec cmd os1) ;;
      Ret (mkShell input
                   (if (r.1 =? CMD_EXIT)%Z then false else running)
                   status (p_cmds p) r.2)
    else Ret (mkShell input running status (p_cmds p) os1)
  end.

(** [while (running) ...], at most [n] passes. *)
Fixpoint main_loop (n : nat) (st : shell) : result shell :=
  match n with
  | 0 => Ret st
  | S n' =>
      if sh_running st
      then st' <-- main_body st ;; main_loop n' st'
      else Ret st
  end.

(** The state in which [main] enters its loop. *)
Definition main_init (input : string) (os : OS) : shell :=
  mkShell input true 1 (replicate MAX_CMDS None) os.

(** [main] on the standard input [input], followed for [n] passes. *)
Definition main (n : nat) (input : string) (os : OS) : result shell :=
  main_loop n (main_init input os).

(** ** What the specification says a Command is built from *)

(** The argument list: the prefix of the segment before the first redirect
    symbol. *)
Fixpoint spec_args (seg : list string) : list string :=
  match seg with
  | [] => []
  | tok :: seg' => if is_redirect tok then [] else tok :: spec_args seg'
  end.

(** The filename list of direction [dir]: the tokens that follow a redirect
    symbol, each given to the direction of the latest symbol before it.
    [latest] is that symbol, NUL before the first one. *)
Fixpoint files_after (dir latest : ascii) (seg : list string) : list string :=
  match seg with
  | [] => []
  | tok :: seg' =>
      if is_redirect tok then files_after dir (chr tok 0) seg'
      else if (latest =? dir)%char then tok :: files_after dir latest seg'
      else files_after dir latest seg'
  end.

Definition spec_files_in (seg : list string) : list string := files_after "<" NUL seg.
Definition spec_files_out (seg : list string) : list string := files_after ">" NUL seg.

(** A redirect symbol in a place where [new_cmd] refuses it: at the start of
    the segment, at its end, or right after another redirect symbol. *)
Definition offending (seg : list string) (j : nat) : Prop :=
  is_redirect (nth j seg EmptyString) = true /\
  (j = 0 \/ j = length seg - 1 \/ is_redirect (nth (j - 1) seg EmptyString) = true).

(** The segments of a line: the runs of tokens between pipe tokens. *)
Fixpoint split_pipes (args : list string) : list (list string) :=
  match args with
  | [] => [[]]
  | arg :: args' =>
      if is_pipe arg then [] :: split_pipes args'
      else match split_pipes args' with
           | seg :: segs => (arg :: seg) :: segs
           | [] => [[arg]]
           end
  end.

(** Steps 1 and 2 of the command builder: the segments are built in order;
    an empty segment fails naming the pipe, a segment that [new_cmd] refuses
    fails naming its token. *)
Fixpoint build (segs : list (list string)) (cmds : list (option Cmd)) (cmdn : nat)
  : result parse_out :=
  match segs with
  | [] => Ret {| p_ret := true; p_cmdn := cmdn; p_cmds := cmds; p_err := None |}
  | seg :: segs' =>
      if bool_decide (seg = []) then
        Ret {| p_ret := false; p_cmdn := cmdn; p_cmds := cmds; p_err := Some "|" |}
      else
        match new_cmd seg (length seg) with
        | inl err =>
            cmds' <-- store cmds cmdn None ;;
            Ret {| p_ret := false; p_cmdn := cmdn; p_cmds := cmds'; p_err := Some err |}
        | inr cmd =>
            cmds' <-- store cmds cmdn (Some cmd) ;;
            build segs' cmds' (S cmdn)
        end
  end.

(** ** Lines, segments and what is said of them *)

(** The text of a line that ends with a newline. *)
Definition line (s : string) : string := s +:+ newline.

(** The tokens [getline] returns for the text of a line. *)
Definition tokens (input : string) : list string := (Lex.getline input).1.1.

(** The line [text] parses into the Commands [cs], in this order. *)
Definition yields (text : string) (cs : list Cmd) : Prop :=
  exists p, parse (tokens (line text)) (replicate MAX_CMDS None) = Ret p /\
            p_ret p = true /\ p_cmdn p = length cs /\
            take (length cs) (p_cmds p) = Some <$> cs.

(** The line [text] is refused by [parse], which names the token [tok]. *)
Definition rejects (text : string) (tok : string) : Prop :=
  exists p, parse (tokens (line text)) (replicate MAX_CMDS None) = Ret p /\
            p_ret p = false /\ p_err p = Some tok.

(** What [getline] stores through [status] and leaves of the input, and the
    value of [running] after [if (status == -1) running = 0]. *)
Definition line_status (st : shell) : Z := (Lex.getline (sh_input st)).1.2.
Definition line_rest (st : shell) : string := (Lex.getline (sh_input st)).2.
Definition still_running (st : shell) : bool :=
  if (line_status st =? -1)%Z then false else sh_running st.

(** The tokens at the indices [l]. *)
Definition nthmap (args : list string) (l : list nat) : list string :=
  (fun j => nth j args EmptyString) <$> l.

(** The Command of the specification. *)
Definition spec_cmd (seg : list string) : Cmd :=
  {| cmd_args := spec_args seg;
     cmd_argn := length (spec_args seg);
     cmd_files_in := spec_files_in seg;
     cmd_files_out := spec_files_out seg |}.

(** The two places in which the specification forbids a redirect symbol: at
    the end of the segment, and right after another redirect symbol. *)
Definition named_by_spec (seg : list string) (j : nat) : Prop :=
  is_redirect (nth j seg EmptyString) = true /\
  (j = length seg - 1 \/
   (0 < j /\ is_redirect (nth (j - 1) seg EmptyString) = true)).

(** The segments of a line whose first segment is extended by [seg] at its
    front. *)
Definition prepend (seg : list string) (segs : list (list string))
  : list (list string) :=
  match segs with
  | s :: ss => (seg ++ s) :: ss
  | [] => [seg]
  end.

(** A segment that [build] turns into a Command. *)
Definition valid (seg : list string) : Prop :=
  seg <> [] /\ exists cmd, new_cmd seg (length seg) = inr cmd.

(** The tokens of a line, counting one more for each segment: every segment
    but the last is followed by a pipe token. *)
Definition weight (segs : list (list string)) : nat :=
  sum_list ((fun seg => S (length seg)) <$> segs).

(** A pipe token at the start of the line, at its end, or next to another
    pipe token. *)
Definition misplaced_pipe (args : list string) : Prop :=
  (exists pipe rest, args = pipe :: rest /\ is_pipe pipe = true) \/
  (exists pre pipe, args = pre ++ [pipe] /\ is_pipe pipe = true) \/
  (exists pre pipe pipe' post, args = pre ++ pipe :: pipe' :: post /\
     is_pipe pipe = true /\ is_pipe pipe' = true).

(** ** The executor: what is said of it *)

(** The test of [spawn] for the built-in token [T]. *)
Definition builtin (T : ascii) (cmd : Cmd) : bool :=
  let arg0 := nth 0 (cmd_args cmd) EmptyString in
  (chr arg0 0 =? NL)%char && (chr arg0 1 =? T)%char.

(** What [cmd_cd] leaves untouched: it calls neither [fork] nor [pipe] nor
    [wait], and writes to the trace only its [chdir] and its diagnostic. *)
Definition cd_only (os os' : OS) : Prop :=
  os_nfork os' = os_nfork os /\ os_children os' = os_children os /\
  os_npipe os' = os_npipe os /\ os_pipe os' = os_pipe os /\
  os_nwait os' = os_nwait os /\
  exists evs, os_trace os' = os_trace os ++ evs /\
    Forall (fun ev => match ev with
                      | EvChdir _ _ | EvStderr _ => True
                      | _ => False
                      end) evs.

(** The value of [status] after the children [reaped] have been waited for
    in this order. *)
Definition last_status (status : Z) (reaped : list (Z * Z)) : Z :=
  default status (last reaped.*2).

(** The rest of [exec_pipe] from the top of its loop with index [i]. *)
Definition exec_pipe_from (cmds : list (option Cmd)) (cmdn i : nat) (file_in : Z)
    (os : OS) : result (Z * OS) :=
  out <-- exec_pipe_loop cmds (cmdn - 1 - i) i file_in os ;;
  match out with
  | LoopExit os1 => Ret (CMD_EXIT, os1)
  | LoopDone i file_in os1 => exec_pipe_last cmds i file_in os1
  end.

(** ** Operating systems and Commands for the examples *)

(** [fork] and [pipe] succeed, every directory exists, and the children end
    as [children] says and are reaped in the order [sched]. *)
Definition os_example (children : nat -> fork_outcome) (sched : nat -> nat) : OS :=
  mkOS "/" (Some "/root"%string) false (fun _ path => inr path)
       children (fun _ => true) sched 0 0 0 [] [].

Definition os_plain : OS := os_example (fun _ => ForkChild (Some 0%Z)) (fun _ => 0).

(** The first child forked ends with exit code 1 (wait status 256), the
    others with exit code 0. *)
Definition first_child_fails (n : nat) : fork_outcome :=
  match n with
  | 0 => ForkChild (Some 256%Z)
  | S _ => ForkChild (Some 0%Z)
  end.

Definition cmd_exit_alone : Cmd := mkCmd [Lex._tok Lex.T_EXIT] 1 [] [].
Definition cmd_cd_tmp : Cmd := mkCmd [Lex._tok Lex.T_CD; "/tmp"%string] 2 [] [].
Definition cmd_ls : Cmd := mkCmd ["ls"%string] 1 [] [].
Definition cmd_false : Cmd := mkCmd ["false"%string] 1 [] [].
Definition cmd_sleep : Cmd := mkCmd ["sleep"%string; "1"%string] 2 [] [].

(** ** The tokenizer: what is said of it *)

(** The characters at which [yylex] returns: the newline and the semicolon. *)
Definition is_terminator (c : ascii) : bool :=
  (c =? NL)%char || (c =? ";")%char.

(** The value stored through [_status] when [yylex] returns at [c]. *)
Definition terminator_status (c : ascii) : Z :=
  if (c =? NL)%char then 1%Z else 0%Z.

(** Every character of [s] satisfies [p]. *)
Fixpoint all_chars (p : ascii -> bool) (s : string) : bool :=
  match s with
  | EmptyString => true
  | String c s' => p c && all_chars p s'
  end.

(** A text without newline and semicolon. *)
Definition no_terminator (s : string) : bool :=
  all_chars (fun c => negb (is_terminator c)) s.

(** A character that no rule but [[ \t]+] and [.] matches. *)
Definition is_junk_char (c : ascii) : bool :=
  negb (Lex.is_word_char c || Lex.is_special_char c || is_terminator c).

(** The rules by name, and the length of the longest match of each. *)
Definition all_rules : list Lex.rule :=
  [Lex.R_oror; Lex.R_exit; Lex.R_cd; Lex.R_word_special;
   Lex.R_newline; Lex.R_semi; Lex.R_blank; Lex.R_any].

Definition rule_len (r : Lex.rule) (s : string) : nat :=
  match r with
  | Lex.R_oror => Lex.lit_len "||" s
  | Lex.R_exit => Lex.lit_len "exit" s
  | Lex.R_cd => Lex.lit_len "cd" s
  | Lex.R_word_special =>
      Lex.run_len Lex.is_word_char s `max` Lex.one_len Lex.is_special_char s
  | Lex.R_newline => Lex.one_len (fun c => (c =? NL)%char) s
  | Lex.R_semi => Lex.one_len (fun c => (c =? ";")%char) s
  | Lex.R_blank => Lex.run_len Lex.is_blank_char s
  | Lex.R_any => Lex.one_len (fun c => negb (c =? NL)%char) s
  end.

(** The place of a rule in the file. *)
Definition rule_index (r : Lex.rule) : nat :=
  match r with
  | Lex.R_oror => 0 | Lex.R_exit => 1 | Lex.R_cd => 2 | Lex.R_word_special => 3
  | Lex.R_newline => 4 | Lex.R_semi => 5 | Lex.R_blank => 6 | Lex.R_any => 7
  end.

(** The tokens [_add_arg] is called with: the two keyword tokens, the three
    special characters, and the words, which are neither empty nor a
    keyword. *)
Definition is_token (tok : string) : Prop :=
  tok = Lex._tok Lex.T_EXIT \/ tok = Lex._tok Lex.T_CD \/
  tok = "<"%string \/ tok = ">"%string \/ tok = "|"%string \/
  (all_chars Lex.is_word_char tok = true /\ tok <> EmptyString /\
   tok <> "exit"%string /\ tok <> "cd"%string).
(** What is true of every token of the tokenizer: its kind, and that the
    tests of [parse], [new_cmd] and [spawn] on its first two characters tell
    the kinds apart. *)
Definition token_ok (tok : string) : Prop :=
  is_token tok /\
  (is_pipe tok = true <-> tok = "|"%string) /\
  (is_redirect tok = true <-> tok = "<"%string \/ tok = ">"%string) /\
  (chr tok 0 = NL <-> tok = Lex._tok Lex.T_EXIT \/ tok = Lex._tok Lex.T_CD).

(** ** The child branch of [spawn] *)

(** The flags of the two calls of [open]: [O_RDONLY], and
    [O_WRONLY|O_CREAT|O_TRUNC] with mode 0666. *)
Inductive open_mode : Type :=
| O_RDONLY
| O_WRONLY_CREAT_TRUNC.

(** What the kernel answers to the child. *)
Record child_env : Type := mkChildEnv {
  ce_open : nat -> open_mode -> string -> Z;
     (* the n-th call of open in the child: the descriptor, or -1 *)
  ce_strerror : nat -> string;        (* strerror(errno) after that call *)
  ce_dup2 : Z -> Z -> Z;              (* dup2(fd, target): target, or -1 *)
  ce_execvp : string -> list string -> bool
     (* execvp(arg0, args): the image is replaced, or the call returns *)
}.

(** The system calls and writes of the child. *)
Inductive child_event : Type :=
| CvOpen (file : string) (mode : open_mode) (fd : Z)
| CvDup2 (fd target ret : Z)
| CvClose (fd : Z)
| CvStderr (text : string)
| CvPerror (prefix : string)          (* perror: the prefix, then the error *)
| CvExecvp (arg0 : string) (args : list string) (replaced : bool)
| CvExit (code : Z).

(** [for (i = 0; (file = files[i]) != NULL; i++)] over a filename list:
    [fd] is [file_in] or [file_out], [n] counts the calls of [open].  The
    result is the trace and the descriptor kept, [None] after [exit(1)]. *)
Fixpoint open_files (env : child_env) (mode : open_mode) (files : list string)
    (n : nat) (fd : Z) : list child_event * option Z :=
  match files with
  | [] => ([], Some fd)
  | file :: files' =>
      let fd' := ce_open env n mode file in
      if (fd' =? -1)%Z then
        ([CvOpen file mode fd';
          CvStderr ("minshell: " +:+ file +:+ ": " +:+ ce_strerror env n +:+ newline);
          CvExit 1],
         None)
      else
        let r := open_files env mode files' (S n) fd' in
        (CvOpen file mode fd' :: r.1, r.2)
  end.

(** [if (fd != target) { if (dup2(fd, target) == -1) {...; exit(1);}
    close(fd); }]; [false] after [exit(1)]. *)
Definition dup_onto (env : child_env) (fd target : Z) : list child_event * bool :=
  if (fd =? target)%Z then ([], true)
  else
    let ret := ce_dup2 env fd target in
    if (ret =? -1)%Z then
      ([CvDup2 fd target ret; CvPerror "minshell: process dup error"; CvExit 1], false)
    else ([CvDup2 fd target ret; CvClose fd], true).

(** The branch [pid == 0] of [spawn], run by the child [p]. *)
Definition spawn_child (p : proc) (env : child_env) : list child_event :=
  let cmd := pr_cmd p in
  let arg0 := nth 0 (cmd_args cmd) EmptyString in
  match open_files env O_RDONLY (cmd_files_in cmd) 0 (pr_file_in p) with
  | (evs_in, None) => evs_in
  | (evs_in, Some file_in) =>
    match open_files env O_WRONLY_CREAT_TRUNC (cmd_files_out cmd)
                     (length (cmd_files_in cmd)) (pr_file_out p) with
    | (evs_out, None) => evs_in ++ evs_out
    | (evs_out, Some file_out) =>
      match dup_onto env file_in STDIN_FILENO with
      | (evs_stdin, false) => evs_in ++ evs_out ++ evs_stdin
      | (evs_stdin, true) =>
        match dup_onto env file_out STDOUT_FILENO with
        | (evs_stdout, false) => evs_in ++ evs_out ++ evs_stdin ++ evs_stdout
        | (evs_stdout, true) =>
            evs_in ++ evs_out ++ evs_stdin ++ evs_stdout ++
            (if ce_execvp env arg0 (cmd_args cmd)
             then [CvExecvp arg0 (cmd_args cmd) true]
             else [CvExecvp arg0 (cmd_args cmd) false; CvPerror arg0; CvExit 1])
        end
      end
    end
  end.

(** The files the child opens, in order, each with the flags of its loop. *)
Definition redirect_files (cmd : Cmd) : list (open_mode * string) :=
  (pair O_RDONLY <$> cmd_files_in cmd) ++
  (pair O_WRONLY_CREAT_TRUNC <$> cmd_files_out cmd).

(** The calls of [open] for the files [files], counted from [n]. *)
Definition open_events (env : child_env) (n : nat) (files : list (open_mode * string))
  : list child_event :=
  imap (fun j mf => CvOpen mf.2 mf.1 (ce_open env (n + j) mf.1 mf.2)) files.

(** The descriptor a loop over [files] ends with: that of the last file, or
    the one it started with when there is no file. *)
Definition last_fd (env : child_env) (mode : open_mode) (files : list string)
    (n : nat) (fd : Z) : Z :=
  default fd (last (imap (fun j file => ce_open env (n + j) mode file) files)).

(** The events after which the child goes on: neither a diagnostic, nor
    [exit], nor an [execvp] that replaced the image. *)
Definition goes_on (ev : child_event) : Prop :=
  match ev with
  | CvOpen _ _ _ | CvDup2 _ _ _ | CvClose _ | CvExecvp _ _ false => True
  | _ => False
  end.

(** The diagnostics of the child. *)
Definition diagnostic (ev : child_event) : Prop :=
  match ev with
  | CvStderr _ | CvPerror _ => True
  | _ => False
  end.

(** ** The executor: commands that are run in a child *)

(** The Commands for which [spawn] calls [fork]: the program name is neither
    the exit token nor the cd token. *)
Definition external (cmd : Cmd) : Prop :=
  builtin Lex.T_EXIT cmd = false /\ builtin Lex.T_CD cmd = false.

(** The events that are not a call of [wait]. *)
Definition not_wait (ev : event) : Prop :=
  match ev with
  | EvWait _ => False
  | _ => True
  end.

(** What [spawn], [pipe], [close] and the diagnostics may do to the operating
    system in a stretch of code that calls [fork] at most [n] times: no child
    is reaped, and the new children are those that [fork] created. *)
Definition spawned (n : nat) (os os' : OS) : Prop :=
  os_fork os' = os_fork os /\ os_pipe os' = os_pipe os /\
  os_sched os' = os_sched os /\ os_nwait os' = os_nwait os /\
  os_nfork os <= os_nfork os' <= os_nfork os + n /\
  (exists cs, os_children os' = os_children os ++ cs /\
     Forall (fun c => exists k, os_fork os k = ForkChild c.2) cs) /\
  exists evs, os_trace os' = os_trace os ++ evs /\ Forall not_wait evs.

(** Every child ends: those that are not reaped yet, and those that later
    calls of [fork] create. *)
Definition all_end (os : OS) : Prop :=
  (forall n, os_fork os n <> ForkChild None) /\
  Forall (fun c => c.2 <> None) (os_children os).

(** The descriptors of the [j]-th pipe made after [np] earlier ones, and the
    pid of the [j]-th child forked after [nf] earlier calls of [fork]. *)
Definition pipe_rd (np j : nat) : Z := Z.of_nat (3 + 2 * (np + j)).

(** The standard input of stage [j] of a pipeline. *)
Definition stage_in (np j : nat) : Z :=
  match j with
  | 0 => STDIN_FILENO
  | S j' => pipe_rd np j'
  end.



(** ** Lines typed with one space after every word *)

(** What stands between the spaces: a run of word characters, or one of the
    three symbols. *)
Definition is_item (w : string) : Prop :=
  (w <> EmptyString /\ all_chars Lex.is_word_char w = true) \/
  w = "<"%string \/ w = ">"%string \/ w = "|"%string.

(** The token the tokenizer makes of an item. *)
Definition token_of (w : string) : string :=
  if String.eqb w "exit" then Lex._tok Lex.T_EXIT
  else if String.eqb w "cd" then Lex._tok Lex.T_CD
  else w.

(** The rule that matches a run of word characters. *)
Definition word_rule (w : string) : Lex.rule :=
  if String.eqb w "exit" then Lex.R_exit
  else if String.eqb w "cd" then Lex.R_cd
  else Lex.R_word_special.

(** The items, each followed by one space. *)
Fixpoint spaced (items : list string) : string :=
  match items with
  | [] => EmptyString
  | w :: items' => w +:+ String " " (spaced items')
  end.

(** What a rule that does not return does to the argument array, [text]
    being the text matched. *)
Definition rule_action (r : Lex.rule) (text : string) (args : list string)
  : list string :=
  match r with
  | Lex.R_exit => Lex._ADD_TOK Lex.T_EXIT args
  | Lex.R_cd => Lex._ADD_TOK Lex.T_CD args
  | Lex.R_word_special => Lex._add_arg text args
  | _ => args
  end.

(** ** A line that is one plain command *)

(** A word that is neither a keyword nor a symbol. *)
Definition plain_word (w : string) : Prop :=
  w <> EmptyString /\ all_chars Lex.is_word_char w = true /\
  w <> "exit"%string /\ w <> "cd"%string.

(** * Properties *)

(** ** The tokenizer *)

Section Tokenizer.

Lemma _add_arg_bound text args :
  length args <= Lex._NUMARGS - 1 -> length (Lex._add_arg text args) <= Lex._NUMARGS - 1.
Proof.
  unfold Lex._add_arg, Lex._NUMARGS. intros Hle.
  case_bool_decide; [|done]. rewrite length_app. simpl in *. lia.
Qed.

Lemma yylex_bound s : forall skip args,
  length args <= Lex._NUMARGS - 1 ->
  length (Lex.yylex s skip args).1.1 <= Lex._NUMARGS - 1.
Proof.
  induction s as [|c s IH]; intros skip args Hle; [done|].
  cbn [Lex.yylex]. destruct skip as [|k]; [|by apply IH].
  destruct (Lex.scan_rule (String c s)) as [[[] n]|];
    try done; apply IH; try done; by apply _add_arg_bound.
Qed.

Lemma getline_bound input : length (Lex.getline input).1.1 <= 63.
Proof. apply (yylex_bound input 0 []). unfold Lex._NUMARGS. simpl. lia. Qed.

(** Seventy words on a line: the first 63 are kept. *)
Example getline_keeps_63 :
  let text := String.concat " " (replicate 70 "w"%string) in
  (Lex.getline text).1.1 = replicate 63 "w"%string.
Proof. by vm_compute. Qed.

End Tokenizer.

(** ** [new_cmd] *)

Section NewCmd.

Implicit Types (args seg todo rest : list string) (st : scan).

Lemma nth_drop_cons args i a l : drop i args = a :: l -> nth i args EmptyString = a.
Proof.
  intros H. rewrite nth_lookup.
  assert (args !! (i + 0) = Some a) as Ha by (by rewrite <- lookup_drop, H).
  rewrite Nat.add_0_r in Ha. by rewrite Ha.
Qed.

Lemma drop_S_cons args i a l : drop i args = a :: l -> drop (S i) args = l.
Proof.
  intros H. replace (S i) with (i + 1) by lia.
  by rewrite <- drop_drop, H.
Qed.

Lemma is_redirect_chr arg :
  is_redirect arg = true -> chr arg 0 = "<"%char \/ chr arg 0 = ">"%char.
Proof.
  unfold is_redirect. intros [_ H]%andb_prop.
  apply orb_prop in H as [H|H]; apply Ascii.eqb_eq in H; auto.
Qed.

(** The scan reads [args] below [argn] only. *)
Lemma new_cmd_scan_app seg rest argn : forall k i st,
  i + k <= length seg ->
  new_cmd_scan (seg ++ rest) argn k i st = new_cmd_scan seg argn k i st.
Proof.
  induction k as [|k IH]; intros i st Hk; [done|].
  cbn [new_cmd_scan].
  rewrite (app_nth1 seg rest) by lia.
  repeat case_match; try done; apply IH; lia.
Qed.

(** The scan stops at the first offending redirect symbol, and goes through
    when there is none. *)
Lemma new_cmd_scan_offending seg : forall k i st,
  i + k = length seg ->
  s_last_index st <= i ->
  (s_last_index st = i <->
     i = 0 \/ is_redirect (nth (i - 1) seg EmptyString) = true) ->
  match new_cmd_scan seg (length seg) k i st with
  | inl j => i <= j < length seg /\ offending seg j /\
             forall j', i <= j' < j -> ~ offending seg j'
  | inr _ => forall j', i <= j' < length seg -> ~ offending seg j'
  end.
Proof.
  induction k as [|k IH]; intros i st Hk Hle Hadj.
  { cbn [new_cmd_scan]. intros j' Hj'. lia. }
  cbn [new_cmd_scan].
  assert (forall st', s_last_index st' = s_last_index st ->
            is_redirect (nth i seg EmptyString) = false ->
            match new_cmd_scan seg (length seg) k (S i) st' with
            | inl j => i <= j < length seg /\ offending seg j /\
                       forall j', i <= j' < j -> ~ offending seg j'
            | inr _ => forall j', i <= j' < length seg -> ~ offending seg j'
            end) as Hskip.
  { intros st' Hst' Hnr.
    specialize (IH (S i) st').
    destruct (new_cmd_scan seg (length seg) k (S i) st') as [j|st''].
    - destruct IH as (Hj & Hoff & Hleast); [lia|lia| |].
      { rewrite Hst'. replace (S i - 1) with i by lia. rewrite Hnr.
        split; [lia|]. intros [?|?]; [lia|done]. }
      split; [lia|]. split; [done|].
      intros j' Hj'. destruct (decide (j' = i)) as [->|].
      + intros [Hr _]. congruence.
      + apply Hleast. lia.
    - intros j' Hj'. destruct (decide (j' = i)) as [->|].
      + intros [Hr _]. congruence.
      + apply IH; [lia|lia| |lia].
        rewrite Hst'. replace (S i - 1) with i by lia. rewrite Hnr.
        split; [lia|]. intros [?|?]; [lia|done]. }
  destruct (is_redirect (nth i seg EmptyString)) eqn:Hr.
  - destruct ((Z.of_nat i =? Z.of_nat (length seg) - 1)%Z
              || (isub i (s_last_index st) =? 0)%Z) eqn:Htest.
    + split; [lia|]. split; [|intros j' ?; lia].
      split; [done|].
      apply orb_prop in Htest as [Ht|Ht].
      * apply Z.eqb_eq in Ht. right; left. lia.
      * apply Z.eqb_eq in Ht. unfold isub in Ht.
        assert (s_last_index st = i) as Heq by lia.
        apply Hadj in Heq as [?|?]; auto.
    + apply orb_false_elim in Htest as [Ht1 Ht2].
      apply Z.eqb_neq in Ht1, Ht2. unfold isub in Ht2.
      match goal with |- context [new_cmd_scan _ _ k (S i) ?s] => set (st' := s) end.
      specialize (IH (S i) st').
      assert (~ offending seg i) as Hnoff.
      { intros [_ [?|[?|?]]]; [|lia|].
        - apply Ht2. assert (s_last_index st = i) as -> by (apply Hadj; auto). lia.
        - apply Ht2. assert (s_last_index st = i) as -> by (apply Hadj; auto). lia. }
      destruct (new_cmd_scan seg (length seg) k (S i) st') as [j|st''].
      * destruct IH as (Hj & Hoff & Hleast); [lia|subst st'; cbn; lia| |].
        { replace (S i - 1) with i by lia. rewrite Hr.
          subst st'; cbn. split; [auto|lia]. }
        split; [lia|]. split; [done|].
        intros j' Hj'. destruct (decide (j' = i)) as [->|]; [done|].
        apply Hleast. lia.
      * intros j' Hj'. destruct (decide (j' = i)) as [->|]; [done|].
        apply IH; [lia|subst st'; cbn; lia| |lia].
        replace (S i - 1) with i by lia. rewrite Hr.
        subst st'; cbn. split; [auto|lia].
  - destruct (negb (s_last_symbol st =? NUL)%char);
      [destruct (s_last_symbol st =? "<")%char|]; by apply Hskip.
Qed.

(** What a scan that goes through leaves in its locals. *)
Lemma new_cmd_scan_result args rest argn : forall todo i st st',
  drop i args = todo ++ rest ->
  i + length todo = argn ->
  (s_last_symbol st = NUL \/ s_last_symbol st = "<"%char \/ s_last_symbol st = ">"%char) ->
  new_cmd_scan args argn (length todo) i st = inr st' ->
  s_argn st' = (if bool_decide (s_argn st = argn)
                then i + length (spec_args todo) else s_argn st) /\
  nthmap args (s_files_in st') =
    nthmap args (s_files_in st) ++ files_after "<" (s_last_symbol st) todo /\
  nthmap args (s_files_out st') =
    nthmap args (s_files_out st) ++ files_after ">" (s_last_symbol st) todo.
Proof.
  induction todo as [|tok todo IH]; intros i st st' Hdrop Hlen Hsym Hscan.
  { cbn in Hscan. injection Hscan as <-. cbn. rewrite !app_nil_r.
    case_bool_decide; split_and!; try done. simpl in Hlen. lia. }
  cbn [length new_cmd_scan] in Hscan.
  pose proof (nth_drop_cons _ _ _ _ Hdrop) as Hnth. rewrite Hnth in Hscan.
  apply drop_S_cons in Hdrop. simpl in Hlen.
  cbn [spec_args files_after].
  destruct (is_redirect tok) eqn:Hr.
  - destruct (_ || _) in Hscan; [done|].
    apply IH in Hscan as (Hargn & Hin & Hout); [|done|lia|].
    2:{ cbn. apply is_redirect_chr in Hr. tauto. }
    cbn in Hargn, Hin, Hout. split_and!; [|done|done].
    rewrite Hargn. repeat case_bool_decide; simpl; lia.
  - destruct (negb (s_last_symbol st =? NUL)%char) eqn:Hnul.
    + apply negb_true_iff, Ascii.eqb_neq in Hnul.
      destruct (s_last_symbol st =? "<")%char eqn:Hlt.
      * apply Ascii.eqb_eq in Hlt.
        apply IH in Hscan as (Hargn & Hin & Hout); [|done|lia|by cbn].
        cbn in Hargn, Hin, Hout. rewrite Hlt in *. cbn.
        split_and!; [| |done].
        -- rewrite Hargn. case_bool_decide; simpl; lia.
        -- rewrite Hin. unfold nthmap. rewrite fmap_app, <- app_assoc.
           cbn. by rewrite Hnth.
      * apply Ascii.eqb_neq in Hlt.
        assert (s_last_symbol st = ">"%char) as Hgt by tauto.
        apply IH in Hscan as (Hargn & Hin & Hout); [|done|lia|by cbn].
        cbn in Hargn, Hin, Hout. rewrite Hgt in *. cbn.
        split_and!; [|done|].
        -- rewrite Hargn. case_bool_decide; simpl; lia.
        -- rewrite Hout. unfold nthmap. rewrite fmap_app, <- app_assoc.
           cbn. by rewrite Hnth.
    + apply negb_false_iff, Ascii.eqb_eq in Hnul.
      apply IH in Hscan as (Hargn & Hin & Hout); [|done|lia|done].
      rewrite Hnul in *. cbn. split_and!; [|done|done].
      rewrite Hargn. case_bool_decide; simpl; lia.
Qed.

Lemma spec_args_take seg rest :
  take (length (spec_args seg)) (seg ++ rest) = spec_args seg.
Proof.
  induction seg as [|tok seg IH]; cbn; [done|].
  destruct (is_redirect tok); cbn; [done|]. by rewrite IH.
Qed.

Lemma new_cmd_ok seg rest cmd :
  new_cmd (seg ++ rest) (length seg) = inr cmd -> cmd = spec_cmd seg.
Proof.
  unfold new_cmd.
  destruct (new_cmd_scan _ _ _ _ _) as [j|st'] eqn:Hscan; [done|].
  injection 1 as <-.
  apply (new_cmd_scan_result (seg ++ rest) rest (length seg) seg 0) in Hscan
    as (Hargn & Hin & Hout); [|done|done|by left].
  cbn in Hargn, Hin, Hout. rewrite bool_decide_eq_true_2 in Hargn by done.
  unfold spec_cmd, spec_files_in, spec_files_out.
  fold (nthmap (seg ++ rest) (s_files_in st')).
  fold (nthmap (seg ++ rest) (s_files_out st')).
  rewrite Hargn, Hin, Hout.
  by rewrite spec_args_take.
Qed.

Lemma new_cmd_scan_init_offending seg :
  match new_cmd_scan seg (length seg) (length seg) 0 (scan_init (length seg)) with
  | inl j => j < length seg /\ offending seg j /\
             forall j', j' < j -> ~ offending seg j'
  | inr _ => forall j', j' < length seg -> ~ offending seg j'
  end.
Proof.
  pose proof (new_cmd_scan_offending seg (length seg) 0 (scan_init (length seg))) as H.
  destruct (new_cmd_scan _ _ _ _ _) as [j|st'].
  - destruct H as (Hj & Hoff & Hleast); [done|done|cbn; tauto|].
    split_and!; [lia|done|]. intros j' Hj'. apply Hleast. lia.
  - intros j' Hj'. apply H; [done|done|cbn; tauto|lia].
Qed.

(** [new_cmd] does not depend on what follows the segment in the array. *)
Lemma new_cmd_app seg rest :
  new_cmd (seg ++ rest) (length seg) = new_cmd seg (length seg).
Proof.
  pose proof (new_cmd_ok seg rest) as H1.
  pose proof (new_cmd_ok seg []) as H2. rewrite app_nil_r in H2.
  pose proof (new_cmd_scan_init_offending seg) as Hoff.
  unfold new_cmd in *. rewrite new_cmd_scan_app in * by done.
  destruct (new_cmd_scan _ _ _ _ _) as [j|st'].
  - destruct Hoff as [Hj _]. by rewrite app_nth1.
  - by rewrite (H1 _ eq_refl), (H2 _ eq_refl).
Qed.

End NewCmd.

(** ** [parse] *)

Section Parse.

Implicit Types (args rest seg : list string) (segs : list (list string))
  (cmds : list (option Cmd)).

Lemma split_pipes_cons arg args :
  split_pipes (arg :: args) =
    if is_pipe arg then [] :: split_pipes args else prepend [arg] (split_pipes args).
Proof. cbn. destruct (is_pipe arg); [done|]. by destruct (split_pipes args). Qed.

Lemma split_pipes_not_nil args : split_pipes args <> [].
Proof.
  destruct args as [|arg args]; [done|]. rewrite split_pipes_cons.
  destruct (is_pipe arg); [done|]. by destruct (split_pipes args).
Qed.

Lemma prepend_nil segs : segs <> [] -> prepend [] segs = segs.
Proof. by destruct segs. Qed.

Lemma prepend_snoc seg arg segs :
  segs <> [] -> prepend (seg ++ [arg]) segs = prepend seg (prepend [arg] segs).
Proof. destruct segs; [done|]. intros _. cbn. by rewrite <- app_assoc. Qed.

Lemma new_cmd_take args n :
  n <= length args -> new_cmd args n = new_cmd (take n args) (length (take n args)).
Proof.
  intros Hn. rewrite <- (take_drop n args) at 1.
  rewrite <- (new_cmd_app (take n args) (drop n args)).
  by rewrite length_take, Nat.min_l.
Qed.

(** The loop of [parse] builds the segments of the line in order: with the
    tokens from [last_cmd] to [i] read into the current segment, what is left
    to do is [build] on that segment extended by the rest of the line. *)
Lemma parse_loop_build args : forall rest i last_cmd cmds cmdn,
  last_cmd <= i -> i <= length args -> drop i args = rest ->
  parse_loop args rest i last_cmd cmds cmdn =
    build (prepend (take (i - last_cmd) (drop last_cmd args)) (split_pipes rest))
          cmds cmdn.
Proof.
  induction rest as [|arg rest IH]; intros i last_cmd cmds cmdn Hle Hi Hdrop.
  - cbn [parse_loop split_pipes prepend build]. rewrite app_nil_r.
    set (cur := take (i - last_cmd) (drop last_cmd args)).
    assert (length cur = i - last_cmd) as Hcur.
    { unfold cur. rewrite length_take, length_drop. lia. }
    rewrite (new_cmd_take (drop last_cmd args) (i - last_cmd))
      by (rewrite length_drop; lia).
    fold cur. unfold isub.
    destruct (Z.gtb_spec (Z.of_nat i - Z.of_nat last_cmd) 0) as [Hgt|Hgt].
    + rewrite bool_decide_eq_false_2; [done|].
      intros Hnil. rewrite Hnil in Hcur. simpl in Hcur. lia.
    + rewrite bool_decide_eq_true_2; [done|].
      apply length_zero_iff_nil. lia.
  - assert (args !! i = Some arg) as Hlook.
    { rewrite <- (Nat.add_0_r i), <- lookup_drop, Hdrop. done. }
    assert (i < length args) as Hlt by (by eapply lookup_lt_Some).
    assert (drop (S i) args = rest) as Hdrop'.
    { replace (S i) with (i + 1) by lia. by rewrite <- drop_drop, Hdrop. }
    cbn [parse_loop]. rewrite split_pipes_cons.
    set (cur := take (i - last_cmd) (drop last_cmd args)).
    assert (length cur = i - last_cmd) as Hcur.
    { unfold cur. rewrite length_take, length_drop. lia. }
    destruct (is_pipe arg) eqn:Hpipe.
    + cbn [prepend build]. rewrite app_nil_r.
      rewrite (new_cmd_take (drop last_cmd args) (i - last_cmd))
        by (rewrite length_drop; lia).
      fold cur. unfold isub.
      destruct (Z.eqb_spec (Z.of_nat i - Z.of_nat last_cmd) 0) as [Heq|Hne].
      * rewrite bool_decide_eq_true_2; [done|].
        apply length_zero_iff_nil. lia.
      * rewrite bool_decide_eq_false_2.
        2:{ intros Hnil. rewrite Hnil in Hcur. simpl in Hcur. lia. }
        destruct (new_cmd cur (length cur)) as [err|cmd]; [done|].
        destruct (store cmds cmdn (Some cmd)) as [cmds'| |]; cbn [bind]; try done.
        rewrite IH by (done || lia).
        rewrite Nat.sub_diag, take_0.
        by rewrite prepend_nil by apply split_pipes_not_nil.
    + rewrite IH by (done || lia).
      replace (S i - last_cmd) with (S (i - last_cmd)) by lia.
      rewrite (take_S_r _ _ arg).
      2:{ rewrite lookup_drop. by replace (last_cmd + (i - last_cmd)) with i by lia. }
      by rewrite prepend_snoc by apply split_pipes_not_nil.
Qed.

(** [parse] against the builder of the specification. *)
Lemma parse_build args cmds :
  parse args cmds =
    match args with
    | [] => Ret {| p_ret := false; p_cmdn := 0; p_cmds := cmds; p_err := None |}
    | _ :: _ => build (split_pipes args) cmds 0
    end.
Proof.
  destruct args as [|arg args]; [done|].
  unfold parse. rewrite parse_loop_build by (done || lia).
  cbn [take drop Nat.sub].
  by rewrite prepend_nil by apply split_pipes_not_nil.
Qed.

(** [build] stops at the first segment that is empty or refused. *)
Lemma build_first_failure : forall segs cmds cmdn p,
  build segs cmds cmdn = Ret p ->
  (p_ret p = true /\ p_err p = None /\ Forall valid segs /\
   p_cmdn p = cmdn + length segs) \/
  (p_ret p = false /\
   exists pre seg post, segs = pre ++ seg :: post /\ Forall valid pre /\
     p_cmdn p = cmdn + length pre /\
     ((seg = [] /\ p_err p = Some "|") \/
      (seg <> [] /\ exists err, new_cmd seg (length seg) = inl err /\
                                p_err p = Some err))).
Proof.
  induction segs as [|seg segs IH]; intros cmds cmdn p Hb.
  { cbn in Hb. injection Hb as <-. left. cbn. split_and!; (done || lia). }
  cbn [build] in Hb. case_bool_decide as Hnil.
  { injection Hb as <-. right. split; [done|].
    exists [], seg, segs. cbn. split_and!; [done|done|lia|]. by left. }
  destruct (new_cmd seg (length seg)) as [err|cmd] eqn:Hnew.
  - destruct (store cmds cmdn None) as [cmds'| |]; cbn [bind] in Hb; try done.
    injection Hb as <-. right. split; [done|].
    exists [], seg, segs. cbn. split_and!; [done|done|lia|].
    right. split; [done|]. by exists err.
  - destruct (store cmds cmdn (Some cmd)) as [cmds'| |]; cbn [bind] in Hb; try done.
    assert (valid seg) as Hvalid by (split; [done|by exists cmd]).
    apply IH in Hb as [(Hret & Herr & Hall & Hn)|(Hret & pre & s & post & -> & Hpre & Hn & Hs)].
    + left. split_and!; [done|done|by constructor|cbn; lia].
    + right. split; [done|].
      exists (seg :: pre), s, post.
      split_and!; [done|by constructor|cbn; lia|done].
Qed.

Lemma weight_split_pipes args : weight (split_pipes args) = S (length args).
Proof.
  induction args as [|arg args IH]; [done|].
  rewrite split_pipes_cons. destruct (is_pipe arg).
  - unfold weight in *. cbn. lia.
  - pose proof (split_pipes_not_nil args).
    destruct (split_pipes args) as [|s ss]; [done|].
    unfold weight in *. cbn in *. lia.
Qed.

(** [build] stays inside the array as long as there is room for one Command
    for every two tokens. *)
Lemma build_in_bounds : forall segs cmds cmdn,
  2 * cmdn + weight segs <= 2 * length cmds ->
  exists p, build segs cmds cmdn = Ret p /\
            p_cmdn p <= length cmds /\ length (p_cmds p) = length cmds /\
            2 * p_cmdn p <= 2 * cmdn + weight segs.
Proof.
  induction segs as [|seg segs IH]; intros cmds cmdn Hw.
  { eexists. split; [done|]. cbn. unfold weight in *. cbn in *. lia. }
  unfold weight in Hw. cbn in Hw. fold (weight segs) in Hw.
  cbn [build]. case_bool_decide as Hnil.
  { eexists. split; [done|]. cbn. unfold weight. cbn. lia. }
  assert (0 < length seg) as Hpos by (destruct seg; [done|cbn; lia]).
  assert (cmdn < length cmds) as Hroom by lia.
  unfold store. rewrite bool_decide_eq_true_2 by done.
  destruct (new_cmd seg (length seg)) as [err|cmd]; cbn [bind].
  - eexists. split; [done|]. cbn. rewrite length_insert.
    unfold weight. cbn. lia.
  - destruct (IH (<[cmdn:=Some cmd]> cmds) (S cmdn)) as (p & Hp & H1 & H2 & H3).
    { rewrite length_insert. lia. }
    rewrite length_insert in *.
    exists p. split_and!; try done.
    unfold weight. cbn. fold (weight segs). lia.
Qed.

End Parse.

(** ** The claims about the tokenizer and the command builder *)

Ltac by_evaluation := eexists; split; [vm_compute; reflexivity|]; by vm_compute.

Lemma named_by_spec_offending seg j : named_by_spec seg j -> offending seg j.
Proof. intros [Hr [?|[_ ?]]]; split; auto. Qed.

Lemma is_redirect_lt seg j :
  is_redirect (nth j seg EmptyString) = true -> j < length seg.
Proof.
  intros Hr. destruct (decide (j < length seg)); [done|].
  by rewrite nth_overflow in Hr by lia.
Qed.

Lemma new_cmd_err_offending seg err :
  new_cmd seg (length seg) = inl err ->
  exists j, j < length seg /\ offending seg j /\
            (forall j', j' < j -> ~ offending seg j') /\
            new_cmd_scan seg (length seg) (length seg) 0 (scan_init (length seg)) = inl j /\
            err = nth j seg EmptyString.
Proof.
  pose proof (new_cmd_scan_init_offending seg) as Hoff. unfold new_cmd.
  destruct (new_cmd_scan _ _ _ _ _) as [j|st']; [|done].
  injection 1 as <-. exists j. by destruct Hoff as (? & ? & ?).
Qed.

Lemma new_cmd_err_redirect seg err :
  new_cmd seg (length seg) = inl err -> is_redirect err = true.
Proof. intros (j & _ & [Hr _] & _ & _ & ->)%new_cmd_err_offending. done. Qed.

Lemma new_cmd_offending_fails seg j :
  offending seg j -> exists err, new_cmd seg (length seg) = inl err.
Proof.
  intros Hoff. pose proof (new_cmd_scan_init_offending seg) as H. unfold new_cmd.
  destruct (new_cmd_scan _ _ _ _ _) as [j0|st']; [by eexists|].
  destruct (H j); [|done]. apply is_redirect_lt, Hoff.
Qed.

(** C8: for every input line the tokenizer stores at most 63 tokens, a token
    offered to a full array being dropped; a Command takes at least one token
    and two Commands are separated by a pipe token, so that twice the number
    of Commands is at most the number of tokens plus one, which makes at most
    32 Commands; [parse] therefore never stores outside the 32-element array
    [cmds]. *)
Theorem command_array_never_overflows (input : string) (cmds : list (option Cmd)) :
  length cmds = MAX_CMDS ->
  length (tokens input) <= 63 /\
  (forall text full, length full = 63 -> Lex._add_arg text full = full) /\
  exists p, parse (tokens input) cmds = Ret p /\
            2 * p_cmdn p <= length (tokens input) + 1 /\
            p_cmdn p <= 32 /\
            length (p_cmds p) = 32.
Proof.
  intros Hcmds. pose proof (getline_bound input) as Hb. fold (tokens input) in Hb.
  split; [done|]. split.
  { intros text full Hfull. unfold Lex._add_arg, Lex._NUMARGS.
    rewrite bool_decide_eq_false_2; [done|]. simpl. lia. }
  rewrite parse_build. destruct (tokens input) as [|arg args] eqn:Htok.
  { eexists. split; [done|]. cbn. rewrite Hcmds. unfold MAX_CMDS. lia. }
  destruct (build_in_bounds (split_pipes (arg :: args)) cmds 0)
    as (p & Hp & H1 & H2 & H3).
  { rewrite weight_split_pipes, Hcmds. unfold MAX_CMDS. lia. }
  rewrite weight_split_pipes in H3. rewrite Hcmds in *. unfold MAX_CMDS in *.
  exists p. split_and!; [done|lia|lia|done].
Qed.

(** The bound is reached: 32 Commands on a line of 63 tokens. *)
Example parse_thirty_two_commands :
  let args := "a"%string :: concat (replicate 31 ["|"%string; "a"%string]) in
  length args = 63 /\
  exists p, parse args (replicate MAX_CMDS None) = Ret p /\
            p_ret p = true /\ p_cmdn p = 32.
Proof. split; [reflexivity|]. by_evaluation. Qed.

Lemma command_array_never_overflows_witness :
  length (replicate MAX_CMDS (@None Cmd)) = MAX_CMDS /\
  exists p, parse (tokens (line "a | b | c")) (replicate MAX_CMDS None) = Ret p /\
            2 * p_cmdn p <= length (tokens (line "a | b | c")) + 1 /\
            p_cmdn p <= 32 /\
            length (p_cmds p) = 32.
Proof.
  split; [reflexivity|].
  apply (command_array_never_overflows (line "a | b | c") (replicate MAX_CMDS None)).
  reflexivity.
Defined.

Lemma spec_args_prefix seg :
  exists tail, seg = spec_args seg ++ tail /\
    Forall (fun tok => is_redirect tok = false) (spec_args seg) /\
    (tail = [] \/ exists sym tail', tail = sym :: tail' /\ is_redirect sym = true).
Proof.
  induction seg as [|tok seg (tail & Hseg & Hall & Htail)]; cbn.
  { exists []. split_and!; [done|constructor|by left]. }
  destruct (is_redirect tok) eqn:Hr.
  - exists (tok :: seg). split_and!; [done|constructor|]. right. by exists tok, seg.
  - exists tail. split_and!; [cbn; by rewrite <- Hseg|by constructor|done].
Qed.

(** C3: for every valid token segment, the argument list of the Command that
    [new_cmd] builds is the prefix of the segment before its first redirect
    symbol (the whole segment when it has none), and the tokens after a
    redirect symbol, up to the next one or the end of the segment, are
    appended to the filename list of the direction of the latest symbol.  The
    line [cmd > out.txt < in.txt] yields the one Command with arguments
    [cmd], output list [out.txt] and input list [in.txt], and so does the line
    with the two redirections in the other order. *)
Theorem new_cmd_argument_and_redirect_lists
    (seg rest : list string) (cmd : Cmd) :
  new_cmd (seg ++ rest) (length seg) = inr cmd ->
  (cmd_args cmd = spec_args seg /\
   (exists tail, seg = cmd_args cmd ++ tail /\
      Forall (fun tok => is_redirect tok = false) (cmd_args cmd) /\
      (tail = [] \/ exists sym tail', tail = sym :: tail' /\ is_redirect sym = true)) /\
   cmd_argn cmd = length (cmd_args cmd) /\
   cmd_files_in cmd = spec_files_in seg /\
   cmd_files_out cmd = spec_files_out seg) /\
  yields "cmd > out.txt < in.txt" [mkCmd ["cmd"] 1 ["in.txt"] ["out.txt"]] /\
  yields "cmd < in.txt > out.txt" [mkCmd ["cmd"] 1 ["in.txt"] ["out.txt"]].
Proof.
  intros ->%new_cmd_ok. split; [|split; by_evaluation].
  cbn. split_and!; try done. apply spec_args_prefix.
Qed.

Lemma new_cmd_argument_and_redirect_lists_witness :
  let seg := ["sort"; "-r"; "<"; "a.txt"; "b.txt"; ">"; "out"] in
  let cmd := mkCmd ["sort"; "-r"] 2 ["a.txt"; "b.txt"] ["out"] in
  new_cmd (seg ++ ["|"; "wc"]) (length seg) = inr cmd /\
  cmd_args cmd = spec_args seg /\
  cmd_files_in cmd = spec_files_in seg /\
  cmd_files_out cmd = spec_files_out seg.
Proof.
  intros seg cmd.
  assert (new_cmd (seg ++ ["|"; "wc"]) (length seg) = inr cmd) as H
    by (vm_compute; reflexivity).
  split; [exact H|].
  destruct (new_cmd_argument_and_redirect_lists seg ["|"; "wc"] cmd H)
    as [(Ha & _ & _ & Hi & Ho) _].
  auto.
Defined.

(** C10: a token segment whose first token is a redirect symbol is refused
    by [new_cmd] at index 0, naming that symbol, and a line that starts with
    one is refused by [parse] naming it; the line [< in.txt cmd] is refused
    naming [<], although this symbol is neither the last token of the segment
    nor right after another redirect symbol. *)
Theorem leading_redirect_rejected (sym : string) (seg rest : list string) :
  is_redirect sym = true ->
  new_cmd_scan ((sym :: seg) ++ rest) (length (sym :: seg)) (length (sym :: seg)) 0
               (scan_init (length (sym :: seg))) = inl 0 /\
  new_cmd ((sym :: seg) ++ rest) (length (sym :: seg)) = inl sym /\
  (forall cmds, 0 < length cmds ->
     exists p, parse (sym :: seg) cmds = Ret p /\
               p_ret p = false /\ p_err p = Some sym) /\
  tokens (line "< in.txt cmd") = ["<"; "in.txt"; "cmd"] /\
  rejects "< in.txt cmd" "<" /\
  ~ named_by_spec ["<"; "in.txt"; "cmd"] 0.
Proof.
  intros Hr.
  assert (forall rest', new_cmd_scan ((sym :: seg) ++ rest') (length (sym :: seg))
            (length (sym :: seg)) 0 (scan_init (length (sym :: seg))) = inl 0) as Hscan.
  { intros rest'. cbn. rewrite Hr. by rewrite orb_true_r. }
  assert (forall rest', new_cmd ((sym :: seg) ++ rest') (length (sym :: seg)) = inl sym)
    as Hnew.
  { intros rest'. unfold new_cmd. by rewrite Hscan. }
  split; [done|]. split; [done|]. split.
  { intros cmds Hcmds. rewrite parse_build, split_pipes_cons.
    assert (is_pipe sym = false) as ->.
    { unfold is_pipe. apply is_redirect_chr in Hr as [-> | ->]; by rewrite andb_false_r. }
    pose proof (split_pipes_not_nil seg).
    destruct (split_pipes seg) as [|s ss] eqn:Hs; [done|].
    cbn [prepend build app]. rewrite bool_decide_eq_false_2 by done.
    specialize (Hnew []). rewrite app_nil_r in Hnew.
    assert (new_cmd (sym :: s) (length (sym :: s)) = inl sym) as ->.
    { unfold new_cmd. cbn. rewrite Hr. by rewrite orb_true_r. }
    unfold store. rewrite bool_decide_eq_true_2 by done. cbn.
    by eexists. }
  split; [by vm_compute|]. split; [by_evaluation|].
  intros [_ [Hlast|[Hpos _]]]; [done|lia].
Qed.

Lemma leading_redirect_rejected_witness :
  is_redirect ">" = true /\
  new_cmd ([">"; "out"; "ls"] ++ []) 3 = inl ">"%string.
Proof.
  split; [reflexivity|].
  apply (leading_redirect_rejected ">" ["out"; "ls"] []). reflexivity.
Defined.

Lemma build_rejects_segment seg j args cmds :
  offending seg j -> seg ∈ split_pipes args ->
  length args + 1 <= 2 * length cmds ->
  exists p tok, parse args cmds = Ret p /\ p_ret p = false /\ p_err p = Some tok.
Proof.
  intros Hoff Hin Hlen. rewrite parse_build.
  destruct args as [|arg args].
  { cbn in Hin. apply list_elem_of_singleton in Hin as ->.
    destruct Hoff as [Hr _]. by destruct j. }
  destruct (build_in_bounds (split_pipes (arg :: args)) cmds 0) as (p & Hp & _).
  { rewrite weight_split_pipes. cbn in *. lia. }
  exists p. rewrite Hp.
  apply build_first_failure in Hp
    as [(_ & _ & Hall & _)|(Hret & pre & s & post & _ & _ & _ & Hs)].
  - rewrite Forall_forall in Hall. destruct (Hall _ Hin) as [_ [cmd Hcmd]].
    apply new_cmd_offending_fails in Hoff as [err Herr]. congruence.
  - destruct Hs as [[_ Herr]|(_ & err & _ & Herr)]; eauto.
Qed.

(** C5, as the code has it: when a token segment contains a redirect symbol
    that is its last token or comes right after another redirect symbol,
    [new_cmd] fails and a line with this segment is refused; the symbol named
    is the first redirect symbol of the segment that is its first token, its
    last token or right after another redirect symbol, which is the symbol at
    hand when no redirect symbol before it is in such a place.  The line
    [a << b] is refused at the second [<]. *)
Theorem misplaced_redirect_rejected (seg rest : list string) (j : nat) :
  named_by_spec seg j ->
  (exists j0, j0 <= j /\ offending seg j0 /\
     (forall j', j' < j0 -> ~ offending seg j') /\
     new_cmd_scan (seg ++ rest) (length seg) (length seg) 0
                  (scan_init (length seg)) = inl j0 /\
     new_cmd (seg ++ rest) (length seg) = inl (nth j0 seg EmptyString)) /\
  ((forall j', j' < j -> ~ offending seg j') ->
     new_cmd (seg ++ rest) (length seg) = inl (nth j seg EmptyString)) /\
  (forall args cmds, seg ∈ split_pipes args ->
     length args + 1 <= 2 * length cmds ->
     exists p tok, parse args cmds = Ret p /\ p_ret p = false /\ p_err p = Some tok) /\
  tokens (line "a << b") = ["a"; "<"; "<"; "b"] /\
  new_cmd_scan ["a"; "<"; "<"; "b"] 4 4 0 (scan_init 4) = inl 2 /\
  rejects "a << b" "<".
Proof.
  intros Hspec. pose proof (named_by_spec_offending _ _ Hspec) as Hoff.
  destruct (new_cmd_offending_fails _ _ Hoff) as [err Herr].
  destruct (new_cmd_err_offending _ _ Herr) as (j0 & Hj0 & Hoff0 & Hleast & Hscan & ->).
  assert (j0 <= j) as Hle.
  { destruct (decide (j0 <= j)); [done|]. destruct (Hleast j); [lia|done]. }
  split.
  { exists j0. split_and!; try done.
    - by rewrite new_cmd_scan_app.
    - by rewrite new_cmd_app. }
  split.
  { intros Hfirst. rewrite new_cmd_app, Herr.
    destruct (decide (j0 = j)) as [->|]; [done|].
    destruct (Hfirst j0); [lia|done]. }
  split; [intros args cmds; by apply (build_rejects_segment seg j)|].
  split; [by vm_compute|]. split; [by vm_compute|by_evaluation].
Qed.

Lemma misplaced_redirect_rejected_witness :
  named_by_spec ["a"; ">"; ">"; "b"] 2 /\
  new_cmd (["a"; ">"; ">"; "b"] ++ []) 4 = inl ">"%string.
Proof.
  assert (named_by_spec ["a"; ">"; ">"; "b"] 2) as H.
  { split; [reflexivity|]. right. split; [lia|reflexivity]. }
  split; [exact H|].
  destruct (misplaced_redirect_rejected ["a"; ">"; ">"; "b"] [] 2 H)
    as [_ [Hfirst _]].
  apply Hfirst. intros j' Hj' [Hr Hc].
  destruct j' as [|[|j']]; [cbv in Hr; discriminate Hr| |lia].
  destruct Hc as [Hc|[Hc|Hc]]; [lia|simpl in Hc; lia|cbv in Hc; discriminate Hc].
Defined.

(** C5 as it is worded fails: in the segment [a < < >] the symbol [>] is its
    last token and comes right after a redirect symbol, but [new_cmd] names
    the [<] before it. *)
Lemma misplaced_redirect_not_the_one_cited :
  tokens (line "a < < >") = ["a"; "<"; "<"; ">"] /\
  named_by_spec ["a"; "<"; "<"; ">"] 3 /\
  nth 3 ["a"; "<"; "<"; ">"] EmptyString = ">"%string /\
  new_cmd ["a"; "<"; "<"; ">"] 4 = inl "<"%string /\
  new_cmd ["a"; "<"; "<"; ">"] 4 <> inl (nth 3 ["a"; "<"; "<"; ">"] EmptyString) /\
  rejects "a < < >" "<".
Proof.
  split; [by vm_compute|]. split.
  { split; [reflexivity|]. left. reflexivity. }
  split; [reflexivity|]. split; [by vm_compute|]. split; [by vm_compute|].
  by_evaluation.
Qed.

Lemma split_pipes_app_pipe pre pipe post :
  is_pipe pipe = true ->
  split_pipes (pre ++ pipe :: post) = split_pipes pre ++ split_pipes post.
Proof.
  intros Hp. induction pre as [|a pre IH].
  { cbn. by rewrite Hp. }
  rewrite <- app_comm_cons, !split_pipes_cons, IH.
  destruct (is_pipe a); [done|].
  pose proof (split_pipes_not_nil pre). by destruct (split_pipes pre).
Qed.

Lemma misplaced_pipe_empty_segment args :
  misplaced_pipe args -> [] ∈ split_pipes args.
Proof.
  intros [(pipe & rest & -> & Hp)|[(pre & pipe & -> & Hp)|
          (pre & pipe & pipe' & post & -> & Hp & Hp')]].
  - cbn. rewrite Hp. apply list_elem_of_here.
  - rewrite split_pipes_app_pipe by done. cbn.
    apply elem_of_app. right. apply list_elem_of_here.
  - rewrite split_pipes_app_pipe by done. cbn. rewrite Hp'.
    apply elem_of_app. right. apply list_elem_of_here.
Qed.

(** ** The driver loop on a line that [parse] refuses *)

Lemma main_body_parsed st p :
  parse (tokens (sh_input st)) (sh_cmds st) = Ret p ->
  main_body st =
    let os1 := match p_err p with
               | Some token => fprintf_stderr (PARSE_ERR token) (print_prompt st)
               | None => print_prompt st
               end in
    if p_ret p && bool_decide (0 < p_cmdn p) then
      r <-- (if bool_decide (1 < p_cmdn p)
             then exec_pipe (p_cmds p) (p_cmdn p) os1
             else cmd <-- load (p_cmds p) 0 ;; exec cmd os1) ;;
      Ret (mkShell (line_rest st)
                   (if (r.1 =? CMD_EXIT)%Z then false else still_running st)
                   (line_status st) (p_cmds p) r.2)
    else Ret (mkShell (line_rest st) (still_running st) (line_status st) (p_cmds p) os1).
Proof.
  unfold main_body, tokens, still_running, line_status, line_rest.
  destruct (Lex.getline (sh_input st)) as [[args status] input].
  cbn [fst snd]. intros ->. done.
Qed.

Lemma main_body_rejected st p tok :
  parse (tokens (sh_input st)) (sh_cmds st) = Ret p ->
  p_ret p = false -> p_err p = Some tok ->
  main_body st =
    Ret (mkShell (line_rest st) (still_running st) (line_status st) (p_cmds p)
                 (fprintf_stderr (PARSE_ERR tok) (print_prompt st))).
Proof. intros Hp Hret Herr. rewrite (main_body_parsed _ _ Hp), Hret, Herr. done. Qed.

(** C4, as the code has it: when a pipe token is the first or the last token
    of a line or is next to another pipe token, [parse] fails on the line, and
    [main] goes on to the next line having run nothing but the diagnostic.
    The token named is that of the first segment of the line that is not
    valid: [|] when this segment is empty, which is the case when the line
    starts with the pipe token, and the redirect symbol that [new_cmd]
    refuses when it is not. *)
Theorem misplaced_pipe_rejected (st : shell) :
  length (sh_cmds st) = MAX_CMDS ->
  misplaced_pipe (tokens (sh_input st)) ->
  exists p tok,
    parse (tokens (sh_input st)) (sh_cmds st) = Ret p /\
    p_ret p = false /\ p_err p = Some tok /\
    (exists pre seg post,
       split_pipes (tokens (sh_input st)) = pre ++ seg :: post /\
       Forall valid pre /\
       ((seg = [] /\ tok = "|"%string) \/
        (seg <> [] /\ new_cmd seg (length seg) = inl tok /\ is_redirect tok = true))) /\
    ((exists pipe rest, tokens (sh_input st) = pipe :: rest /\ is_pipe pipe = true) ->
       tok = "|"%string) /\
    main_body st =
      Ret (mkShell (line_rest st) (still_running st) (line_status st) (p_cmds p)
                   (fprintf_stderr (PARSE_ERR tok) (print_prompt st))).
Proof.
  intros Hcmds Hpipe.
  pose proof (misplaced_pipe_empty_segment _ Hpipe) as Hempty.
  pose proof (getline_bound (sh_input st)) as Hb. fold (tokens (sh_input st)) in Hb.
  destruct (build_in_bounds (split_pipes (tokens (sh_input st))) (sh_cmds st) 0)
    as (p & Hp & _).
  { rewrite weight_split_pipes, Hcmds. unfold MAX_CMDS. lia. }
  assert (parse (tokens (sh_input st)) (sh_cmds st) = Ret p) as Hparse.
  { rewrite parse_build. destruct (tokens (sh_input st)) eqn:Htok; [|done].
    destruct Hpipe as [(? & ? & ? & _)|[(pre & ? & ? & _)|(pre & ? & ? & ? & ? & _)]];
      try done; by destruct pre. }
  apply build_first_failure in Hp
    as [(_ & _ & Hall & _)|(Hret & pre & seg & post & Hsplit & Hpre & _ & Hseg)].
  { rewrite Forall_forall in Hall. by destruct (Hall _ Hempty) as [? _]. }
  assert (exists tok, p_err p = Some tok /\
            ((seg = [] /\ tok = "|"%string) \/
             (seg <> [] /\ new_cmd seg (length seg) = inl tok /\ is_redirect tok = true)))
    as (tok & Herr & Htok).
  { destruct Hseg as [[-> Herr]|(Hne & err & Hnew & Herr)].
    - exists "|"%string. split; [done|]. by left.
    - exists err. split; [done|]. right. split_and!; try done.
      by eapply new_cmd_err_redirect. }
  exists p, tok. split_and!; try done.
  - by exists pre, seg, post.
  - intros (pipe & rest & Hfirst & Hp). rewrite Hfirst in Hsplit.
    cbn in Hsplit. rewrite Hp in Hsplit.
    destruct pre as [|s pre]; cbn in Hsplit.
    + injection Hsplit as <- _. by destruct Htok as [[_ ?]|[? _]].
    + injection Hsplit as <- _. apply Forall_cons in Hpre as [[? _] _]. done.
  - by apply main_body_rejected.
Qed.

Lemma misplaced_pipe_rejected_witness :
  let st := main_init (line "a |") os_plain in
  length (sh_cmds st) = MAX_CMDS /\
  misplaced_pipe (tokens (sh_input st)) /\
  exists p tok,
    parse (tokens (sh_input st)) (sh_cmds st) = Ret p /\
    p_ret p = false /\ p_err p = Some tok /\
    main_body st =
      Ret (mkShell (line_rest st) (still_running st) (line_status st) (p_cmds p)
                   (fprintf_stderr (PARSE_ERR tok) (print_prompt st))).
Proof.
  intros st.
  assert (length (sh_cmds st) = MAX_CMDS) as H1 by reflexivity.
  assert (misplaced_pipe (tokens (sh_input st))) as H2.
  { right; left. exists ["a"], "|"%string. split; reflexivity. }
  split; [exact H1|]. split; [exact H2|].
  destruct (misplaced_pipe_rejected st H1 H2) as (p & tok & Hp & Hret & Herr & _ & _ & Hmain).
  exists p, tok. auto.
Defined.

(** C4 as it is worded fails: in the line [> |] the pipe token is the last
    token, and the token [parse] names is [>]. *)
Lemma misplaced_pipe_not_the_one_cited :
  tokens (line "> |") = [">"; "|"] /\
  misplaced_pipe (tokens (line "> |")) /\
  rejects "> |" ">" /\
  ~ rejects "> |" "|".
Proof.
  split; [by vm_compute|]. split.
  { right; left. exists [">"], "|"%string. split; reflexivity. }
  split; [by_evaluation|].
  intros (p & Hp & _ & Herr). vm_compute in Hp. injection Hp as <-. discriminate Herr.
Qed.

(** C2, as the code has it: in the line [a || b] the tokenizer drops [||],
    the tokens are [a] and [b], and the line is the one Command [a b], which
    [main] hands to [exec]; it is the line [a | | b], with two pipe tokens and
    nothing between them, that is refused, naming [|], and of which nothing
    is run. *)
Theorem double_pipe_is_dropped (rest : string) (os : OS) :
  tokens (line "a || b") = ["a"; "b"] /\
  yields "a || b" [mkCmd ["a"; "b"] 2 [] []] /\
  main_body (main_init (line "a || b" +:+ rest) os) =
    (r <-- exec (mkCmd ["a"; "b"] 2 [] [])
                (print_prompt (main_init (line "a || b" +:+ rest) os)) ;;
     Ret (mkShell rest (if (r.1 =? CMD_EXIT)%Z then false else true) 1
                  (<[0 := Some (mkCmd ["a"; "b"] 2 [] [])]> (replicate MAX_CMDS None))
                  r.2)) /\
  tokens (line "a | | b") = ["a"; "|"; "|"; "b"] /\
  rejects "a | | b" "|" /\
  main_body (main_init (line "a | | b" +:+ rest) os) =
    Ret (mkShell rest true 1
                 (<[0 := Some (mkCmd ["a"] 1 [] [])]> (replicate MAX_CMDS None))
                 (fprintf_stderr (PARSE_ERR "|")
                    (print_prompt (main_init (line "a | | b" +:+ rest) os)))).
Proof.
  split; [by vm_compute|]. split; [by_evaluation|].
  split; [vm_compute; reflexivity|].
  split; [by vm_compute|]. split; [by_evaluation|].
  vm_compute; reflexivity.
Qed.

(** C2 as it is worded fails: the line [a || b] is not refused, and a child
    is forked to run the Command [a b]. *)
Lemma double_pipe_line_is_run :
  tokens (line "a || b") = ["a"; "b"] /\
  (forall tok, ~ rejects "a || b" tok) /\
  exists st', main_body (main_init (line "a || b") os_plain) = Ret st' /\
    os_trace (sh_os st') =
      [EvFork (Some (1%Z, mkProc (mkCmd ["a"; "b"] 2 [] []) 0 1));
       EvWait (Some (1%Z, 0%Z)); EvWait None].
Proof.
  split; [by vm_compute|]. split.
  { intros tok (p & Hp & Hret & _). vm_compute in Hp. injection Hp as <-.
    discriminate Hret. }
  eexists. split; [vm_compute; reflexivity|]. reflexivity.
Qed.

(** ** The built-in commands *)

Section Builtins.

Implicit Types (cmd : Cmd) (os : OS).

Lemma spawn_exit cmd file_in file_out os :
  nth 0 (cmd_args cmd) EmptyString = Lex._tok Lex.T_EXIT ->
  spawn cmd file_in file_out os = (CMD_EXIT, os).
Proof. unfold spawn. intros ->. done. Qed.

Lemma spawn_cd cmd file_in file_out os :
  nth 0 (cmd_args cmd) EmptyString = Lex._tok Lex.T_CD ->
  spawn cmd file_in file_out os = cmd_cd cmd os.
Proof. unfold spawn. intros ->. done. Qed.

Lemma cd_only_refl os : cd_only os os.
Proof. split_and!; try done. exists []. by rewrite app_nil_r. Qed.

Lemma cd_only_stderr text os os' :
  cd_only os os' -> cd_only os (fprintf_stderr text os').
Proof.
  intros (? & ? & ? & ? & ? & evs & Hevs & Hall). split_and!; try done.
  exists (evs ++ [EvStderr text]). cbn. rewrite Hevs, <- app_assoc.
  split; [done|]. apply Forall_app. split; [done|]. by constructor.
Qed.

Lemma cmd_cd_chdir_only path os : cd_only os (cmd_cd_chdir path os).2.
Proof.
  unfold cmd_cd_chdir, sys_chdir. destruct (os_dir os (os_cwd os) path) as [err|dir]; cbn.
  - apply cd_only_stderr. split_and!; try done.
    exists [EvChdir path false]. split; [done|]. by constructor.
  - split_and!; try done. exists [EvChdir path true]. split; [done|]. by constructor.
Qed.

Lemma cmd_cd_only cmd os : cd_only os (cmd_cd cmd os).2.
Proof.
  assert (forall path, cd_only os (cmd_cd_path path os).2) as Hpath.
  { intros path. unfold cmd_cd_path.
    repeat case_match; cbn;
      try apply cmd_cd_chdir_only; apply cd_only_stderr, cd_only_refl. }
  unfold cmd_cd. destruct (cmd_args cmd !! 1) as [path|]; [|apply Hpath].
  case_bool_decide; [|apply Hpath]. apply cd_only_stderr, cd_only_refl.
Qed.

(** C6: [cd] without argument or with the one argument [~] goes to the
    directory named by HOME and fails with a message when HOME is not set;
    with one argument that starts with [~] and goes on it fails with the
    tilde-expansion message and does not call [chdir]; with two arguments or
    more it fails with the too-many-arguments message and does not call
    [chdir]; with any other single argument it calls [chdir] on the argument
    as it stands.  When [chdir] fails the path and the error are reported
    and the working directory is as before. *)
Theorem cmd_cd_cases (cmd : Cmd) (prog : string) (arguments : list string) (os : OS) :
  cmd_args cmd = prog :: arguments ->
  cmd_argn cmd = length (cmd_args cmd) ->
  let go_home :=
    match os_home os with
    | Some home => cmd_cd_chdir home os
    | None => (CMD_FAILURE,
               fprintf_stderr ("cd: $HOME env variable is invalid" +:+ newline) os)
    end in
  (arguments = [] -> cmd_cd cmd os = go_home) /\
  (arguments = ["~"%string] -> cmd_cd cmd os = go_home) /\
  (forall path, arguments = [path] ->
     chr path 0 = "~"%char -> chr path 1 <> NUL ->
     cmd_cd cmd os =
       (CMD_FAILURE,
        fprintf_stderr ("cd: tilde expansion is not supported" +:+ newline) os)) /\
  (2 <= length arguments ->
     cmd_cd cmd os =
       (CMD_FAILURE, fprintf_stderr ("cd: too many arguments" +:+ newline) os)) /\
  (forall path, arguments = [path] -> chr path 0 <> "~"%char ->
     cmd_cd cmd os = cmd_cd_chdir path os) /\
  (forall path dir, os_dir os (os_cwd os) path = inr dir ->
     (cmd_cd_chdir path os).1 = CMD_SUCCESS /\
     os_cwd (cmd_cd_chdir path os).2 = dir /\
     os_trace (cmd_cd_chdir path os).2 = os_trace os ++ [EvChdir path true]) /\
  (forall path err, os_dir os (os_cwd os) path = inl err ->
     (cmd_cd_chdir path os).1 = CMD_FAILURE /\
     os_cwd (cmd_cd_chdir path os).2 = os_cwd os /\
     os_trace (cmd_cd_chdir path os).2 =
       os_trace os ++ [EvChdir path false;
                       EvStderr ("cd: " +:+ path +:+ ": " +:+ err +:+ newline)]).
Proof.
  intros Hargs Hargn go_home. unfold cmd_cd. rewrite Hargn, Hargs.
  split_and!.
  - intros ->. done.
  - intros ->. done.
  - intros path -> H0 H1. cbn. unfold cmd_cd_path.
    rewrite H0. cbn. apply Ascii.eqb_neq in H1. by rewrite H1.
  - intros Hlen. destruct arguments as [|a [|b l]]; cbn in Hlen; try lia. done.
  - intros path -> H0. cbn. unfold cmd_cd_path.
    apply Ascii.eqb_neq in H0. by rewrite H0.
  - intros path dir Hdir. unfold cmd_cd_chdir, sys_chdir. by rewrite Hdir.
  - intros path err Hdir. unfold cmd_cd_chdir, sys_chdir. rewrite Hdir. cbn.
    by rewrite <- app_assoc.
Qed.

Lemma cmd_cd_cases_witness :
  let cmd := mkCmd [Lex._tok Lex.T_CD; "/tmp"%string] 2 [] [] in
  cmd_args cmd = Lex._tok Lex.T_CD :: ["/tmp"%string] /\
  cmd_argn cmd = length (cmd_args cmd) /\
  cmd_cd cmd os_plain = cmd_cd_chdir "/tmp" os_plain /\
  os_cwd (cmd_cd cmd os_plain).2 = "/tmp"%string.
Proof.
  intros cmd.
  destruct (cmd_cd_cases cmd (Lex._tok Lex.T_CD) ["/tmp"%string] os_plain
              eq_refl eq_refl) as (_ & _ & _ & _ & Hpath & _).
  split; [reflexivity|]. split; [reflexivity|].
  split; [|reflexivity].
  apply Hpath; [reflexivity|]. cbv. discriminate.
Defined.

(** An argument of [cd] that is itself a keyword reaches [chdir] as the
    two-character token of the tokenizer, not as the word typed. *)
Remark cd_keyword_argument :
  yields "cd exit" [mkCmd [Lex._tok Lex.T_CD; Lex._tok Lex.T_EXIT] 2 [] []] /\
  cmd_cd (mkCmd [Lex._tok Lex.T_CD; Lex._tok Lex.T_EXIT] 2 [] []) os_plain =
    cmd_cd_chdir (Lex._tok Lex.T_EXIT) os_plain.
Proof. split; [by_evaluation|reflexivity]. Qed.

End Builtins.

(** ** Reaping the children *)

Section Reaping.

Implicit Types (os : OS) (children : list (Z * option Z)).

Lemma ended_lookup children i :
  i ∈ ended children <-> exists pid status, children !! i = Some (pid, Some status).
Proof.
  unfold ended. rewrite list_elem_of_omap. split.
  - intros ([j [pid [status|]]] & Hin & Hf); cbn in Hf; [|done].
    injection Hf as ->. apply elem_of_lookup_imap in Hin as (j' & c & Heq & Hc).
    injection Heq as <- <-. eauto.
  - intros (pid & status & Hc). exists (i, (pid, Some status)). split; [|done].
    apply elem_of_lookup_imap. eauto.
Qed.

Lemma ended_nil children :
  ended children = [] -> Forall (fun c => c.2 = None) children.
Proof.
  intros Hnil. apply Forall_lookup. intros i [pid [status|]] Hc; [|done].
  assert (i ∈ ended children) as Hin by (apply ended_lookup; eauto).
  rewrite Hnil in Hin. by apply elem_of_nil in Hin.
Qed.

(** What a call of [wait] does. *)
Lemma sys_wait_cases os :
  match sys_wait os with
  | WaitNone os' => os_children os = [] /\ os' = log (EvWait None) os
  | WaitBlocks => os_children os <> [] /\ Forall (fun c => c.2 = None) (os_children os)
  | WaitReaped pid status os' =>
      exists i, os_children os !! i = Some (pid, Some status) /\
                os_children os' = delete i (os_children os) /\
                os_trace os' = os_trace os ++ [EvWait (Some (pid, status))]
  end.
Proof.
  unfold sys_wait. destruct (os_children os) as [|c children] eqn:Hch; [done|].
  rewrite <- Hch.
  destruct (ended (os_children os)) as [|r ready] eqn:Hready.
  { cbn. split; [by rewrite Hch|]. by apply ended_nil. }
  rewrite <- Hready.
  destruct (lookup_lt_is_Some_2 (ended (os_children os))
              (os_sched os (os_nwait os) `mod` length (ended (os_children os))))
    as [i Hi].
  { apply Nat.mod_upper_bound. by rewrite Hready. }
  rewrite Hi.
  apply list_elem_of_lookup_2, ended_lookup in Hi as (pid & status & Hc).
  rewrite Hc. cbn. eauto.
Qed.

(** [while (wait(&status) > 0);] returns once every child has been reaped,
    and only then; [status] is then the status of the child reaped last, or
    its initial value when there was no child. *)
Lemma wait_loop_reaps : forall n status os,
  length (os_children os) = n ->
  match wait_loop n status os with
  | Ret (s, os') =>
      os_children os' = [] /\
      exists reaped,
        os_trace os' = os_trace os ++ (EvWait ∘ Some <$> reaped) ++ [EvWait None] /\
        (fun r : Z * Z => (r.1, Some r.2)) <$> reaped ≡ₚ os_children os /\
        s = last_status status reaped
  | Blocked => exists pid, (pid, None) ∈ os_children os
  | Undefined => False
  end.
Proof.
  induction n as [|n IH]; intros status os Hn.
  - apply length_zero_iff_nil in Hn. cbn. unfold sys_wait. rewrite Hn.
    split; [done|]. exists []. by split_and!.
  - cbn [wait_loop]. pose proof (sys_wait_cases os) as Hw.
    destruct (sys_wait os) as [os'| |pid status' os'].
    + destruct Hw as [Hnil _]. rewrite Hnil in Hn. done.
    + destruct Hw as [Hne Hall]. destruct (os_children os) as [|[pid st] l]; [done|].
      apply Forall_cons in Hall as [Hst _]. cbn in Hst. subst st.
      exists pid. apply list_elem_of_here.
    + destruct Hw as (i & Hi & Hdel & Htr).
      specialize (IH status' os').
      assert (length (os_children os') = n) as Hlen.
      { rewrite Hdel, length_delete by eauto. lia. }
      destruct (wait_loop n status' os') as [[s os'']| |]; [| |].
      * destruct (IH Hlen) as (Hnil & reaped & Htr' & Hperm & Hs).
        split; [done|]. exists ((pid, status') :: reaped). split_and!.
        -- rewrite Htr', Htr, <- app_assoc. done.
        -- rewrite fmap_cons, Hperm, Hdel. cbn [fst snd]. symmetry.
           by apply delete_Permutation.
        -- rewrite Hs. unfold last_status. rewrite fmap_cons.
           destruct reaped as [|r reaped]; [done|].
           rewrite fmap_cons, last_cons_cons, last_cons.
           by destruct (last _).
      * by apply IH.
      * destruct (IH Hlen) as [pid' Hin]. exists pid'.
        rewrite Hdel in Hin. by eapply list_elem_of_delete_inv.
Qed.
End Reaping.

(** ** The executor *)

Section Executor.

Implicit Types (cmd : Cmd) (cmds : list (option Cmd)) (os : OS) (st : shell).

Lemma parse_ok_no_err args cmds p :
  parse args cmds = Ret p -> p_ret p = true -> p_err p = None.
Proof.
  rewrite parse_build. destruct args as [|arg args].
  { injection 1 as <-. done. }
  intros [(_ & Herr & _)|(Hret & _)]%build_first_failure; [done|congruence].
Qed.

Lemma main_loop_stopped n st : sh_running st = false -> main_loop n st = Ret st.
Proof. intros H. destruct n; [done|]. cbn. by rewrite H. Qed.

Lemma print_prompt_trace st :
  os_nfork (print_prompt st) = os_nfork (sh_os st) /\
  os_children (print_prompt st) = os_children (sh_os st) /\
  os_cwd (print_prompt st) = os_cwd (sh_os st) /\
  os_trace (print_prompt st) =
    os_trace (sh_os st) ++
    (if os_isatty (sh_os st) && negb (sh_status st =? 0)%Z
     then [EvStdout prompt] else []).
Proof.
  unfold print_prompt. destruct (_ && _); cbn; [done|]. by rewrite app_nil_r.
Qed.

(** C7: when the line is a single Command whose program name is the exit
    token, [exec] returns CMD_EXIT without any system call, [main] clears
    [running] and leaves its loop; no process is forked: but for the prompt,
    the operating system is as it was before the line. *)
Theorem sole_exit_ends_session (st : shell) (p : parse_out) (cmd : Cmd) :
  sh_running st = true ->
  parse (tokens (sh_input st)) (sh_cmds st) = Ret p ->
  p_ret p = true -> p_cmdn p = 1 ->
  load (p_cmds p) 0 = Ret cmd ->
  nth 0 (cmd_args cmd) EmptyString = Lex._tok Lex.T_EXIT ->
  let st' := mkShell (line_rest st) false (line_status st) (p_cmds p)
                     (print_prompt st) in
  exec cmd (print_prompt st) = Ret (CMD_EXIT, print_prompt st) /\
  main_body st = Ret st' /\
  (forall n, main_loop (S n) st = Ret st') /\
  os_nfork (sh_os st') = os_nfork (sh_os st) /\
  os_children (sh_os st') = os_children (sh_os st) /\
  os_trace (sh_os st') =
    os_trace (sh_os st) ++
    (if os_isatty (sh_os st) && negb (sh_status st =? 0)%Z
     then [EvStdout prompt] else []).
Proof.
  intros Hrun Hp Hret Hcmdn Hload Hexit st'.
  assert (exec cmd (print_prompt st) = Ret (CMD_EXIT, print_prompt st)) as Hexec.
  { unfold exec. by rewrite spawn_exit. }
  assert (main_body st = Ret st') as Hbody.
  { rewrite (main_body_parsed _ _ Hp), (parse_ok_no_err _ _ _ Hp Hret), Hret, Hcmdn.
    cbn [andb]. rewrite bool_decide_eq_true_2 by lia.
    rewrite bool_decide_eq_false_2 by lia.
    rewrite Hload. cbn [bind]. rewrite Hexec. done. }
  split; [done|]. split; [done|]. split.
  { intros n. cbn [main_loop]. rewrite Hrun, Hbody. cbn [bind].
    by apply main_loop_stopped. }
  pose proof (print_prompt_trace st) as (? & ? & _ & ?). done.
Qed.

Lemma sole_exit_ends_session_witness :
  let st := main_init (line "exit" +:+ line "ls") os_plain in
  exists st', main_loop 5 st = Ret st' /\
              sh_running st' = false /\
              sh_input st' = line "ls" /\
              os_trace (sh_os st') = [].
Proof.
  intros st.
  set (cmd := mkCmd [Lex._tok Lex.T_EXIT] 1 [] []).
  set (p := mkParseOut true 1 (<[0 := Some cmd]> (replicate MAX_CMDS None)) None).
  destruct (sole_exit_ends_session st p cmd) as (_ & _ & Hloop & _);
    try reflexivity.
  eexists. split; [apply Hloop|]. split; [reflexivity|]. split; reflexivity.
Defined.

Lemma exec_pipe_from_start cmds cmdn os :
  exec_pipe cmds cmdn os = exec_pipe_from cmds cmdn 0 STDIN_FILENO os.
Proof. unfold exec_pipe, exec_pipe_from. by rewrite Nat.sub_0_r. Qed.

Lemma cmd_cd_not_exit cmd os : (cmd_cd cmd os).1 <> CMD_EXIT.
Proof.
  unfold cmd_cd, cmd_cd_path, cmd_cd_chdir.
  repeat case_match; cbn; done.
Qed.

Lemma spawn_not_exit cmd file_in file_out os :
  builtin Lex.T_EXIT cmd = false -> (spawn cmd file_in file_out os).1 <> CMD_EXIT.
Proof.
  unfold builtin, spawn. intros Hb.
  destruct (chr _ 0 =? NL)%char; cbn in Hb.
  - rewrite Hb. destruct (chr _ 1 =? Lex.T_CD)%char; [apply cmd_cd_not_exit|].
    destruct (sys_fork _ _) as [pid os']. by destruct (pid =? -1)%Z.
  - destruct (sys_fork _ _) as [pid os']. by destruct (pid =? -1)%Z.
Qed.

Lemma spawn_keeps_pipes cmd file_in file_out os :
  os_pipe (spawn cmd file_in file_out os).2 = os_pipe os /\
  os_npipe (spawn cmd file_in file_out os).2 = os_npipe os.
Proof.
  assert (forall p, os_pipe (sys_fork p os).2 = os_pipe os /\
                    os_npipe (sys_fork p os).2 = os_npipe os) as Hfork.
  { intros p. unfold sys_fork. by destruct (os_fork os (os_nfork os)). }
  pose proof (cmd_cd_only cmd os) as (_ & _ & ? & ? & _).
  unfold spawn.
  repeat case_match; subst; cbn; try done;
    match goal with H : sys_fork ?p os = _ |- _ =>
      specialize (Hfork p); rewrite H in Hfork; apply Hfork end.
Qed.

(** One pass of the loop of [exec_pipe] that does not meet [exit]. *)
Lemma exec_pipe_from_step cmds cmdn k file_in os cmd :
  k < cmdn - 1 ->
  load cmds k = Ret cmd ->
  os_pipe os (os_npipe os) = true ->
  (spawn cmd file_in (Z.of_nat (4 + 2 * os_npipe os)) (sys_pipe os).2).1 <> CMD_EXIT ->
  exec_pipe_from cmds cmdn k file_in os =
    exec_pipe_from cmds cmdn (S k) (Z.of_nat (3 + 2 * os_npipe os))
      (sys_close (Z.of_nat (4 + 2 * os_npipe os))
         (spawn cmd file_in (Z.of_nat (4 + 2 * os_npipe os)) (sys_pipe os).2).2).
Proof.
  intros Hk Hload Hpipe Hne. unfold exec_pipe_from.
  replace (cmdn - 1 - k) with (S (cmdn - 1 - S k)) by lia.
  cbn [exec_pipe_loop]. unfold sys_pipe at 1. rewrite Hpipe, Hload. cbn [bind].
  unfold sys_pipe in *. rewrite Hpipe in *. cbn [snd] in *.
  destruct (spawn _ _ _ _) as [r os2]. cbn [fst snd] in *.
  apply Z.eqb_neq in Hne. by rewrite Hne.
Qed.

(** The loop gets to stage [k] when no stage before it is [exit] and the
    pipes before it can be made. *)
Lemma exec_pipe_reaches cmds cmdn os : forall k,
  k <= cmdn - 1 ->
  (forall j, j < k -> exists c, load cmds j = Ret c /\ builtin Lex.T_EXIT c = false) ->
  (forall j, j < k -> os_pipe os (os_npipe os + j) = true) ->
  exists file_in os_k,
    exec_pipe cmds cmdn os = exec_pipe_from cmds cmdn k file_in os_k /\
    os_pipe os_k = os_pipe os /\ os_npipe os_k = os_npipe os + k.
Proof.
  induction k as [|k IH]; intros Hk Hcmds Hpipes.
  { exists STDIN_FILENO, os. split; [apply exec_pipe_from_start|]. split; [done|lia]. }
  destruct IH as (file_in & os_k & Hreach & Hp & Hn);
    [lia|intros; apply Hcmds; lia|intros; apply Hpipes; lia|].
  destruct (Hcmds k) as (c & Hload & Hc); [lia|].
  assert (os_pipe os_k (os_npipe os_k) = true) as Hpk.
  { rewrite Hp, Hn. apply Hpipes. lia. }
  eexists _, _. split.
  { rewrite Hreach. apply (exec_pipe_from_step _ _ _ _ _ c);
      [lia|done|done|by apply spawn_not_exit]. }
  pose proof (spawn_keeps_pipes c file_in (Z.of_nat (4 + 2 * os_npipe os_k))
                (sys_pipe os_k).2) as [H1 H2].
  unfold sys_close, log. cbn [os_pipe os_npipe]. rewrite H1, H2.
  unfold sys_pipe. cbn [snd os_pipe os_npipe]. split; [done|lia].
Qed.

(** C9, as the code has it: when the program name of a stage of a pipeline
    is the cd token, no stage before it has the exit token as its program
    name and the pipes up to it can be made, [exec_pipe] gets to this stage,
    where [spawn] is [cmd_cd] run in the interpreter itself, which forks
    nothing and may change the working directory; [exec_pipe] then goes on
    with the next stage, or with reaping when the stage was the last one. *)
Theorem cd_stage_runs_in_process
    (cmds : list (option Cmd)) (cmdn k : nat) (cmd : Cmd) (os : OS) :
  2 <= cmdn -> k < cmdn ->
  load cmds k = Ret cmd ->
  nth 0 (cmd_args cmd) EmptyString = Lex._tok Lex.T_CD ->
  (forall j, j < k -> exists c, load cmds j = Ret c /\ builtin Lex.T_EXIT c = false) ->
  (forall j, j <= k -> j < cmdn - 1 -> os_pipe os (os_npipe os + j) = true) ->
  exists file_in os_k,
    exec_pipe cmds cmdn os = exec_pipe_from cmds cmdn k file_in os_k /\
    (forall file_out os',
       spawn cmd file_in file_out os' = cmd_cd cmd os' /\
       cd_only os' (cmd_cd cmd os').2) /\
    (k < cmdn - 1 ->
       exec_pipe_from cmds cmdn k file_in os_k =
         exec_pipe_from cmds cmdn (S k) (Z.of_nat (3 + 2 * os_npipe os_k))
           (sys_close (Z.of_nat (4 + 2 * os_npipe os_k))
              (cmd_cd cmd (sys_pipe os_k).2).2)) /\
    (k = cmdn - 1 ->
       exec_pipe_from cmds cmdn k file_in os_k =
         (w <-- wait_all 0 (cmd_cd cmd os_k).2 ;; Ret (status_result w.1, w.2))).
Proof.
  intros Hn Hk Hload Hcd Hcmds Hpipes.
  destruct (exec_pipe_reaches cmds cmdn os k) as (file_in & os_k & Hreach & Hp & Hnp);
    [lia|done|intros; apply Hpipes; lia|].
  exists file_in, os_k. split; [done|]. split.
  { intros file_out os'. split; [by apply spawn_cd|apply cmd_cd_only]. }
  split.
  - intros Hlt.
    rewrite (exec_pipe_from_step _ _ _ _ _ cmd); try done.
    + by rewrite spawn_cd.
    + rewrite Hp, Hnp. apply Hpipes; lia.
    + rewrite spawn_cd by done. apply cmd_cd_not_exit.
  - intros ->. unfold exec_pipe_from. rewrite Nat.sub_diag.
    cbn [exec_pipe_loop bind]. unfold exec_pipe_last. rewrite Hload. cbn [bind].
    rewrite spawn_cd by done.
    pose proof (cmd_cd_not_exit cmd os_k) as Hne.
    destruct (cmd_cd cmd os_k) as [r os1]. cbn [fst snd] in *.
    apply Z.eqb_neq in Hne. by rewrite Hne.
Qed.

(** When [exec_pipe] returns something else than CMD_EXIT, every child has
    been reaped, and the result tells whether the status of the child reaped
    last is 0. *)
Lemma exec_pipe_returns_after_reaping cmds cmdn os r os' :
  exec_pipe cmds cmdn os = Ret (r, os') -> r <> CMD_EXIT ->
  os_children os' = [] /\
  exists os1 (reaped : list (Z * Z)),
    os_trace os' = os_trace os1 ++ (EvWait ∘ Some <$> reaped) ++ [EvWait None] /\
    (fun c : Z * Z => (c.1, Some c.2)) <$> reaped ≡ₚ os_children os1 /\
    r = status_result (last_status 0 reaped).
Proof.
  unfold exec_pipe. intros Hex Hne.
  destruct (exec_pipe_loop _ _ _ _ _) as [[os1|i file_in os1]| |]; cbn in Hex; try done.
  { injection Hex as <- _. done. }
  unfold exec_pipe_last in Hex.
  destruct (load cmds i) as [cmd| |]; cbn in Hex; try done.
  destruct (spawn cmd file_in STDOUT_FILENO os1) as [r0 os2].
  destruct (r0 =? CMD_EXIT)%Z.
  { injection Hex as <- _. done. }
  unfold wait_all in Hex.
  pose proof (wait_loop_reaps _ 0%Z os2 eq_refl) as Hw.
  destruct (wait_loop _ _ _) as [[s os3]| |]; cbn in Hex; try done.
  injection Hex as <- <-. destruct Hw as (Hnil & reaped & Htr & Hperm & ->).
  split; [done|]. by exists os2, reaped.
Qed.

Lemma cd_stage_runs_in_process_witness :
  let cmds := [Some cmd_cd_tmp; Some cmd_ls] in
  yields "cd /tmp | ls" [cmd_cd_tmp; cmd_ls] /\
  exec_pipe cmds 2 os_plain =
    exec_pipe_from cmds 2 1 3
      (sys_close 4 (cmd_cd cmd_cd_tmp (sys_pipe os_plain).2).2) /\
  exists os', exec_pipe cmds 2 os_plain = Ret (CMD_SUCCESS, os') /\
    os_cwd os' = "/tmp"%string /\
    os_trace os' =
      [EvPipe (Some (3%Z, 4%Z)); EvChdir "/tmp" true; EvClose 4;
       EvFork (Some (1%Z, mkProc cmd_ls 3 1));
       EvWait (Some (1%Z, 0%Z)); EvWait None].
Proof.
  intros cmds. split; [by_evaluation|]. split.
  - destruct (cd_stage_runs_in_process cmds 2 0 cmd_cd_tmp os_plain)
      as (file_in & os_k & Hreach & _ & Hstep & _).
    + lia.
    + lia.
    + reflexivity.
    + reflexivity.
    + intros j Hj. lia.
    + intros j _ _. reflexivity.
    + reflexivity.
  - eexists. split; [vm_compute; reflexivity|]. split; reflexivity.
Defined.

(** C9 as it is worded fails: in the pipeline [exit | cd /tmp] the program
    name of the second stage is the cd token, and [exec_pipe] returns CMD_EXIT
    from the first stage: [chdir] is never called, although it would
    succeed. *)
Lemma cd_stage_after_exit_not_run :
  let cmds := [Some cmd_exit_alone; Some cmd_cd_tmp] in
  yields "exit | cd /tmp" [cmd_exit_alone; cmd_cd_tmp] /\
  load cmds 1 = Ret cmd_cd_tmp /\
  nth 0 (cmd_args cmd_cd_tmp) EmptyString = Lex._tok Lex.T_CD /\
  os_cwd (cmd_cd cmd_cd_tmp os_plain).2 = "/tmp"%string /\
  exists os', exec_pipe cmds 2 os_plain = Ret (CMD_EXIT, os') /\
    os_cwd os' = "/"%string /\
    os_trace os' = [EvPipe (Some (3%Z, 4%Z))].
Proof.
  intros cmds. split; [by_evaluation|]. split; [reflexivity|].
  split; [reflexivity|]. split; [reflexivity|].
  eexists. split; [vm_compute; reflexivity|]. split; reflexivity.
Qed.

(** C1 on the pipeline [false | sleep 1]: both children are reaped before
    [exec_pipe] returns, but the status it returns is that of the child
    reaped last.  When [false], which exits with code 1, is reaped first and
    [sleep 1], which exits with code 0, last, the result is CMD_SUCCESS; with
    the two reaped in the other order it is CMD_FAILURE. *)
Theorem pipeline_status_is_that_of_last_reaped :
  let cmds := [Some cmd_false; Some cmd_sleep] in
  yields "false | sleep 1" [cmd_false; cmd_sleep] /\
  (exists os',
     exec_pipe cmds 2 (os_example first_child_fails (fun _ => 0)) =
       Ret (CMD_SUCCESS, os') /\
     os_children os' = [] /\
     os_trace os' =
       [EvPipe (Some (3%Z, 4%Z)); EvFork (Some (1%Z, mkProc cmd_false 0 4));
        EvClose 4; EvFork (Some (2%Z, mkProc cmd_sleep 3 1));
        EvWait (Some (1%Z, 256%Z)); EvWait (Some (2%Z, 0%Z)); EvWait None]) /\
  (exists os',
     exec_pipe cmds 2 (os_example first_child_fails
                         (fun n => match n with 0 => 1 | S _ => 0 end)) =
       Ret (CMD_FAILURE, os') /\
     os_children os' = [] /\
     os_trace os' =
       [EvPipe (Some (3%Z, 4%Z)); EvFork (Some (1%Z, mkProc cmd_false 0 4));
        EvClose 4; EvFork (Some (2%Z, mkProc cmd_sleep 3 1));
        EvWait (Some (2%Z, 0%Z)); EvWait (Some (1%Z, 256%Z)); EvWait None]).
Proof.
  intros cmds. split; [by_evaluation|].
  split; (eexists; split; [vm_compute; reflexivity|]; split; reflexivity).
Qed.

End Executor.

(** ** The rules of the tokenizer *)

Section Rules.

Implicit Types (s pre rest lit : string) (c a : ascii) (r : Lex.rule).

Lemma scan_rule_rule_len s :
  Lex.scan_rule s = foldl Lex.better None ((fun r => (r, rule_len r s)) <$> all_rules).
Proof. reflexivity. Qed.

Lemma all_rules_lookup j r : all_rules !! j = Some r <-> j = rule_index r.
Proof.
  split.
  - do 8 (destruct j as [|j]; [by intros [= <-]|]). done.
  - intros ->. by destruct r.
Qed.

(** The choice among candidates listed in order: the longest match, and the
    first of those that are as long. *)
Lemma foldl_better_choice (f : Lex.rule -> nat) (rs : list Lex.rule) :
  match foldl Lex.better None ((fun r => (r, f r)) <$> rs) with
  | Some (r, n) =>
      n = f r /\ 0 < n /\
      exists j, rs !! j = Some r /\
        forall i r', rs !! i = Some r' -> f r' <= n /\ (i < j -> f r' < n)
  | None => forall i r', rs !! i = Some r' -> f r' = 0
  end.
Proof.
  induction rs as [|x rs IH] using rev_ind; [done|].
  rewrite fmap_app, foldl_app. cbn [fmap list_fmap foldl].
  destruct (foldl Lex.better None ((fun r => (r, f r)) <$> rs)) as [[r n]|];
    cbn [Lex.better snd].
  - destruct IH as (-> & Hpos & j & Hj & Hall). case_bool_decide as Hlt.
    + split; [done|]. split; [lia|]. exists (length rs). split.
      { by rewrite lookup_app_r, Nat.sub_diag by lia. }
      intros i r' Hi. apply lookup_app_Some in Hi as [Hi|[Hge Hi]].
      * destruct (Hall _ _ Hi). lia.
      * apply list_lookup_singleton_Some in Hi as [Hi <-]. lia.
    + split; [done|]. split; [done|]. exists j. split.
      { by apply lookup_app_l_Some. }
      intros i r' Hi. apply lookup_app_Some in Hi as [Hi|[Hge Hi]].
      * by apply Hall.
      * apply list_lookup_singleton_Some in Hi as [Hi <-].
        apply lookup_lt_Some in Hj. lia.
  - case_bool_decide as Hlt.
    + split; [done|]. split; [done|]. exists (length rs). split.
      { by rewrite lookup_app_r, Nat.sub_diag by lia. }
      intros i r' Hi. apply lookup_app_Some in Hi as [Hi|[Hge Hi]].
      * rewrite (IH _ _ Hi). lia.
      * apply list_lookup_singleton_Some in Hi as [Hi <-]. lia.
    + intros i r' Hi. apply lookup_app_Some in Hi as [Hi|[Hge Hi]].
      * by eapply IH.
      * apply list_lookup_singleton_Some in Hi as [Hi <-]. lia.
Qed.

(** flex's choice: the match is the longest one, and no rule listed before
    the chosen one matches as much. *)
Lemma scan_rule_spec s r n :
  Lex.scan_rule s = Some (r, n) ->
  n = rule_len r s /\ 0 < n /\
  forall r', rule_len r' s <= n /\ (rule_index r' < rule_index r -> rule_len r' s < n).
Proof.
  rewrite scan_rule_rule_len. intros Hscan.
  pose proof (foldl_better_choice (fun r => rule_len r s) all_rules) as H.
  cbv beta in H. rewrite Hscan in H. destruct H as (Hn & Hpos & j & Hj & Hall).
  apply all_rules_lookup in Hj as ->. split; [done|]. split; [done|].
  intros r'. apply (Hall (rule_index r')). by apply all_rules_lookup.
Qed.

Lemma scan_rule_none s r : Lex.scan_rule s = None -> rule_len r s = 0.
Proof.
  rewrite scan_rule_rule_len. intros Hscan.
  pose proof (foldl_better_choice (fun r => rule_len r s) all_rules) as H.
  cbv beta in H. rewrite Hscan in H. apply (H (rule_index r)). by apply all_rules_lookup.
Qed.

End Rules.
(** ** The tokenizer on the text of a line *)

Section Lines.

Implicit Types (s pre rest lit : string) (c a : ascii) (r : Lex.rule)
  (p : ascii -> bool) (args : list string).

Lemma append_nil s : EmptyString +:+ s = s.
Proof. reflexivity. Qed.

Lemma append_cons a s rest : String a s +:+ rest = String a (s +:+ rest).
Proof. reflexivity. Qed.

Lemma run_len_le p s : Lex.run_len p s <= String.length s.
Proof. induction s as [|a s IH]; cbn; [lia|]. destruct (p a); lia. Qed.

Lemma run_len_line p pre c rest :
  p c = false -> Lex.run_len p (pre +:+ String c rest) = Lex.run_len p pre.
Proof.
  intros Hc. induction pre as [|a pre IH];
    rewrite ?append_nil, ?append_cons; cbn; [by rewrite Hc|].
  by rewrite IH.
Qed.

Lemma prefix_length lit : forall s, String.prefix lit s = true -> String.length lit <= String.length s.
Proof.
  induction lit as [|l lit IH]; intros [|a s]; cbn; try (lia || done).
  destruct (ascii_dec l a); [|done]. intros H%IH. lia.
Qed.

Lemma prefix_line c rest : forall pre lit,
  all_chars (fun x => negb (x =? c)%char) lit = true ->
  String.prefix lit (pre +:+ String c rest) = String.prefix lit pre.
Proof.
  induction pre as [|a pre IH]; intros [|l lit] Hlit;
    rewrite ?append_nil, ?append_cons; cbn; try done.
  - cbn in Hlit. apply andb_prop in Hlit as [Hl _].
    apply negb_true_iff, Ascii.eqb_neq in Hl. by destruct (ascii_dec l c).
  - cbn in Hlit. apply andb_prop in Hlit as [_ Hlit].
    destruct (ascii_dec l a); [|done]. by apply IH.
Qed.

Lemma lit_len_le lit s : Lex.lit_len lit s <= String.length s.
Proof.
  unfold Lex.lit_len. destruct (String.prefix lit s) eqn:H; [|lia].
  by apply prefix_length.
Qed.

Lemma one_len_le p s : Lex.one_len p s <= String.length s.
Proof. destruct s as [|a s]; cbn; [lia|]. destruct (p a); lia. Qed.

Lemma rule_len_le r s : rule_len r s <= String.length s.
Proof.
  destruct r; cbn [rule_len];
    auto using lit_len_le, one_len_le, run_len_le.
  pose proof (run_len_le Lex.is_word_char s).
  pose proof (one_len_le Lex.is_special_char s). lia.
Qed.

Lemma is_terminator_cases c : is_terminator c = true -> c = NL \/ c = ";"%char.
Proof.
  unfold is_terminator. intros [H|H]%orb_prop; apply Ascii.eqb_eq in H; auto.
Qed.

(** Before a terminator, what follows it has no part in any match. *)
Lemma rule_len_line r a pre c rest :
  is_terminator c = true ->
  rule_len r (String a pre +:+ String c rest) = rule_len r (String a pre).
Proof.
  intros [-> | ->]%is_terminator_cases;
    destruct r; cbn [rule_len]; unfold Lex.lit_len;
    rewrite ?prefix_line, ?run_len_line by done; done.
Qed.

Lemma scan_rule_line a pre c rest :
  is_terminator c = true ->
  Lex.scan_rule (String a pre +:+ String c rest) = Lex.scan_rule (String a pre).
Proof.
  intros Hc. rewrite !scan_rule_rule_len. f_equal.
  apply list_fmap_ext. intros _ r _. by rewrite rule_len_line.
Qed.

Lemma substring_line s rest : forall n,
  n <= String.length s ->
  String.substring 0 n (s +:+ rest) = String.substring 0 n s.
Proof.
  induction s as [|a s IH]; intros [|n] Hn;
    rewrite ?append_nil, ?append_cons; cbn in *; try (done || lia).
  - by destruct rest.
  - rewrite IH by lia. done.
Qed.

(** On a character that ends no line, the two terminator rules do not
    match. *)
Lemma scan_rule_not_terminator a s r n :
  is_terminator a = false ->
  Lex.scan_rule (String a s) = Some (r, n) ->
  r <> Lex.R_newline /\ r <> Lex.R_semi /\ n <= S (String.length s).
Proof.
  intros Ha Hscan. apply scan_rule_spec in Hscan as (Hn & Hpos & _).
  pose proof (rule_len_le r (String a s)) as Hle. cbn in Hle.
  apply orb_false_elim in Ha as [Hnl Hsemi].
  split_and!; [| |lia]; intros ->; cbn in Hn; rewrite ?Hnl, ?Hsemi in Hn; lia.
Qed.

(** [yylex] on a line: the tokens are those of the text before the
    terminator, whatever follows it. *)
Lemma yylex_line c rest : forall pre skip args,
  is_terminator c = true -> no_terminator pre = true ->
  skip <= String.length pre ->
  Lex.yylex (pre +:+ String c rest) skip args =
    ((Lex.yylex pre skip args).1.1, terminator_status c, rest).
Proof.
  intros pre skip args Hc. revert skip args.
  induction pre as [|a pre IH]; intros skip args Hclean Hskip.
  { cbn in Hskip. assert (skip = 0) as -> by lia. rewrite append_nil.
    apply is_terminator_cases in Hc as [-> | ->]; reflexivity. }
  cbn in Hclean. apply andb_prop in Hclean as [Ha Hclean].
  apply negb_true_iff in Ha.
  destruct skip as [|k].
  2:{ rewrite append_cons. cbn [Lex.yylex]. apply IH; [done|]. cbn in Hskip. lia. }
  rewrite append_cons. cbn [Lex.yylex]. rewrite <- append_cons.
  rewrite scan_rule_line by done.
  destruct (Lex.scan_rule (String a pre)) as [[r n]|] eqn:Hscan.
  2:{ apply IH; [done|lia]. }
  destruct (scan_rule_not_terminator _ _ _ _ Ha Hscan) as (Hnl & Hsemi & Hn).
  destruct r; try done; try (apply IH; [done|lia]).
  rewrite substring_line by (cbn; lia). apply IH; [done|lia].
Qed.

(** Without a terminator, [yylex] runs to the end of the input. *)
Lemma yylex_eof : forall s skip args,
  no_terminator s = true ->
  (Lex.yylex s skip args).1.2 = (-1)%Z /\ (Lex.yylex s skip args).2 = EmptyString.
Proof.
  induction s as [|a s IH]; intros skip args Hclean; [done|].
  cbn in Hclean. apply andb_prop in Hclean as [Ha Hclean].
  apply negb_true_iff in Ha. cbn [Lex.yylex].
  destruct skip as [|k]; [|by apply IH].
  destruct (Lex.scan_rule (String a s)) as [[r n]|] eqn:Hscan; [|by apply IH].
  destruct (scan_rule_not_terminator _ _ _ _ Ha Hscan) as (Hnl & Hsemi & _).
  destruct r; try done; by apply IH.
Qed.

End Lines.
(** ** The tokens *)

Section Tokens.

Implicit Types (s pre rest tok : string) (c a : ascii) (r : Lex.rule)
  (p : ascii -> bool) (args : list string).

Lemma substring_run p : forall s,
  all_chars p (String.substring 0 (Lex.run_len p s) s) = true.
Proof.
  induction s as [|a s IH]; [done|]. cbn. destruct (p a) eqn:Ha; [|done].
  cbn. by rewrite Ha, IH.
Qed.

Lemma substring_length : forall n s,
  n <= String.length s -> String.length (String.substring 0 n s) = n.
Proof.
  induction n as [|n IH]; intros [|a s] Hn; cbn in *; try (done || lia).
  rewrite IH; lia.
Qed.

Lemma prefix_substring : forall n s, String.prefix (String.substring 0 n s) s = true.
Proof.
  induction n as [|n IH]; intros [|a s]; cbn; try done.
  destruct (ascii_dec a a); [apply IH|done].
Qed.

Lemma special_not_word c : Lex.is_special_char c = true -> Lex.is_word_char c = false.
Proof.
  unfold Lex.is_special_char.
  intros [[H|H]%orb_prop|H]%orb_prop; apply Ascii.eqb_eq in H; by subst.
Qed.

Lemma special_cases c :
  Lex.is_special_char c = true -> c = ">"%char \/ c = "<"%char \/ c = "|"%char.
Proof.
  unfold Lex.is_special_char.
  intros [[H|H]%orb_prop|H]%orb_prop; apply Ascii.eqb_eq in H; auto.
Qed.

(** The text the rule [{WORD}|{SPECIAL}] hands to [_add_arg]. *)
Lemma word_special_token s n :
  Lex.scan_rule s = Some (Lex.R_word_special, n) ->
  is_token (String.substring 0 n s).
Proof.
  intros (Hn & Hpos & Hlen)%scan_rule_spec.
  destruct (Hlen Lex.R_exit) as [_ Hexit]. destruct (Hlen Lex.R_cd) as [_ Hcd].
  specialize (Hexit ltac:(cbn; lia)). specialize (Hcd ltac:(cbn; lia)).
  cbn [rule_len] in Hn, Hexit, Hcd.
  destruct s as [|a s]; [cbn in Hn; lia|].
  destruct (Lex.is_word_char a) eqn:Hword.
  - assert (Lex.is_special_char a = false) as Hsp.
    { destruct (Lex.is_special_char a) eqn:Hsp; [|done].
      apply special_not_word in Hsp. congruence. }
    assert (n = Lex.run_len Lex.is_word_char (String a s)) as Hrun.
    { rewrite Hn. cbn. rewrite Hword, Hsp. lia. }
    pose proof (run_len_le Lex.is_word_char (String a s)) as Hle. rewrite <- Hrun in Hle.
    assert (forall lit, String.substring 0 n (String a s) = lit ->
              n = String.length lit /\ Lex.lit_len lit (String a s) = String.length lit)
      as Hlit.
    { intros lit <-. split; [by rewrite substring_length|].
      unfold Lex.lit_len. by rewrite prefix_substring. }
    do 5 right. split_and!.
    + rewrite Hrun. apply substring_run.
    + intros [? _]%Hlit. cbn in *. lia.
    + intros [? Hl]%Hlit. rewrite Hl in Hexit. lia.
    + intros [? Hl]%Hlit. rewrite Hl in Hcd. lia.
  - assert (Lex.is_special_char a = true /\ n = 1) as [Hsp ->].
    { cbn in Hn. rewrite Hword in Hn.
      destruct (Lex.is_special_char a); [done|]. cbn in Hn. lia. }
    cbn. assert (String.substring 0 0 s = EmptyString) as -> by (by destruct s).
    apply special_cases in Hsp as [-> | [-> | ->]]; unfold is_token; auto 6.
Qed.

Lemma yylex_tokens : forall s skip args,
  Forall is_token args -> Forall is_token (Lex.yylex s skip args).1.1.
Proof.
  assert (forall tok args, is_token tok -> Forall is_token args ->
            Forall is_token (Lex._add_arg tok args)) as Hadd.
  { intros tok args Htok Hargs. unfold Lex._add_arg. case_bool_decide; [|done].
    apply Forall_app. split; [done|]. by constructor. }
  induction s as [|a s IH]; intros skip args Hargs; [done|].
  cbn [Lex.yylex]. destruct skip as [|k]; [|by apply IH].
  destruct (Lex.scan_rule (String a s)) as [[r n]|] eqn:Hscan; [|by apply IH].
  destruct r; try done; apply IH; try done; apply Hadd; try done.
  - unfold is_token. auto.
  - unfold is_token. auto.
  - by apply word_special_token.
Qed.

Lemma is_token_ok tok : is_token tok -> token_ok tok.
Proof.
  intros Htok. split; [done|].
  destruct Htok as [-> | [-> | [-> | [-> | [-> | (Hword & Hne & _ & _)]]]]];
    try (split_and!; split; intros H;
         first [ done | by vm_compute in H | by inversion H
               | by (destruct H as [H|H]; inversion H)
               | by left | by right ]).
  destruct tok as [|a tok]; [done|]. cbn in Hword.
  apply andb_prop in Hword as [Ha _].
  unfold is_pipe, is_redirect. cbn [chr String.get].
  split_and!; split.
  - intros [_ ->%Ascii.eqb_eq]%andb_prop. done.
  - intros [= -> ->]. done.
  - intros [_ [->%Ascii.eqb_eq | ->%Ascii.eqb_eq]%orb_prop]%andb_prop; done.
  - intros [[= -> ->] | [= -> ->]]; done.
  - intros ->. done.
  - intros [[= -> ->] | [= -> ->]]; done.
Qed.

(** X1: every token [getline] returns is a keyword token, one of the three
    special characters, or a non-empty word of word characters other than
    the two keywords; on such tokens the character tests of [parse],
    [new_cmd] and [spawn] recognise exactly the pipe, the redirect symbols
    and the keyword tokens. *)
Theorem getline_tokens_well_formed (input : string) :
  Forall token_ok (tokens input).
Proof.
  eapply Forall_impl; [|apply is_token_ok].
  apply (yylex_tokens input 0 []). constructor.
Qed.

(** X2: [getline] returns at the first newline or semicolon of its input,
    with the tokens of the text before it, the status 1 for the newline and
    0 for the semicolon, and leaves what follows for the next call; on an
    input without either it reads to the end and returns the status -1. *)
Theorem getline_ends_at_first_terminator (pre : string) (c : ascii) (rest : string) :
  no_terminator pre = true ->
  is_terminator c = true ->
  Lex.getline (pre +:+ String c rest) = (tokens pre, terminator_status c, rest) /\
  Lex.getline pre = (tokens pre, (-1)%Z, EmptyString).
Proof.
  intros Hpre Hc. split.
  - unfold Lex.getline. rewrite yylex_line by (done || lia). done.
  - destruct (yylex_eof pre 0 [] Hpre) as [H1 H2]. unfold tokens, Lex.getline in *.
    destruct (Lex.yylex pre 0 []) as [[toks status] rest']. cbn in *. by subst.
Qed.

Lemma getline_ends_at_first_terminator_witness :
  Lex.getline ("ls -l" +:+ String ";" "pwd") =
    (["ls"%string; "-l"%string], 0%Z, "pwd"%string).
Proof.
  apply (getline_ends_at_first_terminator "ls -l" ";" "pwd"); reflexivity.
Defined.

End Tokens.

(** ** Lines without tokens *)

Section BlankLines.

Implicit Types (s pre rest : string) (c a : ascii) (args : list string).

Lemma all_chars_impl (p q : ascii -> bool) s :
  (forall c, p c = true -> q c = true) -> all_chars p s = true -> all_chars q s = true.
Proof.
  intros Hpq. induction s as [|a s IH]; [done|]. cbn.
  intros [Ha Hs]%andb_prop. by rewrite (Hpq _ Ha), IH.
Qed.

Lemma prefix_cons_ne (l a : ascii) (lit s : string) :
  l <> a -> String.prefix (String l lit) (String a s) = false.
Proof. intros Hne. simpl. by destruct (ascii_dec l a). Qed.

Lemma junk_rule_len a s r :
  is_junk_char a = true ->
  r <> Lex.R_blank -> r <> Lex.R_any -> rule_len r (String a s) = 0.
Proof.
  unfold is_junk_char. intros Hj%negb_true_iff.
  apply orb_false_elim in Hj as [Hj Hterm].
  apply orb_false_elim in Hj as [Hword Hsp].
  apply orb_false_elim in Hterm as [Hnl Hsemi].
  assert (a <> "|"%char) as Hbar by (by intros ->).
  assert (a <> "e"%char) as He by (by intros ->).
  assert (a <> "c"%char) as Hc by (by intros ->).
  destruct r; intros ? ?; try done; cbn [rule_len]; unfold Lex.lit_len;
    rewrite ?prefix_cons_ne by done; try done; cbn.
  - by rewrite Hword, Hsp.
  - by rewrite Hnl.
  - by rewrite Hsemi.
Qed.

(** Characters that only the rules [[ \t]+] and [.] match add no token. *)
Lemma yylex_junk : forall s skip args,
  all_chars is_junk_char s = true -> (Lex.yylex s skip args).1.1 = args.
Proof.
  induction s as [|a s IH]; intros skip args Hs; [done|].
  cbn in Hs. apply andb_prop in Hs as [Ha Hs]. cbn [Lex.yylex].
  destruct skip as [|k]; [|by apply IH].
  destruct (Lex.scan_rule (String a s)) as [[r n]|] eqn:Hscan; [|by apply IH].
  apply scan_rule_spec in Hscan as (Hn & Hpos & _).
  destruct r; try (by apply IH);
    rewrite (junk_rule_len a s) in Hn by done; lia.
Qed.

(** X3: a line made only of blanks and of characters that are neither word
    characters nor special characters has no token; [main] runs nothing for
    it and prints no diagnostic, the array [cmds] and the operating system
    are as before, but for the prompt. *)
Theorem blank_line_runs_nothing (st : shell) (pre : string) (c : ascii) (rest : string) :
  sh_input st = pre +:+ String c rest ->
  all_chars is_junk_char pre = true ->
  is_terminator c = true ->
  tokens (sh_input st) = [] /\
  main_body st =
    Ret (mkShell rest (sh_running st) (terminator_status c) (sh_cmds st)
                 (print_prompt st)).
Proof.
  intros Hin Hjunk Hc.
  assert (no_terminator pre = true) as Hclean.
  { eapply all_chars_impl; [|done]. intros x. unfold is_junk_char.
    destruct (is_terminator x); [|done]. by rewrite !orb_true_r. }
  assert (Lex.getline (sh_input st) = ([], terminator_status c, rest)) as Hget.
  { rewrite Hin. unfold Lex.getline. rewrite yylex_line by (done || lia).
    by rewrite yylex_junk. }
  split; [unfold tokens; by rewrite Hget|].
  unfold main_body. rewrite Hget. cbn.
  unfold terminator_status. by destruct (c =? NL)%char.
Qed.

Lemma blank_line_runs_nothing_witness :
  main_body (main_init ("  $ #" +:+ String NL "ls") os_plain) =
    Ret (mkShell "ls" true 1 (replicate MAX_CMDS None)
                 (print_prompt (main_init ("  $ #" +:+ String NL "ls") os_plain))).
Proof.
  apply (blank_line_runs_nothing
           (main_init ("  $ #" +:+ String NL "ls") os_plain) "  $ #" NL "ls");
    reflexivity.
Defined.

End BlankLines.

(** ** The Command that [new_cmd] builds *)

Section CommandShape.

Implicit Types (seg rest : list string) (tok : string) (cmd : Cmd) (dir latest : ascii).

Lemma new_cmd_built_no_offending seg rest cmd :
  new_cmd (seg ++ rest) (length seg) = inr cmd -> forall j, ~ offending seg j.
Proof.
  rewrite new_cmd_app. intros Hcmd j [err Herr]%new_cmd_offending_fails. congruence.
Qed.

(** X4: [new_cmd] builds a Command from a segment exactly when no redirect
    symbol of the segment is its first token, its last token or right after
    another redirect symbol. *)
Theorem new_cmd_succeeds_iff (seg rest : list string) :
  (exists cmd, new_cmd (seg ++ rest) (length seg) = inr cmd) <->
  (forall j, ~ offending seg j).
Proof.
  rewrite new_cmd_app. split.
  - intros [cmd Hcmd] j [err Herr]%new_cmd_offending_fails. congruence.
  - intros Hnone. pose proof (new_cmd_scan_init_offending seg) as H.
    unfold new_cmd. destruct (new_cmd_scan _ _ _ _ _) as [j|st']; [|by eexists].
    destruct H as (_ & Hoff & _). by destruct (Hnone j).
Qed.

Lemma files_after_no_redirect dir : forall seg latest,
  Forall (fun tok => is_redirect tok = false) (files_after dir latest seg).
Proof.
  induction seg as [|tok seg IH]; intros latest; cbn; [constructor|].
  destruct (is_redirect tok) eqn:Hr; [apply IH|].
  destruct (latest =? dir)%char; [|apply IH]. constructor; [done|apply IH].
Qed.

Lemma files_after_count : forall seg latest,
  latest = "<"%char \/ latest = ">"%char ->
  length (files_after "<" latest seg) + length (files_after ">" latest seg) +
    length (filter (fun tok => is_redirect tok = true) seg) = length seg.
Proof.
  induction seg as [|tok seg IH]; intros latest Hl; [done|].
  cbn [files_after]. rewrite filter_cons.
  destruct (is_redirect tok) eqn:Hr.
  - rewrite decide_True by done. cbn [length].
    specialize (IH (chr tok 0) (is_redirect_chr _ Hr)). lia.
  - rewrite decide_False by done. specialize (IH latest Hl).
    destruct Hl as [-> | ->]; cbn; lia.
Qed.

Lemma spec_count : forall seg,
  length (spec_args seg) + length (spec_files_in seg) + length (spec_files_out seg) +
    length (filter (fun tok => is_redirect tok = true) seg) = length seg.
Proof.
  unfold spec_files_in, spec_files_out.
  induction seg as [|tok seg IH]; [done|].
  cbn [spec_args files_after]. rewrite filter_cons.
  destruct (is_redirect tok) eqn:Hr.
  - rewrite decide_True by done. cbn [length].
    pose proof (files_after_count seg (chr tok 0) (is_redirect_chr _ Hr)). lia.
  - rewrite decide_False by done. cbn. lia.
Qed.

Lemma files_after_nul_nil dir seg :
  filter (fun tok => is_redirect tok = true) seg = [] ->
  dir <> NUL -> files_after dir NUL seg = [].
Proof.
  intros Hnone Hdir.
  assert ((NUL =? dir)%char = false) as Hnul.
  { apply Ascii.eqb_neq. congruence. }
  induction seg as [|tok seg IH]; [done|].
  rewrite filter_cons in Hnone. cbn [files_after].
  destruct (is_redirect tok) eqn:Hr.
  - by rewrite decide_True in Hnone.
  - rewrite decide_False in Hnone by done. rewrite Hnul. by apply IH.
Qed.

(** X5: in the Command built from a non-empty segment the program name is
    there and is no redirect symbol, no redirect symbol is left in the
    argument list or in a filename list, every token of the segment is an
    argument, a filename or a redirect symbol, and the two filename lists
    together have at most [argn - 2] entries, the size [new_cmd] declares
    its index arrays with. *)
Theorem new_cmd_command_shape (seg rest : list string) (cmd : Cmd) :
  seg <> [] ->
  new_cmd (seg ++ rest) (length seg) = inr cmd ->
  1 <= cmd_argn cmd /\
  nth 0 (cmd_args cmd) EmptyString = nth 0 seg EmptyString /\
  Forall (fun tok => is_redirect tok = false)
         (cmd_args cmd ++ cmd_files_in cmd ++ cmd_files_out cmd) /\
  cmd_argn cmd + length (cmd_files_in cmd) + length (cmd_files_out cmd) +
    length (filter (fun tok => is_redirect tok = true) seg) = length seg /\
  ((cmd_files_in cmd = [] /\ cmd_files_out cmd = []) \/
   length (cmd_files_in cmd) + length (cmd_files_out cmd) + 2 <= length seg).
Proof.
  intros Hne Hnew.
  assert (~ offending seg 0) as Hfirst.
  { by apply (new_cmd_built_no_offending seg rest cmd). }
  apply new_cmd_ok in Hnew as ->. cbn [spec_cmd cmd_argn cmd_args cmd_files_in cmd_files_out].
  destruct seg as [|tok seg]; [done|].
  assert (is_redirect tok = false) as Hr.
  { destruct (is_redirect tok) eqn:Hr; [|done]. destruct Hfirst. split; [done|by left]. }
  pose proof (spec_count (tok :: seg)) as Hcount.
  assert (1 <= length (spec_args (tok :: seg))) as Hargn.
  { cbn. rewrite Hr. cbn. lia. }
  split_and!.
  - done.
  - cbn. by rewrite Hr.
  - rewrite !Forall_app. split_and!; [|apply files_after_no_redirect..].
    by destruct (spec_args_prefix (tok :: seg)) as (? & _ & ? & _).
  - done.
  - destruct (filter (fun tok => is_redirect tok = true) (tok :: seg)) eqn:Hsym.
    + left. unfold spec_files_in, spec_files_out.
      by rewrite !files_after_nul_nil.
    + right. cbn [length] in *. lia.
Qed.

Lemma new_cmd_command_shape_witness :
  let seg := ["grep"; "x"; "<"; "in"; ">"; "out"]%string in
  exists cmd, new_cmd (seg ++ []) (length seg) = inr cmd /\
    1 <= cmd_argn cmd /\
    length (cmd_files_in cmd) + length (cmd_files_out cmd) + 2 <= length seg.
Proof.
  intros seg. eexists. split; [vm_compute; reflexivity|].
  match goal with |- context [cmd_argn ?c] => set (cmd := c) end.
  destruct (new_cmd_command_shape seg [] cmd) as (H1 & _ & _ & _ & H5).
  - discriminate.
  - vm_compute. reflexivity.
  - split; [exact H1|]. vm_compute. lia.
Defined.

End CommandShape.

(** ** The array that [parse] fills *)

Section ParseArray.

Implicit Types (args seg : list string) (segs pre post : list (list string))
  (cmds : list (option Cmd)) (p : parse_out).

Lemma store_ret {A : Type} (a a' : list A) i (v : A) :
  store a i v = Ret a' -> i < length a /\ a' = <[i := v]> a.
Proof. unfold store. case_bool_decide; [|done]. by intros [= <-]. Qed.

(** What [build] leaves in the array: the Commands of the valid segments
    it went through, then NULL when [new_cmd] refused the next one; the
    slots above are not written. *)
Lemma build_contents : forall segs cmds cmdn p,
  build segs cmds cmdn = Ret p ->
  exists pre post,
    segs = pre ++ post /\ Forall valid pre /\
    p_cmdn p = cmdn + length pre /\
    take (p_cmdn p) (p_cmds p) = take cmdn cmds ++ (Some ∘ spec_cmd <$> pre) /\
    drop (S (p_cmdn p)) (p_cmds p) = drop (S (p_cmdn p)) cmds /\
    (p_ret p = true -> post = [] /\ drop (p_cmdn p) (p_cmds p) = drop (p_cmdn p) cmds) /\
    (p_ret p = false -> exists seg post', post = seg :: post' /\ ~ valid seg).
Proof.
  induction segs as [|seg segs IH]; intros cmds cmdn p Hb.
  { cbn in Hb. injection Hb as <-. exists [], []. cbn.
    rewrite Nat.add_0_r, app_nil_r. split_and!; done. }
  cbn [build] in Hb. case_bool_decide as Hnil.
  { injection Hb as <-. exists [], (seg :: segs). cbn.
    rewrite Nat.add_0_r, app_nil_r. split_and!; try done.
    intros _. exists seg, segs. split; [done|]. by intros [? _]. }
  destruct (new_cmd seg (length seg)) as [err|cmd] eqn:Hnew.
  - destruct (store cmds cmdn None) as [cmds'| |] eqn:Hst; cbn [bind] in Hb; try done.
    apply store_ret in Hst as [Hlt ->].
    injection Hb as <-. exists [], (seg :: segs). cbn.
    rewrite Nat.add_0_r, app_nil_r. split_and!; try done.
    + by rewrite take_insert_ge by lia.
    + by rewrite drop_insert_lt by lia.
    + intros _. exists seg, segs. split; [done|]. intros [_ [cmd Hcmd]]. congruence.
  - destruct (store cmds cmdn (Some cmd)) as [cmds'| |] eqn:Hst; cbn [bind] in Hb; try done.
    apply store_ret in Hst as [Hlt ->].
    assert (cmd = spec_cmd seg) as ->.
    { apply (new_cmd_ok seg []). by rewrite app_nil_r. }
    apply IH in Hb as (pre & post & -> & Hpre & Hn & Htake & Hdrop & Hok & Hfail).
    exists (seg :: pre), post. split_and!.
    + done.
    + constructor; [|done]. split; [done|]. by eexists.
    + cbn. lia.
    + rewrite Htake, (take_S_r _ _ (Some (spec_cmd seg)))
        by (by apply list_lookup_insert_eq).
      rewrite take_insert_ge by lia. by rewrite <- app_assoc.
    + rewrite Hdrop. by rewrite drop_insert_lt by lia.
    + intros Hret. destruct (Hok Hret) as [-> Hd]. split; [done|].
      rewrite Hd. by rewrite drop_insert_lt by lia.
    + done.
Qed.

(** X6: on a line that leaves room in the array, [parse] succeeds exactly
    when the line has a token and every segment between its pipe tokens is
    valid; it then names no token, counts one Command for each segment, at
    least one, and the array holds the Commands of the segments in order,
    followed by what was there before. *)
Theorem parse_succeeds_iff (args : list string) (cmds : list (option Cmd)) :
  length args + 1 <= 2 * length cmds ->
  exists p, parse args cmds = Ret p /\
    (p_ret p = true <-> args <> [] /\ Forall valid (split_pipes args)) /\
    (p_ret p = true ->
       p_err p = None /\ p_cmdn p = length (split_pipes args) /\ 1 <= p_cmdn p /\
       p_cmds p = (Some ∘ spec_cmd <$> split_pipes args) ++ drop (p_cmdn p) cmds).
Proof.
  intros Hroom. destruct args as [|arg args].
  { eexists. split; [done|]. cbn. split; [split; [done|by intros [? _]]|done]. }
  destruct (build_in_bounds (split_pipes (arg :: args)) cmds 0) as (p & Hp & _).
  { rewrite weight_split_pipes. cbn in *. lia. }
  assert (parse (arg :: args) cmds = Ret p) as Hparse by (by rewrite parse_build).
  exists p. split; [done|].
  apply build_contents in Hp
    as (pre & post & Hsegs & Hpre & Hn & Htake & _ & Hok & Hfail).
  cbn in Hn, Htake. rewrite take_0 in Htake. cbn in Htake.
  split; [split|].
  - intros Hret. destruct (Hok Hret) as [-> _]. rewrite app_nil_r in Hsegs.
    split; [done|]. by rewrite Hsegs.
  - intros [_ Hall]. destruct (p_ret p) eqn:Hret; [done|].
    destruct (Hfail eq_refl) as (seg & post' & -> & Hbad).
    rewrite Hsegs in Hall. apply Forall_app in Hall as [_ Hall].
    apply Forall_cons in Hall as [? _]. done.
  - intros Hret. destruct (Hok Hret) as [-> Hdrop]. rewrite app_nil_r in Hsegs.
    subst pre. split_and!.
    + by eapply parse_ok_no_err.
    + done.
    + rewrite Hn. pose proof (split_pipes_not_nil (arg :: args)).
      destruct (split_pipes (arg :: args)); [done|cbn; lia].
    + by rewrite <- Htake, <- Hdrop, take_drop.
Qed.

Lemma parse_succeeds_iff_witness :
  exists p, parse ["ls"; "|"; "wc"; ">"; "n"]%string (replicate MAX_CMDS None) = Ret p /\
            p_ret p = true /\ p_cmdn p = 2.
Proof.
  destruct (parse_succeeds_iff ["ls"; "|"; "wc"; ">"; "n"]%string
              (replicate MAX_CMDS None)) as (p & Hp & _ & _).
  - vm_compute. lia.
  - exists p. split; [exact Hp|]. vm_compute in Hp. injection Hp as <-.
    split; reflexivity.
Defined.

(** X7: whatever [parse] returns, the slots of the array below [*cmdn]
    hold the Commands of the first segments of the line, all of them valid,
    and the slots above [*cmdn] are as they were: the Commands that [exec],
    [exec_pipe] and the freeing loop of [main] reach are those that this
    call built, and none of them is NULL. *)
Theorem parse_counts_built_commands (args : list string) (cmds : list (option Cmd)) :
  length args + 1 <= 2 * length cmds ->
  exists p, parse args cmds = Ret p /\
    length (p_cmds p) = length cmds /\
    (forall i, i < p_cmdn p ->
       exists seg, split_pipes args !! i = Some seg /\ valid seg /\
                   load (p_cmds p) i = Ret (spec_cmd seg)) /\
    drop (S (p_cmdn p)) (p_cmds p) = drop (S (p_cmdn p)) cmds.
Proof.
  intros Hroom. destruct args as [|arg args].
  { eexists. split; [done|]. cbn. split_and!; [done| |done]. intros i Hi. lia. }
  destruct (build_in_bounds (split_pipes (arg :: args)) cmds 0)
    as (p & Hp & _ & Hlen & _).
  { rewrite weight_split_pipes. cbn in *. lia. }
  exists p. split; [by rewrite parse_build|]. split; [done|].
  apply build_contents in Hp as (pre & post & Hsegs & Hpre & Hn & Htake & Hdrop & _).
  cbn in Hn, Htake. rewrite take_0 in Htake. cbn in Htake.
  split; [|done]. intros i Hi. rewrite Hn in Hi.
  destruct (lookup_lt_is_Some_2 pre i Hi) as [seg Hseg].
  exists seg. split_and!.
  - rewrite Hsegs. by apply lookup_app_l_Some.
  - rewrite Forall_forall in Hpre. apply Hpre. by eapply list_elem_of_lookup_2.
  - unfold load. rewrite <- (lookup_take_lt _ (p_cmdn p)) by lia.
    rewrite Htake, list_lookup_fmap, Hseg. done.
Qed.

Lemma parse_counts_built_commands_witness :
  exists p, parse ["ls"; "|"; ">"]%string (replicate MAX_CMDS None) = Ret p /\
            p_ret p = false /\ p_cmdn p = 1 /\
            load (p_cmds p) 0 = Ret (spec_cmd ["ls"%string]).
Proof.
  destruct (parse_counts_built_commands ["ls"; "|"; ">"]%string
              (replicate MAX_CMDS None)) as (p & Hp & _ & Hslots & _).
  - vm_compute. lia.
  - exists p. split; [exact Hp|]. vm_compute in Hp. injection Hp as <-.
    split; [reflexivity|]. split; reflexivity.
Defined.

End ParseArray.


(** ** The child process *)

Section Child.

Lemma open_files_ok (env : child_env) (mode : open_mode) (files : list string)
    (n : nat) (fd : Z) :
  (forall j file, files !! j = Some file -> ce_open env (n + j) mode file <> (-1)%Z) ->
  open_files env mode files n fd =
    (open_events env n (pair mode <$> files), Some (last_fd env mode files n fd)).
Proof.
  revert n fd. induction files as [|file files IH]; intros n fd Hok; [done|].
  cbn [open_files].
  pose proof (Hok 0 file eq_refl) as H0. rewrite Nat.add_0_r in H0.
  destruct (Z.eqb_spec (ce_open env n mode file) (-1)) as [|_]; [done|].
  rewrite (IH (S n) (ce_open env n mode file)).
  2:{ intros j f Hj. replace (S n + j) with (n + S j) by lia. by apply Hok. }
  cbn [fst snd]. unfold open_events, last_fd. cbn [fmap list_fmap imap].
  rewrite Nat.add_0_r. cbn [fst snd]. f_equal.
  - f_equal. apply imap_ext. intros j [m f] _. cbn.
    by rewrite Nat.add_succ_r.
  - f_equal.
    rewrite (imap_ext ((fun j file0 => ce_open env (n + j) mode file0) ∘ S)
               (fun j file0 => ce_open env (S n + j) mode file0) files).
    2:{ intros j f _. cbn. by rewrite Nat.add_succ_r. }
    destruct (imap _ files) as [|x l] eqn:Hl; [done|].
    rewrite last_cons_cons. destruct (last (x :: l)) eqn:Hlast; [done|].
    by apply last_None in Hlast.
Qed.

Lemma open_files_fail (env : child_env) (mode : open_mode) (files : list string)
    (n : nat) (fd : Z) (k : nat) (file : string) :
  files !! k = Some file ->
  ce_open env (n + k) mode file = (-1)%Z ->
  (forall j f, j < k -> files !! j = Some f -> ce_open env (n + j) mode f <> (-1)%Z) ->
  open_files env mode files n fd =
    (open_events env n (pair mode <$> take k files) ++
     [CvOpen file mode (-1);
      CvStderr ("minshell: " +:+ file +:+ ": " +:+ ce_strerror env (n + k) +:+ newline);
      CvExit 1],
     None).
Proof.
  revert n fd k. induction files as [|f0 files IH]; intros n fd k Hk Hfail Hok; [done|].
  cbn [open_files]. destruct k as [|k].
  - injection Hk as ->. rewrite Nat.add_0_r in *. rewrite Hfail. done.
  - pose proof (Hok 0 f0 ltac:(lia) eq_refl) as H0. rewrite Nat.add_0_r in H0.
    destruct (Z.eqb_spec (ce_open env n mode f0) (-1)) as [|_]; [done|].
    cbn in Hk.
    rewrite (IH (S n) (ce_open env n mode f0) k Hk).
    + cbn [fst snd]. replace (S n + k) with (n + S k) by lia. f_equal.
      unfold open_events. cbn [take fmap list_fmap imap app]. rewrite Nat.add_0_r.
      cbn [fst snd]. f_equal. f_equal. apply imap_ext. intros j [m f] _. cbn.
      by rewrite Nat.add_succ_r.
    + by replace (S n + k) with (n + S k) by lia.
    + intros j f Hj Hf. replace (S n + j) with (n + S j) by lia.
      apply Hok; [lia|done].
Qed.

Lemma open_events_app (env : child_env) (n : nat) (l1 l2 : list (open_mode * string)) :
  open_events env n (l1 ++ l2) =
  open_events env n l1 ++ open_events env (n + length l1) l2.
Proof.
  unfold open_events. rewrite imap_app. f_equal. apply imap_ext.
  intros j mf _. cbn. by replace (n + (length l1 + j)) with (n + length l1 + j) by lia.
Qed.

Lemma open_events_goes_on (env : child_env) (n : nat) (l : list (open_mode * string)) :
  Forall goes_on (open_events env n l).
Proof.
  unfold open_events. apply Forall_lookup. intros j ev Hj.
  apply list_lookup_imap_Some in Hj as (mf & _ & ->). done.
Qed.

Lemma open_files_cases (env : child_env) (mode : open_mode) (files : list string)
    (n : nat) (fd : Z) :
  let r := open_files env mode files n fd in
  (exists fd', r.2 = Some fd' /\ Forall goes_on r.1) \/
  (r.2 = None /\ exists evs text,
     r.1 = evs ++ [CvStderr text; CvExit 1] /\ Forall goes_on evs).
Proof.
  revert n fd. induction files as [|file files IH]; intros n fd; cbn.
  - left. by exists fd.
  - destruct (ce_open env n mode file =? -1)%Z.
    + right. split; [done|].
      exists [CvOpen file mode (ce_open env n mode file)]. eexists. split; [done|].
      by repeat constructor.
    + destruct (IH (S n) (ce_open env n mode file)) as [(fd' & H1 & H2)|(H1 & evs & text & H2 & H3)].
      * left. exists fd'. cbn. split; [done|]. by constructor.
      * right. cbn. split; [done|].
        exists (CvOpen file mode (ce_open env n mode file) :: evs), text.
        rewrite H2. split; [done|]. by constructor.
Qed.

Lemma dup_onto_cases (env : child_env) (fd target : Z) :
  let r := dup_onto env fd target in
  (r.2 = true /\ Forall goes_on r.1) \/
  (r.2 = false /\ exists evs text,
     r.1 = evs ++ [CvPerror text; CvExit 1] /\ Forall goes_on evs).
Proof.
  unfold dup_onto. destruct (fd =? target)%Z; cbn; [by left|].
  destruct (ce_dup2 env fd target =? -1)%Z; cbn.
  - right. split; [done|]. exists [CvDup2 fd target (ce_dup2 env fd target)]. eexists.
    split; [done|]. by repeat constructor.
  - left. split; [done|]. by repeat constructor.
Qed.

(** X8: when a file of a redirect cannot be opened, the child stops there.
    The files are opened in the order of [redirect_files]: all input files,
    then all output files.  If the file number [k] of this order is the first
    whose [open] returns -1, the child has opened exactly the files before
    it, writes the diagnostic naming that file and calls [exit(1)]; it calls
    neither [dup2] nor [execvp], and opens (creates, truncates) no later
    file. *)
Theorem child_open_failure (p : proc) (env : child_env) (k : nat)
    (mode : open_mode) (file : string) :
  redirect_files (pr_cmd p) !! k = Some (mode, file) ->
  ce_open env k mode file = (-1)%Z ->
  (forall j m f, j < k -> redirect_files (pr_cmd p) !! j = Some (m, f) ->
     ce_open env j m f <> (-1)%Z) ->
  spawn_child p env =
    open_events env 0 (take k (redirect_files (pr_cmd p))) ++
    [CvOpen file mode (-1);
     CvStderr ("minshell: " +:+ file +:+ ": " +:+ ce_strerror env k +:+ newline);
     CvExit 1].
Proof.
  intros Hk Hfail Hok. unfold spawn_child, redirect_files in *.
  set (fin := cmd_files_in (pr_cmd p)) in *.
  set (fout := cmd_files_out (pr_cmd p)) in *.
  destruct (decide (k < length fin)) as [Hlt|Hge].
  - rewrite lookup_app_l in Hk by by rewrite length_fmap.
    apply list_lookup_fmap_Some in Hk as (f & Heq & Hf).
    injection Heq as Hm Hfile. subst mode f.
    rewrite (open_files_fail env O_RDONLY fin 0 _ k file); [|done|done|].
    + rewrite take_app_le by (rewrite length_fmap; lia). by rewrite fmap_take.
    + intros j f' Hj Hf'. cbn. apply Hok; [done|].
      rewrite lookup_app_l by (rewrite length_fmap; lia).
      by rewrite list_lookup_fmap, Hf'.
  - rewrite lookup_app_r in Hk by (rewrite length_fmap; lia).
    rewrite length_fmap in Hk.
    apply list_lookup_fmap_Some in Hk as (f & Heq & Hf).
    injection Heq as Hm Hfile. subst mode f.
    rewrite open_files_ok.
    2:{ intros j f' Hf'. cbn. apply Hok.
        - apply lookup_lt_Some in Hf'. lia.
        - rewrite lookup_app_l by (rewrite length_fmap; by eapply lookup_lt_Some).
          by rewrite list_lookup_fmap, Hf'. }
    rewrite (open_files_fail env O_WRONLY_CREAT_TRUNC fout _ _ (k - length fin) file);
      [|done| |].
    + replace (length fin + (k - length fin)) with k by lia.
      rewrite take_app_ge by (rewrite length_fmap; lia).
      rewrite length_fmap, open_events_app, length_fmap, <- fmap_take, <- app_assoc.
      done.
    + by replace (length fin + (k - length fin)) with k by lia.
    + intros j f' Hj Hf'. apply Hok; [lia|].
      rewrite lookup_app_r by (rewrite length_fmap; lia).
      rewrite length_fmap. replace (length fin + j - length fin) with j by lia.
      by rewrite list_lookup_fmap, Hf'.
Qed.

Lemma child_open_failure_witness :
  spawn_child (mkProc (mkCmd ["cat"%string] 1 ["a"%string; "b"%string] ["c"%string]) 0 1)
    (mkChildEnv (fun n _ _ => if bool_decide (n = 1) then (-1)%Z else Z.of_nat (3 + n))
                (fun _ => "No such file or directory"%string)
                (fun _ target => target) (fun _ _ => true)) =
  [CvOpen "a" O_RDONLY 3; CvOpen "b" O_RDONLY (-1);
   CvStderr ("minshell: b: No such file or directory" +:+ newline); CvExit 1].
Proof.
  etrans; [apply (child_open_failure
    (mkProc (mkCmd ["cat"%string] 1 ["a"%string; "b"%string] ["c"%string]) 0 1)
    (mkChildEnv (fun n _ _ => if bool_decide (n = 1) then (-1)%Z else Z.of_nat (3 + n))
                (fun _ => "No such file or directory"%string)
                (fun _ target => target) (fun _ _ => true))
    1 O_RDONLY "b"%string)|reflexivity].
  - reflexivity.
  - reflexivity.
  - intros j m f Hj _. destruct j as [|j]; [by vm_compute|lia].
Defined.

(** X9: of the files of a redirect only the last one is used.  When every
    [open] and [dup2] succeeds, the child opens every input and every output
    file in order, puts on its standard input the descriptor of the last
    input file (the [file_in] it was spawned with when there is none), on its
    standard output that of the last output file (or [file_out]), closes
    these two descriptors and no other, and then calls [execvp] with the
    first argument and the whole argument list; if [execvp] returns, it
    reports the command name and calls [exit(1)]. *)
Theorem child_uses_last_redirect (p : proc) (env : child_env) :
  let cmd := pr_cmd p in
  let arg0 := nth 0 (cmd_args cmd) EmptyString in
  let file_in := last_fd env O_RDONLY (cmd_files_in cmd) 0 (pr_file_in p) in
  let file_out := last_fd env O_WRONLY_CREAT_TRUNC (cmd_files_out cmd)
                    (length (cmd_files_in cmd)) (pr_file_out p) in
  let redirect fd target :=
    if (fd =? target)%Z then []
    else [CvDup2 fd target (ce_dup2 env fd target); CvClose fd] in
  (forall j m f, redirect_files cmd !! j = Some (m, f) -> ce_open env j m f <> (-1)%Z) ->
  ce_dup2 env file_in STDIN_FILENO <> (-1)%Z ->
  ce_dup2 env file_out STDOUT_FILENO <> (-1)%Z ->
  spawn_child p env =
    open_events env 0 (redirect_files cmd) ++
    redirect file_in STDIN_FILENO ++ redirect file_out STDOUT_FILENO ++
    (if ce_execvp env arg0 (cmd_args cmd)
     then [CvExecvp arg0 (cmd_args cmd) true]
     else [CvExecvp arg0 (cmd_args cmd) false; CvPerror arg0; CvExit 1]).
Proof.
  intros cmd arg0 file_in file_out redirect Hok Hin Hout.
  unfold spawn_child. fold cmd. unfold redirect_files in *.
  rewrite open_files_ok.
  2:{ intros j f Hf. cbn. apply Hok.
      rewrite lookup_app_l by (rewrite length_fmap; by eapply lookup_lt_Some).
      by rewrite list_lookup_fmap, Hf. }
  rewrite open_files_ok.
  2:{ intros j f Hf. apply Hok.
      rewrite lookup_app_r by (rewrite length_fmap; lia).
      rewrite length_fmap. replace (length (cmd_files_in cmd) + j - length (cmd_files_in cmd)) with j by lia.
      by rewrite list_lookup_fmap, Hf. }
  fold file_in file_out. fold arg0.
  rewrite open_events_app, length_fmap, <- !app_assoc. cbn [Nat.add].
  unfold dup_onto, redirect.
  destruct (file_in =? STDIN_FILENO)%Z, (file_out =? STDOUT_FILENO)%Z;
    repeat match goal with
    | |- context [(?x =? -1)%Z] => destruct (Z.eqb_spec x (-1)); [done|]
    end; done.
Qed.

Lemma child_uses_last_redirect_witness :
  spawn_child (mkProc (mkCmd ["sort"%string] 1 ["a"%string; "b"%string] ["c"%string]) 0 4)
    (mkChildEnv (fun n _ _ => Z.of_nat (5 + n)) (fun _ => EmptyString)
                (fun _ target => target) (fun _ _ => true)) =
  [CvOpen "a" O_RDONLY 5; CvOpen "b" O_RDONLY 6; CvOpen "c" O_WRONLY_CREAT_TRUNC 7;
   CvDup2 6 0 0; CvClose 6; CvDup2 7 1 1; CvClose 7;
   CvExecvp "sort" ["sort"%string] true].
Proof.
  etrans; [apply (child_uses_last_redirect
    (mkProc (mkCmd ["sort"%string] 1 ["a"%string; "b"%string] ["c"%string]) 0 4)
    (mkChildEnv (fun n _ _ => Z.of_nat (5 + n)) (fun _ => EmptyString)
                (fun _ target => target) (fun _ _ => true)))|reflexivity].
  - intros j m f _. cbn [ce_open]. lia.
  - by vm_compute.
  - by vm_compute.
Defined.

(** X10: the child never comes back into the interpreter and never fails
    silently.  Whatever the kernel answers, the child ends in one of two
    ways: [execvp] replaces its image, or it writes one diagnostic and calls
    [exit] with code 1; before that last step it has written nothing to the
    standard error and has not called [exit]. *)
Theorem child_ends_in_exec_or_reported_exit (p : proc) (env : child_env) :
  exists evs, Forall goes_on evs /\
    (spawn_child p env =
       evs ++ [CvExecvp (nth 0 (cmd_args (pr_cmd p)) EmptyString) (cmd_args (pr_cmd p)) true] \/
     exists ev, diagnostic ev /\ spawn_child p env = evs ++ [ev; CvExit 1]).
Proof.
  unfold spawn_child.
  pose proof (open_files_cases env O_RDONLY (cmd_files_in (pr_cmd p)) 0 (pr_file_in p)) as H1.
  destruct (open_files env O_RDONLY _ 0 _) as [evs1 [fd1|]]; cbn in H1;
    destruct H1 as [(? & [= <-] & G1)|([=] & evs & text & -> & G)].
  2:{ exists evs. split; [done|]. right. by exists (CvStderr text). }
  pose proof (open_files_cases env O_WRONLY_CREAT_TRUNC (cmd_files_out (pr_cmd p))
                (length (cmd_files_in (pr_cmd p))) (pr_file_out p)) as H2.
  destruct (open_files env O_WRONLY_CREAT_TRUNC _ _ _) as [evs2 [fd2|]]; cbn in H2;
    destruct H2 as [(? & [= <-] & G2)|([=] & evs & text & -> & G)].
  2:{ exists (evs1 ++ evs). split; [by apply Forall_app|]. right.
      exists (CvStderr text). by rewrite app_assoc. }
  pose proof (dup_onto_cases env fd1 STDIN_FILENO) as H3.
  destruct (dup_onto env fd1 STDIN_FILENO) as [evs3 [|]]; cbn in H3;
    destruct H3 as [([=] & G3)|([=] & evs & text & -> & G)].
  2:{ exists (evs1 ++ evs2 ++ evs). split; [by rewrite !Forall_app|]. right.
      exists (CvPerror text). by rewrite !app_assoc. }
  pose proof (dup_onto_cases env fd2 STDOUT_FILENO) as H4.
  destruct (dup_onto env fd2 STDOUT_FILENO) as [evs4 [|]]; cbn in H4;
    destruct H4 as [([=] & G4)|([=] & evs & text & -> & G)].
  2:{ exists (evs1 ++ evs2 ++ evs3 ++ evs). split; [by rewrite !Forall_app|]. right.
      exists (CvPerror text). by rewrite !app_assoc. }
  destruct (ce_execvp env _ _).
  - exists (evs1 ++ evs2 ++ evs3 ++ evs4). split; [by rewrite !Forall_app|]. left.
    by rewrite !app_assoc.
  - exists (evs1 ++ evs2 ++ evs3 ++ evs4 ++
            [CvExecvp (nth 0 (cmd_args (pr_cmd p)) EmptyString) (cmd_args (pr_cmd p)) false]).
    split; [rewrite !Forall_app; split_and!; try done; by repeat constructor|].
    right. exists (CvPerror (nth 0 (cmd_args (pr_cmd p)) EmptyString)).
    split; [done|]. by rewrite <- !app_assoc.
Qed.

End Child.


(** ** Single commands and the wait loop *)

Section SingleCommand.

Implicit Types (cmd : Cmd) (cmds : list (option Cmd)) (os : OS).

Lemma spawn_external cmd file_in file_out os :
  external cmd ->
  spawn cmd file_in file_out os =
    match os_fork os (os_nfork os) with
    | ForkFails =>
        (CMD_FAILURE,
         fprintf_stderr "minshell: process spawn error"
           (sys_fork (mkProc cmd file_in file_out) os).2)
    | ForkChild _ => (CMD_SUCCESS, (sys_fork (mkProc cmd file_in file_out) os).2)
    end.
Proof.
  intros [He Hc]. unfold builtin in He, Hc. unfold spawn, sys_fork.
  destruct (chr _ 0 =? NL)%char; cbn in He, Hc; rewrite ?He, ?Hc;
    destruct (os_fork os (os_nfork os)); cbn [fst snd]; try done;
    by destruct (Z.eqb_spec (Z.of_nat (S (os_nfork os))) (-1)); [lia|].
Qed.

(** X11: [cd] succeeds silently or fails with exactly one diagnostic.
    When [cmd_cd] returns CMD_SUCCESS it has called [chdir] once, the working
    directory is the one [chdir] went to and nothing was written; otherwise
    it returns CMD_FAILURE, the working directory is as before, and the one
    line written to the standard error, which starts with [cd: ], is the
    last thing it does, after at most one failed [chdir]. *)
Theorem cmd_cd_succeeds_or_reports (cmd : Cmd) (os : OS) :
  let r := cmd_cd cmd os in
  (r.1 = CMD_SUCCESS /\
   exists path, os_dir os (os_cwd os) path = inr (os_cwd r.2) /\
     os_trace r.2 = os_trace os ++ [EvChdir path true]) \/
  (r.1 = CMD_FAILURE /\ os_cwd r.2 = os_cwd os /\
   exists evs text,
     os_trace r.2 = os_trace os ++ evs ++ [EvStderr ("cd: " +:+ text)] /\
     (evs = [] \/ exists path err,
        evs = [EvChdir path false] /\ os_dir os (os_cwd os) path = inl err)).
Proof.
  assert (forall path,
    let r := cmd_cd_chdir path os in
    (r.1 = CMD_SUCCESS /\
     exists path, os_dir os (os_cwd os) path = inr (os_cwd r.2) /\
       os_trace r.2 = os_trace os ++ [EvChdir path true]) \/
    (r.1 = CMD_FAILURE /\ os_cwd r.2 = os_cwd os /\
     exists evs text,
       os_trace r.2 = os_trace os ++ evs ++ [EvStderr ("cd: " +:+ text)] /\
       (evs = [] \/ exists path err,
          evs = [EvChdir path false] /\ os_dir os (os_cwd os) path = inl err))) as Hchdir.
  { intros path. unfold cmd_cd_chdir, sys_chdir.
    destruct (os_dir os (os_cwd os) path) as [err|dir] eqn:Hdir; cbn.
    - right. split; [done|]. split; [done|].
      exists [EvChdir path false], (path +:+ ": " +:+ err +:+ newline).
      rewrite <- app_assoc. split; [done|]. right. by exists path, err.
    - left. split; [done|]. by exists path. }
  assert (forall text,
    os_cwd (fprintf_stderr ("cd: " +:+ text) os) = os_cwd os /\
    exists evs text',
      os_trace (fprintf_stderr ("cd: " +:+ text) os) =
        os_trace os ++ evs ++ [EvStderr ("cd: " +:+ text')] /\
      (evs = [] \/ exists path err,
         evs = [EvChdir path false] /\ os_dir os (os_cwd os) path = inl err)) as Hmsg.
  { intros text. split; [done|]. exists [], text. split; [done|]. by left. }
  assert (forall path,
    let r := cmd_cd_path path os in
    (r.1 = CMD_SUCCESS /\
     exists path, os_dir os (os_cwd os) path = inr (os_cwd r.2) /\
       os_trace r.2 = os_trace os ++ [EvChdir path true]) \/
    (r.1 = CMD_FAILURE /\ os_cwd r.2 = os_cwd os /\
     exists evs text,
       os_trace r.2 = os_trace os ++ evs ++ [EvStderr ("cd: " +:+ text)] /\
       (evs = [] \/ exists path err,
          evs = [EvChdir path false] /\ os_dir os (os_cwd os) path = inl err))) as Hpath.
  { intros path. unfold cmd_cd_path.
    destruct (chr path 0 =? "~")%char; [|apply Hchdir].
    destruct (chr path 1 =? NUL)%char.
    - destruct (os_home os) as [home|]; [apply Hchdir|].
      right. split; [done|]. apply (Hmsg ("$HOME env variable is invalid" +:+ newline)).
    - right. split; [done|].
      apply (Hmsg ("tilde expansion is not supported" +:+ newline)). }
  unfold cmd_cd. destruct (cmd_args cmd !! 1) as [path|]; [|apply Hpath].
  case_bool_decide; [|apply Hpath].
  right. split; [done|]. apply (Hmsg ("too many arguments" +:+ newline)).
Qed.

Lemma wait_all_none status os :
  os_children os = [] -> wait_all status os = Ret (status, log (EvWait None) os).
Proof. intros H. unfold wait_all. rewrite H. cbn. unfold sys_wait. by rewrite H. Qed.

(** X12: [while (wait(&status) > 0);] returns exactly when every child that
    is not reaped yet ends.  It blocks for ever if and only if one of these
    children never ends; otherwise each of them is reaped exactly once, in
    the order the kernel chooses, one more call of [wait] finds no child, and
    [status] holds the status of the child reaped last, or its initial value
    when there was no child. *)
Theorem wait_loop_reaps_every_child (status : Z) (os : OS) :
  (wait_all status os = Blocked <-> exists pid, (pid, None) ∈ os_children os) /\
  wait_all status os <> Undefined /\
  forall s os', wait_all status os = Ret (s, os') ->
    os_children os' = [] /\
    exists reaped : list (Z * Z),
      (fun r : Z * Z => (r.1, Some r.2)) <$> reaped ≡ₚ os_children os /\
      os_trace os' = os_trace os ++ (EvWait ∘ Some <$> reaped) ++ [EvWait None] /\
      s = last_status status reaped.
Proof.
  unfold wait_all.
  pose proof (wait_loop_reaps _ status os eq_refl) as Hw.
  destruct (wait_loop _ status os) as [[s os']| |]; [| |done].
  - destruct Hw as (Hnil & reaped & Htr & Hperm & Hs). split_and!; [|done|].
    + split; [done|]. intros [pid Hin]. rewrite <- Hperm in Hin.
      apply list_elem_of_fmap in Hin as (r & Heq & _). done.
    + intros ? ? [= <- <-]. split; [done|]. by exists reaped.
  - split_and!; done.
Qed.



(** X14: a single [cd].  [exec] runs it in the interpreter, forks nothing,
    calls [wait] once, which finds no child, and returns CMD_SUCCESS whether
    [cd] succeeded or failed: the result of [cmd_cd] is dropped. *)
Theorem exec_cd_result_is_dropped (cmd : Cmd) (os : OS) :
  nth 0 (cmd_args cmd) EmptyString = Lex._tok Lex.T_CD ->
  os_children os = [] ->
  exec cmd os = Ret (CMD_SUCCESS, log (EvWait None) (cmd_cd cmd os).2) /\
  os_nfork (cmd_cd cmd os).2 = os_nfork os.
Proof.
  intros Hcd Hnil. unfold exec. rewrite spawn_cd by done.
  pose proof (cmd_cd_not_exit cmd os) as Hne.
  pose proof (cmd_cd_only cmd os) as (Hnf & Hch & _).
  destruct (cmd_cd cmd os) as [r os1]. cbn [fst snd] in *.
  apply Z.eqb_neq in Hne. rewrite Hne.
  rewrite wait_all_none by congruence. done.
Qed.

Lemma exec_cd_result_is_dropped_witness :
  let cmd := mkCmd [Lex._tok Lex.T_CD; "a"%string; "b"%string] 3 [] [] in
  (cmd_cd cmd os_plain).1 = CMD_FAILURE /\
  exec cmd os_plain =
    Ret (CMD_SUCCESS, log (EvWait None) (cmd_cd cmd os_plain).2) /\
  os_nfork (cmd_cd cmd os_plain).2 = os_nfork os_plain.
Proof.
  intros cmd. split; [reflexivity|].
  apply (exec_cd_result_is_dropped cmd os_plain); reflexivity.
Defined.

End SingleCommand.

(** ** Pipelines *)

Section Pipelines.

Implicit Types (cmd : Cmd) (cmds : list (option Cmd)) (os : OS).

Lemma spawned_refl os : spawned 0 os os.
Proof.
  split_and!; try done; try lia.
  - exists []. by rewrite app_nil_r.
  - exists []. by rewrite app_nil_r.
Qed.

Lemma spawned_trans n m os1 os2 os3 :
  spawned n os1 os2 -> spawned m os2 os3 -> spawned (n + m) os1 os3.
Proof.
  intros (F1 & P1 & S1 & W1 & N1 & (cs1 & C1 & A1) & evs1 & T1 & E1)
         (F2 & P2 & S2 & W2 & N2 & (cs2 & C2 & A2) & evs2 & T2 & E2).
  split_and!; try congruence; try lia.
  - exists (cs1 ++ cs2). rewrite C2, C1, app_assoc. split; [done|].
    apply Forall_app. split; [done|]. by rewrite F1 in A2.
  - exists (evs1 ++ evs2). rewrite T2, T1, app_assoc. split; [done|].
    by apply Forall_app.
Qed.

Lemma spawned_le n m os os' : n <= m -> spawned n os os' -> spawned m os os'.
Proof.
  intros Hle (F1 & P1 & S1 & W1 & N1 & C1 & T1). split_and!; try done; lia.
Qed.

Lemma log_spawned ev os : not_wait ev -> spawned 0 os (log ev os).
Proof.
  intros Hev. split_and!; cbn; try done; try lia.
  - exists []. by rewrite app_nil_r.
  - exists [ev]. split; [done|]. by constructor.
Qed.

Lemma sys_pipe_spawned os : spawned 0 os (sys_pipe os).2.
Proof.
  split_and!; cbn; try done; try lia.
  - exists []. by rewrite app_nil_r.
  - eexists [_]. split; [done|]. by constructor.
Qed.

Lemma sys_fork_spawned p os : spawned 1 os (sys_fork p os).2.
Proof.
  unfold sys_fork. destruct (os_fork os (os_nfork os)) as [|st] eqn:Hfork;
    split_and!; cbn; try done; try lia.
  - exists []. by rewrite app_nil_r.
  - eexists [_]. split; [done|]. by constructor.
  - eexists [_]. split; [done|]. constructor; [|done]. by exists (os_nfork os).
  - eexists [_]. split; [done|]. by constructor.
Qed.

Lemma cmd_cd_spawned cmd os : spawned 0 os (cmd_cd cmd os).2.
Proof.
  assert (forall text, spawned 0 os (fprintf_stderr text os)) as Hmsg.
  { intros text. by apply log_spawned. }
  assert (forall path, spawned 0 os (cmd_cd_chdir path os).2) as Hchdir.
  { intros path. unfold cmd_cd_chdir, sys_chdir.
    destruct (os_dir os (os_cwd os) path) as [err|dir]; cbn [snd].
    - apply (spawned_trans 0 0 _ (log (EvChdir path false) os)); by apply log_spawned.
    - split_and!; cbn; try done; try lia.
      + exists []. by rewrite app_nil_r.
      + eexists [_]. split; [done|]. by constructor. }
  assert (forall path, spawned 0 os (cmd_cd_path path os).2) as Hpath.
  { intros path. unfold cmd_cd_path. repeat case_match; cbn [snd]; done. }
  unfold cmd_cd. repeat case_match; cbn [snd]; done.
Qed.

Lemma spawn_spawned cmd file_in file_out os :
  spawned 1 os (spawn cmd file_in file_out os).2.
Proof.
  assert (spawned 1 os
    (let (pid, os') := sys_fork (mkProc cmd file_in file_out) os in
     if (pid =? -1)%Z
     then (CMD_FAILURE, fprintf_stderr "minshell: process spawn error" os')
     else (CMD_SUCCESS, os')).2) as Hfork.
  { pose proof (sys_fork_spawned (mkProc cmd file_in file_out) os) as H.
    destruct (sys_fork _ os) as [pid os']. cbn [snd] in H.
    destruct (pid =? -1)%Z; cbn [snd]; [|done].
    apply (spawned_trans 1 0 _ os'); [done|]. by apply log_spawned. }
  unfold spawn.
  destruct (chr _ 0 =? NL)%char; [|done].
  destruct (chr _ 1 =? Lex.T_EXIT)%char.
  { apply (spawned_le 0); [lia|]. apply spawned_refl. }
  destruct (chr _ 1 =? Lex.T_CD)%char; [|done].
  apply (spawned_le 0); [lia|]. apply cmd_cd_spawned.
Qed.

Lemma sys_wait_keeps os :
  match sys_wait os with
  | WaitNone os' | WaitReaped _ _ os' =>
      os_fork os' = os_fork os /\ os_nfork os' = os_nfork os /\
      os_pipe os' = os_pipe os /\ os_npipe os' = os_npipe os /\
      os_cwd os' = os_cwd os
  | WaitBlocks => True
  end.
Proof.
  unfold sys_wait. destruct (os_children os) as [|c l]; [done|].
  destruct (ended (c :: l) !! _) as [i|]; [|done].
  by destruct ((c :: l) !! i) as [[pid [st|]]|].
Qed.

Lemma wait_loop_keeps : forall n status os s os',
  wait_loop n status os = Ret (s, os') ->
  os_fork os' = os_fork os /\ os_nfork os' = os_nfork os /\
  os_pipe os' = os_pipe os /\ os_npipe os' = os_npipe os /\
  os_cwd os' = os_cwd os.
Proof.
  induction n as [|n IH]; intros status os s os'; cbn [wait_loop];
    pose proof (sys_wait_keeps os) as Hk;
    destruct (sys_wait os) as [os1| |pid st os1]; try done.
  - by intros [= <- <-].
  - by intros [= <- <-].
  - by intros [= <- <-].
  - intros H. apply IH in H. destruct Hk as (<- & <- & <- & <- & <-). done.
Qed.




(** The loop gets to stage [k] without a call of [wait] and with at most
    [k] calls of [fork]. *)
Lemma exec_pipe_reaches_spawned cmds cmdn os : forall k,
  k <= cmdn - 1 ->
  (forall j, j < k -> exists c, load cmds j = Ret c /\ builtin Lex.T_EXIT c = false) ->
  (forall j, j < k -> os_pipe os (os_npipe os + j) = true) ->
  exists os_k,
    exec_pipe cmds cmdn os = exec_pipe_from cmds cmdn k (stage_in (os_npipe os) k) os_k /\
    spawned k os os_k /\ os_npipe os_k = os_npipe os + k.
Proof.
  induction k as [|k IH]; intros Hk Hcmds Hpipes.
  { exists os. split; [apply exec_pipe_from_start|]. split; [apply spawned_refl|lia]. }
  destruct IH as (os_k & Hreach & Hsp & Hn);
    [lia|intros; apply Hcmds; lia|intros; apply Hpipes; lia|].
  destruct (Hcmds k) as (c & Hload & Hc); [lia|].
  assert (os_pipe os_k (os_npipe os_k) = true) as Hpk.
  { destruct Hsp as (_ & -> & _). rewrite Hn. apply Hpipes. lia. }
  exists (sys_close (Z.of_nat (4 + 2 * os_npipe os_k))
            (spawn c (stage_in (os_npipe os) k)
               (Z.of_nat (4 + 2 * os_npipe os_k)) (sys_pipe os_k).2).2).
  split.
  { rewrite Hreach. rewrite (exec_pipe_from_step _ _ _ _ _ c);
      [|lia|done|done|by apply spawn_not_exit].
    f_equal. unfold stage_in, pipe_rd. by rewrite Hn. }
  split.
  - apply (spawned_le (k + 1)); [lia|].
    apply (spawned_trans k 1 _ os_k); [done|].
    apply (spawned_trans 1 0 _ (spawn c (stage_in (os_npipe os) k)
                                  (Z.of_nat (4 + 2 * os_npipe os_k)) (sys_pipe os_k).2).2);
      [|by apply log_spawned].
    apply (spawned_trans 0 1 _ (sys_pipe os_k).2);
      [apply sys_pipe_spawned|apply spawn_spawned].
  - pose proof (spawn_keeps_pipes c (stage_in (os_npipe os) k)
                  (Z.of_nat (4 + 2 * os_npipe os_k)) (sys_pipe os_k).2) as [_ H2].
    unfold sys_close, log. cbn [os_npipe]. rewrite H2. cbn. lia.
Qed.




(** X17: [exit] in a pipeline ends [exec_pipe] at once.  When stage [k] is
    [exit], no stage before it is, and the pipes up to it can be made,
    [exec_pipe] returns CMD_EXIT from that stage without calling [wait]: the
    children forked for the stages before it, at most [k] of them, are left
    unreaped, and the stages after it are never spawned. *)
Theorem exit_stage_returns_without_waiting
    (cmds : list (option Cmd)) (cmdn k : nat) (cmd : Cmd) (os : OS) :
  k < cmdn ->
  load cmds k = Ret cmd ->
  nth 0 (cmd_args cmd) EmptyString = Lex._tok Lex.T_EXIT ->
  (forall j, j < k -> exists c, load cmds j = Ret c /\ builtin Lex.T_EXIT c = false) ->
  (forall j, j <= k -> j < cmdn - 1 -> os_pipe os (os_npipe os + j) = true) ->
  exists os', exec_pipe cmds cmdn os = Ret (CMD_EXIT, os') /\ spawned k os os'.
Proof.
  intros Hk Hload Hexit Hcmds Hpipes.
  destruct (exec_pipe_reaches_spawned cmds cmdn os k) as (os_k & Hreach & Hsp & Hn);
    [lia|done|intros; apply Hpipes; lia|].
  rewrite Hreach. unfold exec_pipe_from.
  destruct (decide (k < cmdn - 1)) as [Hlt|Hge].
  - replace (cmdn - 1 - k) with (S (cmdn - 1 - S k)) by lia.
    cbn [exec_pipe_loop]. unfold sys_pipe at 1.
    assert (os_pipe os_k (os_npipe os_k) = true) as ->.
    { destruct Hsp as (_ & -> & _). rewrite Hn. apply Hpipes; lia. }
    rewrite Hload. cbn [bind]. rewrite spawn_exit by done.
    change (CMD_EXIT =? CMD_EXIT)%Z with true. cbn iota. cbn [bind].
    eexists. split; [done|].
    apply (spawned_le (k + 0)); [lia|].
    apply (spawned_trans k 0 _ os_k); [done|].
    pose proof (sys_pipe_spawned os_k) as Hp. unfold sys_pipe in Hp.
    assert (os_pipe os_k (os_npipe os_k) = true) as Hpk.
    { destruct Hsp as (_ & -> & _). rewrite Hn. apply Hpipes; lia. }
    rewrite Hpk in Hp. exact Hp.
  - replace (cmdn - 1 - k) with 0 by lia. cbn [exec_pipe_loop bind].
    unfold exec_pipe_last. rewrite Hload. cbn [bind]. rewrite spawn_exit by done.
    change (CMD_EXIT =? CMD_EXIT)%Z with true. cbn iota. by exists os_k.
Qed.

Lemma exit_stage_returns_without_waiting_witness :
  exists os',
    exec_pipe [Some cmd_sleep; Some cmd_exit_alone; Some cmd_ls] 3 os_plain =
      Ret (CMD_EXIT, os') /\
    spawned 1 os_plain os' /\
    os_children os' = [(1%Z, Some 0%Z)] /\
    os_trace os' =
      [EvPipe (Some (3%Z, 4%Z)); EvFork (Some (1%Z, mkProc cmd_sleep 0 4)); EvClose 4;
       EvPipe (Some (5%Z, 6%Z))].
Proof.
  destruct (exit_stage_returns_without_waiting
              [Some cmd_sleep; Some cmd_exit_alone; Some cmd_ls] 3 1
              cmd_exit_alone os_plain) as (os' & Hex & Hsp).
  - lia.
  - reflexivity.
  - reflexivity.
  - intros j Hj. assert (j = 0) as -> by lia. by exists cmd_sleep.
  - intros j _ _. reflexivity.
  - exists os'. split; [exact Hex|]. split; [exact Hsp|].
    vm_compute in Hex. injection Hex as <-. split; reflexivity.
Defined.

End Pipelines.


(** ** The loop of [main] *)

Section MainLoop.

Implicit Types (cmd : Cmd) (cmds : list (option Cmd)) (os : OS) (st : shell).

(** A call of [yylex] that does not reach the end of the input consumes at
    least one character. *)
Lemma yylex_progress : forall s skip args,
  (Lex.yylex s skip args).1.2 = (-1)%Z \/
  String.length (Lex.yylex s skip args).2 < String.length s.
Proof.
  induction s as [|a s IH]; intros skip args; [by left|].
  assert (forall k args',
    (Lex.yylex s k args').1.2 = (-1)%Z \/
    String.length (Lex.yylex s k args').2 < String.length (String a s)) as IH'.
  { intros k args'. destruct (IH k args'); [by left|right; cbn; lia]. }
  cbn [Lex.yylex]. destruct skip as [|k]; [|apply IH'].
  destruct (Lex.scan_rule (String a s)) as [[r n]|]; [|apply IH'].
  destruct r; try apply IH'; right; cbn; lia.
Qed.

(** The slots that [exec], [exec_pipe] and [main] read after [parse]. *)
Lemma parse_slots args cmds :
  length args + 1 <= 2 * length cmds ->
  exists p, parse args cmds = Ret p /\
    length (p_cmds p) = length cmds /\
    forall i, i < p_cmdn p -> exists c, load (p_cmds p) i = Ret c.
Proof.
  intros Hroom. destruct args as [|arg args].
  { eexists. split; [done|]. cbn. split; [done|]. intros i Hi. lia. }
  destruct (build_in_bounds (split_pipes (arg :: args)) cmds 0)
    as (p & Hp & _ & Hlen & _).
  { rewrite weight_split_pipes. cbn in *. lia. }
  exists p. split; [by rewrite parse_build|]. split; [done|].
  apply build_contents in Hp as (pre & post & Hsegs & Hpre & Hn & Htake & _).
  cbn in Hn, Htake. rewrite take_0 in Htake. cbn in Htake.
  intros i Hi. rewrite Hn in Hi.
  destruct (lookup_lt_is_Some_2 pre i Hi) as [seg Hseg].
  exists (spec_cmd seg). unfold load.
  rewrite <- (lookup_take_lt _ (p_cmdn p)) by lia.
  rewrite Htake, list_lookup_fmap, Hseg. done.
Qed.

Lemma all_end_spawned n os os' : spawned n os os' -> all_end os -> all_end os'.
Proof.
  intros (F & _ & _ & _ & _ & (cs & C & A) & _) [Hf Hc]. split.
  - by rewrite F.
  - rewrite C. apply Forall_app. split; [done|].
    eapply Forall_impl; [exact A|]. intros c [k Hk] Hnone. cbn in Hnone.
    rewrite Hnone in Hk. by apply (Hf k).
Qed.

(** The code that follows the last [spawn] in [exec] and in [exec_pipe]. *)
Lemma wait_tail_cases (r : Z) os :
  match (if (r =? CMD_EXIT)%Z then Ret (CMD_EXIT, os)
         else w <-- wait_all 0 os ;; Ret (status_result w.1, w.2)) with
  | Ret (_, os') => all_end os -> all_end os'
  | Blocked => ~ all_end os
  | Undefined => False
  end.
Proof.
  destruct (r =? CMD_EXIT)%Z; [done|]. unfold wait_all.
  pose proof (wait_loop_reaps _ 0%Z os eq_refl) as Hw.
  destruct (wait_loop _ 0 os) as [[s os']| |] eqn:Hloop; cbn; [|done|].
  - destruct Hw as [Hnil _]. apply wait_loop_keeps in Hloop as (Hf & _).
    intros [H1 _]. split; [by rewrite Hf|]. by rewrite Hnil.
  - destruct Hw as [pid Hin]. intros [_ Hall].
    rewrite Forall_forall in Hall. by apply Hall in Hin.
Qed.

Lemma exec_cases cmd os :
  match exec cmd os with
  | Ret (_, os') => all_end os -> all_end os'
  | Blocked => ~ all_end os
  | Undefined => False
  end.
Proof.
  unfold exec.
  pose proof (spawn_spawned cmd STDIN_FILENO STDOUT_FILENO os) as Hsp.
  destruct (spawn cmd STDIN_FILENO STDOUT_FILENO os) as [r os1]. cbn [snd] in Hsp.
  pose proof (wait_tail_cases r os1) as Hw.
  destruct (if (r =? CMD_EXIT)%Z then _ else _) as [[r' os']| |]; [|done|].
  - intros H. by apply Hw, (all_end_spawned 1 os).
  - intros H. by apply Hw, (all_end_spawned 1 os).
Qed.

(** The loop of [exec_pipe] always comes to an end when the slots it reads
    hold Commands. *)
Lemma exec_pipe_loop_ret cmds : forall k i file_in os,
  (forall j, i <= j < i + k -> exists c, load cmds j = Ret c) ->
  exists out, exec_pipe_loop cmds k i file_in os = Ret out /\
    match out with
    | LoopExit os' => spawned k os os'
    | LoopDone i' _ os' => i <= i' <= i + k /\ spawned k os os'
    end.
Proof.
  induction k as [|k IH]; intros i file_in os Hload.
  { eexists. split; [done|]. split; [lia|apply spawned_refl]. }
  cbn [exec_pipe_loop]. pose proof (sys_pipe_spawned os) as Hp.
  destruct (sys_pipe os) as [[[rd wr]|] os1]; cbn [snd] in Hp.
  2:{ eexists. split; [done|]. split; [lia|].
      apply (spawned_le (0 + 0)); [lia|].
      apply (spawned_trans 0 0 _ os1); [done|]. by apply log_spawned. }
  destruct (Hload i) as [c Hc]; [lia|]. rewrite Hc. cbn [bind].
  pose proof (spawn_spawned c file_in wr os1) as Hsp.
  destruct (spawn c file_in wr os1) as [r os2]. cbn [snd] in Hsp.
  assert (spawned 1 os os2) as H2 by apply (spawned_trans 0 1 _ os1 _ Hp Hsp).
  destruct (r =? CMD_EXIT)%Z.
  { eexists. split; [done|]. apply (spawned_le 1); [lia|done]. }
  destruct (IH (S i) rd (sys_close wr os2)) as (out & Hout & Hspec).
  { intros j Hj. apply Hload. lia. }
  exists out. split; [done|].
  assert (spawned 1 os (sys_close wr os2)) as H3.
  { apply (spawned_trans 1 0 _ os2); [done|]. by apply log_spawned. }
  destruct out as [os'|i' fi os'].
  - apply (spawned_trans 1 k _ _ _ H3 Hspec).
  - destruct Hspec as [Hi Hspec]. split; [lia|].
    apply (spawned_trans 1 k _ _ _ H3 Hspec).
Qed.

Lemma exec_pipe_cases cmds cmdn os :
  1 <= cmdn ->
  (forall j, j < cmdn -> exists c, load cmds j = Ret c) ->
  match exec_pipe cmds cmdn os with
  | Ret (_, os') => all_end os -> all_end os'
  | Blocked => ~ all_end os
  | Undefined => False
  end.
Proof.
  intros Hn Hload. unfold exec_pipe.
  destruct (exec_pipe_loop_ret cmds (cmdn - 1) 0 STDIN_FILENO os) as (out & -> & Hout).
  { intros j Hj. apply Hload. lia. }
  cbn [bind]. destruct out as [os1|i file_in os1].
  { by apply (all_end_spawned (cmdn - 1)). }
  destruct Hout as [Hi Hsp]. unfold exec_pipe_last.
  destruct (Hload i) as [c ->]; [lia|]. cbn [bind].
  pose proof (spawn_spawned c file_in STDOUT_FILENO os1) as Hsp'.
  destruct (spawn c file_in STDOUT_FILENO os1) as [r os2]. cbn [snd] in Hsp'.
  pose proof (wait_tail_cases r os2) as Hw.
  destruct (if (r =? CMD_EXIT)%Z then _ else _) as [[r' os']| |]; [|done|].
  - intros H. by apply Hw, (all_end_spawned 1 os1), (all_end_spawned (cmdn - 1) os).
  - intros H. by apply Hw, (all_end_spawned 1 os1), (all_end_spawned (cmdn - 1) os).
Qed.

(** One pass through the loop of [main]. *)
Lemma main_body_cases st :
  length (sh_cmds st) = MAX_CMDS ->
  match main_body st with
  | Ret st' =>
      length (sh_cmds st') = MAX_CMDS /\ sh_input st' = line_rest st /\
      (sh_running st' = true -> sh_running st = true /\ line_status st <> (-1)%Z) /\
      (all_end (sh_os st) -> all_end (sh_os st'))
  | Blocked => ~ all_end (sh_os st)
  | Undefined => False
  end.
Proof.
  intros Hlen.
  destruct (parse_slots (tokens (sh_input st)) (sh_cmds st)) as (p & Hp & Hlen' & Hslots).
  { pose proof (getline_bound (sh_input st)). unfold tokens.
    rewrite Hlen. unfold MAX_CMDS. lia. }
  rewrite (main_body_parsed _ _ Hp). cbn zeta.
  set (os1 := match p_err p with
              | Some token => fprintf_stderr (PARSE_ERR token) (print_prompt st)
              | None => print_prompt st
              end).
  assert (all_end (sh_os st) -> all_end os1) as Hos1.
  { intros H. assert (all_end (print_prompt st)) as H'.
    { unfold print_prompt. destruct (_ && _); [|done].
      by apply (all_end_spawned 0 (sh_os st)); [apply log_spawned|]. }
    unfold os1. destruct (p_err p); [|done].
    by apply (all_end_spawned 0 (print_prompt st)); [apply log_spawned|]. }
  assert (forall b : bool,
    (if b then false else still_running st) = true ->
    sh_running st = true /\ line_status st <> (-1)%Z) as Hrun.
  { intros b. unfold still_running.
    destruct b; [done|]. destruct (Z.eqb_spec (line_status st) (-1)); done. }
  destruct (p_ret p && bool_decide (0 < p_cmdn p)) eqn:Hok.
  2:{ cbn. rewrite Hlen', Hlen. split_and!; try done. apply (Hrun false). }
  apply andb_prop in Hok as [_ Hpos%bool_decide_eq_true].
  case_bool_decide as Hmany.
  - pose proof (exec_pipe_cases (p_cmds p) (p_cmdn p) os1 ltac:(lia) Hslots) as Hex.
    destruct (exec_pipe _ _ _) as [[r os']| |]; cbn; [|done|tauto].
    rewrite Hlen', Hlen. split_and!; try done; [apply Hrun|tauto].
  - destruct (Hslots 0) as [c ->]; [lia|]. cbn [bind].
    pose proof (exec_cases c os1) as Hex.
    destruct (exec c os1) as [[r os']| |]; cbn; [|done|tauto].
    rewrite Hlen', Hlen. split_and!; try done; [apply Hrun|tauto].
Qed.

Lemma main_loop_safe : forall n st,
  length (sh_cmds st) = MAX_CMDS -> main_loop n st <> Undefined.
Proof.
  induction n as [|n IH]; intros st Hlen; [done|]. cbn [main_loop].
  destruct (sh_running st); [|done].
  pose proof (main_body_cases st Hlen) as Hb.
  destruct (main_body st) as [st'| |]; cbn [bind]; [|done..].
  apply IH, Hb.
Qed.

Lemma main_loop_S n st :
  main_loop (S n) st =
    if sh_running st then st' <-- main_body st ;; main_loop n st' else Ret st.
Proof. reflexivity. Qed.

Lemma main_loop_ends : forall m st,
  String.length (sh_input st) <= m ->
  length (sh_cmds st) = MAX_CMDS -> all_end (sh_os st) ->
  exists st', main_loop (S m) st = Ret st' /\ sh_running st' = false /\
              all_end (sh_os st').
Proof.
  induction m as [|m IH]; intros st Hm Hlen Hend; rewrite main_loop_S;
    (destruct (sh_running st) eqn:Hrun; [|by exists st]);
    pose proof (main_body_cases st Hlen) as Hb;
    (destruct (main_body st) as [st1| |]; [|done|done]);
    destruct Hb as (Hlen1 & Hin & Hrun1 & Hend1); cbn [bind];
    pose proof (yylex_progress (sh_input st) 0 []) as Hprog;
    fold (Lex.getline (sh_input st)) in Hprog;
    fold (line_status st) in Hprog; fold (line_rest st) in Hprog.
  - exists st1. split; [done|]. split; [|tauto].
    destruct (sh_running st1); [|done]. destruct Hrun1 as [_ Hne]; [done|]. lia.
  - destruct (sh_running st1) eqn:Hr1.
    + destruct Hrun1 as [_ Hne]; [done|]. apply IH; [|done|tauto].
      rewrite Hin. lia.
    + exists st1. rewrite main_loop_stopped by done. split; [done|]. tauto.
Qed.

Lemma main_loop_more : forall n m st st',
  main_loop n st = Ret st' -> sh_running st' = false -> n <= m ->
  main_loop m st = Ret st'.
Proof.
  induction n as [|n IH]; intros m st st' Hloop Hstop Hle.
  { cbn in Hloop. injection Hloop as ->. by apply main_loop_stopped. }
  destruct m as [|m]; [lia|]. cbn [main_loop] in *.
  destruct (sh_running st); [|done].
  destruct (main_body st) as [st1| |]; [|done..]. cbn [bind] in *.
  apply (IH m _ _ Hloop Hstop). lia.
Qed.

(** X18: the interpreter never reads or writes outside its array of
    Commands.  For every input, every state of the operating system and
    every number of passes through the loop of [main], no store of [parse]
    into [cmds] and no read of [cmds] by [main] and [exec_pipe] is out of
    bounds or finds a NULL slot. *)
Theorem main_never_undefined (n : nat) (input : string) (os : OS) :
  main n input os <> Undefined.
Proof. apply main_loop_safe. apply length_replicate. Qed.

(** X19: the interpreter terminates when its children do.  If every child
    process ends, [main] leaves its loop after at most one pass per
    character of the input and one more, at the end of the input or at
    [exit]: no pass blocks and none is undefined. *)
Theorem main_terminates (input : string) (os : OS) :
  all_end os ->
  exists st',
    (forall n, String.length input < n -> main n input os = Ret st') /\
    sh_running st' = false /\ all_end (sh_os st').
Proof.
  intros Hend.
  destruct (main_loop_ends (String.length input) (main_init input os))
    as (st' & Hloop & Hstop & Hend'); [done|apply length_replicate|done|].
  exists st'. split; [|done]. intros n Hn.
  apply (main_loop_more (S (String.length input))); [done|done|lia].
Qed.

Lemma main_terminates_witness :
  exists st',
    (forall n, String.length (line "ls | sleep 1" +:+ line "exit") < n ->
       main n (line "ls | sleep 1" +:+ line "exit") os_plain = Ret st') /\
    sh_running st' = false /\ all_end (sh_os st').
Proof.
  apply (main_terminates (line "ls | sleep 1" +:+ line "exit") os_plain).
  split; [discriminate|constructor].
Defined.

End MainLoop.


(** ** Lines typed with one space after every word *)

Section SpacedLines.

Implicit Types (s w pre rest lit tail : string) (c a b : ascii) (r : Lex.rule)
  (args items : list string).

Lemma yylex_skip : forall pre s args,
  Lex.yylex (pre +:+ s) (String.length pre) args = Lex.yylex s 0 args.
Proof.
  induction pre as [|a pre IH]; intros s args; [done|].
  rewrite append_cons. cbn [String.length Lex.yylex]. apply IH.
Qed.

(** A match of a rule that does not return consumes the text matched and
    runs the action of the rule. *)
Lemma yylex_consume pre s r args :
  Lex.scan_rule (pre +:+ s) = Some (r, String.length pre) ->
  r <> Lex.R_newline -> r <> Lex.R_semi ->
  Lex.yylex (pre +:+ s) 0 args = Lex.yylex s 0 (rule_action r pre args).
Proof.
  intros Hscan Hnl Hsemi.
  destruct pre as [|a pre].
  { apply scan_rule_spec in Hscan as (_ & Hpos & _). cbn in Hpos. lia. }
  rewrite <- (yylex_skip pre s). rewrite append_cons in *.
  cbn [Lex.yylex]. rewrite Hscan. cbn [String.length].
  replace (S (String.length pre) - 1) with (String.length pre) by lia.
  destruct r; try done.
  cbn [rule_action]. rewrite <- append_cons.
  change (S (String.length pre)) with (String.length (String a pre)).
  rewrite substring_line by lia.
  assert (forall s0, String.substring 0 (String.length s0) s0 = s0) as ->; [|done].
  induction s0 as [|x s0 IH]; [done|]. cbn. by rewrite IH.
Qed.

Lemma run_len_all p : forall s,
  all_chars p s = true -> Lex.run_len p s = String.length s.
Proof.
  induction s as [|a s IH]; [done|]. cbn. intros [-> Hs]%andb_prop. by rewrite IH.
Qed.

Lemma prefix_whole : forall lit w,
  String.prefix lit w = true -> String.length w <= String.length lit -> w = lit.
Proof.
  induction lit as [|l lit IH]; intros [|a w]; cbn; try (done || lia).
  destruct (ascii_dec l a) as [->|]; [|done]. intros H Hlen.
  f_equal. apply IH; [done|lia].
Qed.

Lemma prefix_refl_app : forall lit s, String.prefix lit (lit +:+ s) = true.
Proof.
  induction lit as [|l lit IH]; intros s; [by destruct s|].
  rewrite append_cons. cbn. by destruct (ascii_dec l l).
Qed.

Lemma word_chars_differ c lit :
  Lex.is_word_char c = false -> all_chars Lex.is_word_char lit = true ->
  all_chars (fun x => negb (x =? c)%char) lit = true.
Proof.
  intros Hc. apply all_chars_impl. intros x Hx.
  destruct (Ascii.eqb_spec x c) as [->|]; [congruence|done].
Qed.

(** The rules on a run of word characters that ends before a character
    that is not one. *)
Lemma rule_len_word a w c rest :
  all_chars Lex.is_word_char (String a w) = true -> Lex.is_word_char c = false ->
  let s := String a w +:+ String c rest in
  rule_len Lex.R_word_special s = String.length (String a w) /\
  rule_len Lex.R_oror s = 0 /\ rule_len Lex.R_newline s = 0 /\
  rule_len Lex.R_semi s = 0 /\ rule_len Lex.R_blank s = 0 /\
  rule_len Lex.R_any s <= 1 /\
  (forall lit, all_chars Lex.is_word_char lit = true ->
     Lex.lit_len lit s = Lex.lit_len lit (String a w)).
Proof.
  intros Hw Hc s. pose proof Hw as Hw'. cbn in Hw'.
  apply andb_prop in Hw' as [Ha _].
  assert (Lex.is_special_char a = false) as Hsp.
  { destruct (Lex.is_special_char a) eqn:H; [|done].
    apply special_not_word in H. congruence. }
  split_and!.
  - unfold rule_len, s. rewrite run_len_line, run_len_all by done.
    rewrite append_cons. cbn [Lex.one_len]. rewrite Hsp. lia.
  - unfold rule_len, s, Lex.lit_len. rewrite append_cons, prefix_cons_ne; [done|].
    intros <-. done.
  - unfold rule_len, s. rewrite append_cons. cbn.
    destruct (Ascii.eqb_spec a NL) as [->|]; done.
  - unfold rule_len, s. rewrite append_cons. cbn.
    destruct (Ascii.eqb_spec a ";") as [->|]; done.
  - unfold rule_len, s. rewrite append_cons. cbn.
    destruct (Lex.is_blank_char a) eqn:Hb; [|done].
    unfold Lex.is_blank_char in Hb.
    apply orb_prop in Hb as [H|H]; apply Ascii.eqb_eq in H; by subst.
  - unfold rule_len, s. rewrite append_cons. cbn. destruct (negb _); lia.
  - intros lit Hlit. unfold Lex.lit_len, s.
    rewrite prefix_line; [done|]. by apply word_chars_differ.
Qed.

Lemma scan_rule_word a w c rest :
  all_chars Lex.is_word_char (String a w) = true -> Lex.is_word_char c = false ->
  Lex.scan_rule (String a w +:+ String c rest) =
    Some (word_rule (String a w), String.length (String a w)).
Proof.
  intros Hw Hc.
  destruct (rule_len_word a w c rest Hw Hc)
    as (Hword & Horor & Hnl & Hsemi & Hblank & Hany & Hlit).
  set (s := String a w +:+ String c rest) in *.
  assert (forall lit, all_chars Lex.is_word_char lit = true ->
            0 < Lex.lit_len lit s -> String.length (String a w) <= String.length lit ->
            String a w = lit) as Hkey.
  { intros lit Hl Hpos Hle. rewrite Hlit in Hpos by done. unfold Lex.lit_len in Hpos.
    destruct (String.prefix lit (String a w)) eqn:Hp; [|lia]. by apply prefix_whole. }
  assert (forall lit, all_chars Lex.is_word_char lit = true ->
            String a w = lit -> Lex.lit_len lit s = String.length lit) as Hfull.
  { intros lit Hl Heq. rewrite Hlit by done. unfold Lex.lit_len.
    rewrite Heq. pose proof (prefix_refl_app lit EmptyString) as H.
    assert (lit +:+ EmptyString = lit) as Hnil.
    { clear. induction lit as [|l lit IH]; [done|]. rewrite append_cons. by f_equal. }
    by rewrite Hnil in H; rewrite H. }
  destruct (Lex.scan_rule s) as [[r n]|] eqn:Hscan.
  2:{ apply (scan_rule_none _ Lex.R_word_special) in Hscan. rewrite Hword in Hscan.
      cbn in Hscan. lia. }
  apply scan_rule_spec in Hscan as (Hn & Hpos & Hbest).
  pose proof (Hbest Lex.R_word_special) as [Hge Hfirst]. rewrite Hword in Hge, Hfirst.
  destruct r.
  - rewrite Horor in Hn. lia.
  - cbn [rule_len] in Hn. unfold Lex.lit_len in Hn.
    destruct (String.prefix "exit" s) eqn:Hp; [|lia]. cbn [String.length] in Hn.
    assert (String a w = "exit"%string) as Heq.
    { apply Hkey; [done| |cbn [String.length] in *; lia].
      unfold Lex.lit_len. rewrite Hp. cbn. lia. }
    by rewrite Heq, Hn.
  - cbn [rule_len] in Hn. unfold Lex.lit_len in Hn.
    destruct (String.prefix "cd" s) eqn:Hp; [|lia]. cbn [String.length] in Hn.
    assert (String a w = "cd"%string) as Heq.
    { apply Hkey; [done| |cbn [String.length] in *; lia].
      unfold Lex.lit_len. rewrite Hp. cbn. lia. }
    by rewrite Heq, Hn.
  - rewrite Hword in Hn. subst n. unfold word_rule.
    destruct (String.eqb_spec (String a w) "exit") as [Heq|_].
    { pose proof (Hbest Lex.R_exit) as [_ Hlt]. cbn [rule_len rule_index] in Hlt.
      rewrite (Hfull "exit"%string) in Hlt by done. rewrite Heq in Hlt. cbn in Hlt. lia. }
    destruct (String.eqb_spec (String a w) "cd") as [Heq|_]; [|done].
    pose proof (Hbest Lex.R_cd) as [_ Hlt]. cbn [rule_len rule_index] in Hlt.
    rewrite (Hfull "cd"%string) in Hlt by done. rewrite Heq in Hlt. cbn in Hlt. lia.
  - rewrite Hnl in Hn. lia.
  - rewrite Hsemi in Hn. lia.
  - rewrite Hblank in Hn. lia.
  - cbn [rule_index] in Hfirst. cbn [String.length] in *. lia.
Qed.

Lemma scan_rule_space b tail :
  Lex.is_blank_char b = false ->
  Lex.scan_rule (String " " (String b tail)) = Some (Lex.R_blank, 1).
Proof.
  intros Hb. set (s := String " " (String b tail)).
  assert (rule_len Lex.R_blank s = 1) as Hblank.
  { unfold s. cbn. by rewrite Hb. }
  destruct (Lex.scan_rule s) as [[r n]|] eqn:Hscan.
  2:{ apply (scan_rule_none _ Lex.R_blank) in Hscan. lia. }
  apply scan_rule_spec in Hscan as (Hn & Hpos & Hbest).
  pose proof (Hbest Lex.R_blank) as [Hge Hfirst]. rewrite Hblank in Hge, Hfirst.
  destruct r; try (unfold s in Hn; vm_compute in Hn; lia).
  - by rewrite Hn, Hblank.
  - unfold s in Hn. cbn in Hn, Hfirst. lia.
Qed.

(** What follows an item is not a blank character. *)
Lemma spaced_head items c rest :
  Forall is_item items -> is_terminator c = true ->
  exists b tail, spaced items +:+ String c rest = String b tail /\
                 Lex.is_blank_char b = false.
Proof.
  intros Hitems Hc. destruct items as [|w items].
  { exists c, rest. split; [done|].
    apply is_terminator_cases in Hc as [-> | ->]; done. }
  apply Forall_cons in Hitems as [Hw _]. cbn [spaced].
  destruct Hw as [[Hne Hw]|[-> | [-> | ->]]]; try by eexists _, _.
  destruct w as [|a w]; [done|]. rewrite !append_cons. eexists _, _. split; [done|].
  cbn in Hw. apply andb_prop in Hw as [Ha _].
  destruct (Lex.is_blank_char a) eqn:Hb; [|done]. unfold Lex.is_blank_char in Hb.
  apply orb_prop in Hb as [H|H]; apply Ascii.eqb_eq in H; by subst.
Qed.

Lemma append_assoc : forall s1 s2 s3, (s1 +:+ s2) +:+ s3 = s1 +:+ (s2 +:+ s3).
Proof.
  induction s1 as [|a s1 IH]; intros s2 s3; [done|].
  rewrite !append_cons. by rewrite IH.
Qed.

Lemma yylex_spaced c rest : forall items args,
  Forall is_item items -> is_terminator c = true ->
  Lex.yylex (spaced items +:+ String c rest) 0 args =
    (foldl (fun acc t => Lex._add_arg t acc) args (token_of <$> items),
     terminator_status c, rest).
Proof.
  induction items as [|w items IH]; intros args Hitems Hc.
  { cbn [spaced fmap list_fmap foldl].
    apply is_terminator_cases in Hc as [-> | ->]; done. }
  pose proof Hitems as Hall. apply Forall_cons in Hitems as [Hw Hitems].
  destruct (spaced_head items c rest Hitems Hc) as (b & tail & Htail & Hb).
  cbn [spaced fmap list_fmap foldl]. rewrite append_assoc, append_cons, Htail.
  assert (Lex.yylex (String " " (String b tail)) 0 (Lex._add_arg (token_of w) args) =
          Lex.yylex (String b tail) 0 (Lex._add_arg (token_of w) args)) as Hblank.
  { apply (yylex_consume (String " " EmptyString) (String b tail) Lex.R_blank);
      [|done|done]. by apply scan_rule_space. }
  assert (Lex.yylex (w +:+ String " " (String b tail)) 0 args =
          Lex.yylex (String " " (String b tail)) 0 (Lex._add_arg (token_of w) args))
    as Hitem.
  { destruct Hw as [[Hne Hw]|Hsym].
    - destruct w as [|a w]; [done|].
      rewrite (yylex_consume (String a w) (String " " (String b tail))
                 (word_rule (String a w))).
      + f_equal. unfold word_rule, token_of, rule_action.
        destruct (String.eqb (String a w) "exit"); [done|].
        by destruct (String.eqb (String a w) "cd").
      + by apply scan_rule_word.
      + unfold word_rule. destruct (String.eqb (String a w) "exit"); [done|].
        by destruct (String.eqb (String a w) "cd").
      + unfold word_rule. destruct (String.eqb (String a w) "exit"); [done|].
        by destruct (String.eqb (String a w) "cd").
    - destruct Hsym as [-> | [-> | ->]].
      + by rewrite (yylex_consume "<" (String " " (String b tail)) Lex.R_word_special).
      + by rewrite (yylex_consume ">" (String " " (String b tail)) Lex.R_word_special).
      + by rewrite (yylex_consume "|" (String " " (String b tail)) Lex.R_word_special). }
  rewrite Hitem, Hblank, <- Htail. by apply IH.
Qed.

Lemma add_args_take : forall toks args,
  length args <= 63 ->
  foldl (fun acc t => Lex._add_arg t acc) args toks = take 63 (args ++ toks).
Proof.
  induction toks as [|t toks IH]; intros args Hlen.
  { cbn. by rewrite app_nil_r, take_ge by lia. }
  cbn [foldl]. unfold Lex._add_arg at 2. unfold Lex._NUMARGS.
  case_bool_decide as Hroom.
  - rewrite IH by (rewrite length_app; cbn; lia). by rewrite <- app_assoc.
  - rewrite IH by done. rewrite !take_app_le by lia. done.
Qed.

(** X20: on a line typed with one space after every word the tokenizer
    returns the words.  When the text before the first newline or semicolon
    is a sequence of items, each a run of word characters or one of [<],
    [>] and [|], and each followed by one space, [getline] returns the
    tokens of the items in order: the keyword token for [exit] and for [cd],
    the item itself otherwise.  It keeps the first 63 of them and drops the
    others without a diagnostic; the input left is what follows the
    terminator. *)
Theorem getline_spaced_items (items : list string) (c : ascii) (rest : string) :
  Forall is_item items -> is_terminator c = true ->
  Lex.getline (spaced items +:+ String c rest) =
    (take 63 (token_of <$> items), terminator_status c, rest).
Proof.
  intros Hitems Hc. unfold Lex.getline. rewrite yylex_spaced by done.
  by rewrite add_args_take by (cbn; lia).
Qed.

Lemma getline_spaced_items_witness :
  Lex.getline "cd /tmp ; ls -l | exit " =
    ([Lex._tok Lex.T_CD; "/tmp"%string], 0%Z, " ls -l | exit "%string).
Proof.
  apply (getline_spaced_items ["cd"; "/tmp"]%string ";"%char " ls -l | exit ").
  - constructor; [by left|]. constructor; [by left|]. constructor.
  - reflexivity.
Defined.

End SpacedLines.


(** ** A line that is one plain command *)

Section PlainCommand.

Implicit Types (w : string) (words : list string) (st : shell) (os : OS).

Lemma plain_word_first w :
  plain_word w ->
  token_of w = w /\ is_item w /\ Lex.is_word_char (chr w 0) = true.
Proof.
  intros (Hne & Hw & Hexit & Hcd). split_and!.
  - unfold token_of. destruct (String.eqb_spec w "exit"); [done|].
    by destruct (String.eqb_spec w "cd").
  - by left.
  - destruct w as [|a w]; [done|]. cbn in Hw. by apply andb_prop in Hw as [Ha _].
Qed.

Lemma plain_word_no_symbol w :
  plain_word w -> is_pipe w = false /\ is_redirect w = false /\ chr w 0 <> NL.
Proof.
  intros (_ & _ & Hc)%plain_word_first. unfold is_pipe, is_redirect.
  split_and!.
  - destruct (Ascii.eqb_spec (chr w 0) "|") as [Heq|]; [|by rewrite andb_false_r].
    by rewrite Heq in Hc.
  - destruct (Ascii.eqb_spec (chr w 0) "<") as [Heq|]; [by rewrite Heq in Hc|].
    destruct (Ascii.eqb_spec (chr w 0) ">") as [Heq|]; [by rewrite Heq in Hc|].
    by rewrite andb_false_r.
  - intros Heq. by rewrite Heq in Hc.
Qed.

Lemma split_pipes_plain words :
  Forall (fun w => is_pipe w = false) words -> split_pipes words = [words].
Proof.
  induction 1 as [|w words Hw _ IH]; [done|]. cbn [split_pipes]. by rewrite Hw, IH.
Qed.

Lemma spec_cmd_plain words :
  Forall (fun w => is_redirect w = false) words ->
  spec_cmd words = mkCmd words (length words) [] [].
Proof.
  intros Hall.
  assert (forall dir, dir <> NUL -> files_after dir NUL words = []) as Hfiles.
  { intros dir Hdir. induction Hall as [|w words Hw _ IH]; [done|].
    cbn [files_after]. rewrite Hw.
    destruct (Ascii.eqb_spec NUL dir); [congruence|done]. }
  assert (spec_args words = words) as Hargs.
  { clear Hfiles. induction Hall as [|w words Hw _ IH]; [done|].
    cbn. by rewrite Hw, IH. }
  unfold spec_cmd, spec_files_in, spec_files_out.
  by rewrite Hargs, !Hfiles.
Qed.

Lemma new_cmd_plain words :
  Forall (fun w => is_redirect w = false) words ->
  new_cmd words (length words) = inr (mkCmd words (length words) [] []).
Proof.
  intros Hall. pose proof (new_cmd_scan_init_offending words) as H.
  destruct (new_cmd words (length words)) as [err|cmd] eqn:Hcmd.
  - exfalso. unfold new_cmd in Hcmd.
    destruct (new_cmd_scan _ _ _ _ _) as [j|st']; [|done].
    destruct H as (Hj & [Hr _] & _).
    rewrite Forall_forall in Hall.
    rewrite (Hall (nth j words EmptyString)) in Hr; [done|].
    apply list_elem_of_In, nth_In. done.
  - f_equal. rewrite <- (spec_cmd_plain words Hall).
    apply (new_cmd_ok words []). by rewrite app_nil_r.
Qed.

(** X21: a line of plain words runs one command.  When the text before the
    first newline is a sequence of at most 63 words, none of them [exit],
    [cd] or a symbol, each followed by one space, one pass of the loop of
    [main] stores in slot 0 the Command whose argument list is the words,
    with no redirect, forks one child for it on the standard input and
    output, waits for that child and goes on with the input after the
    newline; the child opens nothing and calls [execvp] with the first word
    and the words. *)
Theorem plain_line_runs_one_command
    (st : shell) (words : list string) (rest : string) (status : Z) :
  words <> [] -> length words <= 63 -> Forall plain_word words ->
  sh_input st = spaced words +:+ String NL rest ->
  length (sh_cmds st) = MAX_CMDS ->
  os_children (sh_os st) = [] ->
  os_fork (sh_os st) (os_nfork (sh_os st)) = ForkChild (Some status) ->
  let cmd := mkCmd words (length words) [] [] in
  let pid := Z.of_nat (S (os_nfork (sh_os st))) in
  let child := mkProc cmd STDIN_FILENO STDOUT_FILENO in
  (exists st', main_body st = Ret st' /\
     sh_input st' = rest /\ sh_running st' = sh_running st /\ sh_status st' = 1%Z /\
     sh_cmds st' = <[0 := Some cmd]> (sh_cmds st) /\
     os_children (sh_os st') = [] /\
     os_trace (sh_os st') =
       os_trace (print_prompt st) ++
       [EvFork (Some (pid, child)); EvWait (Some (pid, status)); EvWait None]) /\
  (forall env,
     spawn_child child env =
       if ce_execvp env (nth 0 words EmptyString) words
       then [CvExecvp (nth 0 words EmptyString) words true]
       else [CvExecvp (nth 0 words EmptyString) words false;
             CvPerror (nth 0 words EmptyString); CvExit 1]).
Proof.
  intros Hne Hlen Hplain Hin Hcmds Hch Hfork cmd pid child.
  split; [|intros env; unfold spawn_child; cbn; by destruct (ce_execvp env _ _)].
  assert (Forall is_item words) as Hitems.
  { eapply Forall_impl; [exact Hplain|]. by intros w (_ & ? & _)%plain_word_first. }
  assert (token_of <$> words = words) as Htok.
  { clear -Hplain. induction Hplain as [|w words Hw _ IH]; [done|].
    cbn. rewrite IH. by destruct (plain_word_first w Hw) as (-> & _). }
  assert (Lex.getline (sh_input st) = (words, 1%Z, rest)) as Hline.
  { rewrite Hin. unfold Lex.getline. rewrite yylex_spaced by done.
    rewrite add_args_take by (cbn; lia). rewrite Htok. cbn [app].
    by rewrite take_ge by lia. }
  assert (Forall (fun w => is_pipe w = false) words) as Hnopipe.
  { eapply Forall_impl; [exact Hplain|]. by intros w (? & _)%plain_word_no_symbol. }
  assert (Forall (fun w => is_redirect w = false) words) as Hnored.
  { eapply Forall_impl; [exact Hplain|]. by intros w (_ & ? & _)%plain_word_no_symbol. }
  assert (parse (tokens (sh_input st)) (sh_cmds st) =
          Ret (mkParseOut true 1 (<[0 := Some cmd]> (sh_cmds st)) None)) as Hparse.
  { unfold tokens. rewrite Hline. cbn [fst]. rewrite parse_build.
    destruct words as [|w words']; [done|].
    rewrite split_pipes_plain by done. cbn [build].
    rewrite bool_decide_eq_false_2 by done. rewrite new_cmd_plain by done.
    unfold store. rewrite bool_decide_eq_true_2 by (rewrite Hcmds; unfold MAX_CMDS; lia).
    done. }
  assert (external cmd) as Hext.
  { destruct words as [|w words']; [done|].
    apply Forall_cons in Hplain as [(_ & _ & Hnl)%plain_word_no_symbol _].
    unfold external, builtin. cbn. apply Ascii.eqb_neq in Hnl. by rewrite Hnl. }
  pose proof (print_prompt_trace st) as (Hnf & Hpch & _ & _).
  assert (os_fork (print_prompt st) = os_fork (sh_os st)) as Hpf.
  { unfold print_prompt. by destruct (_ && _). }
  rewrite (main_body_parsed _ _ Hparse). cbn [p_err p_ret p_cmdn p_cmds andb].
  rewrite bool_decide_eq_true_2 by lia. rewrite bool_decide_eq_false_2 by lia.
  assert (load (<[0 := Some cmd]> (sh_cmds st)) 0 = Ret cmd) as ->.
  { unfold load. rewrite list_lookup_insert_eq; [done|].
    rewrite Hcmds. unfold MAX_CMDS. lia. }
  cbn [bind]. unfold exec. rewrite spawn_external by done.
  rewrite Hpf, Hnf, Hfork. change (CMD_SUCCESS =? CMD_EXIT)%Z with false. cbn iota.
  unfold sys_fork. rewrite Hpf, Hnf, Hfork. cbn [snd].
  unfold wait_all. cbn [os_children]. rewrite Hpch, Hch.
  cbn -[Nat.modulo print_prompt]. rewrite Nat.mod_1_r. cbn -[print_prompt].
  eexists. split; [done|]. cbn -[print_prompt].
  unfold line_rest, line_status, still_running, line_status. rewrite Hline.
  cbn -[print_prompt]. rewrite <- !app_assoc.
  destruct (status_result status =? CMD_EXIT)%Z eqn:Hs; [|done].
  unfold status_result in Hs. by destruct (status =? 0)%Z.
Qed.

Lemma plain_line_runs_one_command_witness :
  exists st', main_body (main_init (line "ls -l /tmp " +:+ line "exit") os_plain) = Ret st' /\
    sh_input st' = line "exit" /\
    os_trace (sh_os st') =
      [EvFork (Some (1%Z, mkProc (mkCmd ["ls"; "-l"; "/tmp"]%string 3 [] []) 0 1));
       EvWait (Some (1%Z, 0%Z)); EvWait None].
Proof.
  destruct (plain_line_runs_one_command
              (main_init (line "ls -l /tmp " +:+ line "exit") os_plain)
              ["ls"; "-l"; "/tmp"]%string (line "exit") 0%Z)
    as [(st' & Hbody & Hin & _ & _ & _ & _ & Htr) _].
  - discriminate.
  - cbn. lia.
  - repeat (constructor; [by split_and!|]). constructor.
  - reflexivity.
  - reflexivity.
  - reflexivity.
  - reflexivity.
  - exists st'. split; [exact Hbody|]. split; [exact Hin|]. exact Htr.
Defined.

End PlainCommand.
